(** * GENIE profiler: a shallow embedding of [profiler.h] / [profiler.cpp]

    The development follows the two translation units of the profiler:
    the data model and the singleton's operations ([Profiler::start],
    [Profiler::stop], [Profiler::add_bytes], [Profiler::entries],
    [Profiler::clear]), the reporter ([dump_profile]) and the inert
    replacement that the header selects when [GENIE_PROFILE] is undefined.

    Conventions.
    - [uint64_t] is a [Z] reduced modulo [2^64] after every update.
    - [double] is IEEE-754 binary64, taken from the Standard Library's
      [SpecFloat] ([prec = 53], [emax = 1024]); all arithmetic is the
      correctly rounded one.
    - [std::chrono::steady_clock::time_point] is the tick count of the
      clock, in nanoseconds; every operation that reads the clock receives
      the value it read as an argument.
    - [std::unordered_map] is a [gmap]; its iteration order, which C++
      leaves open, is the one of [map_to_list].
    - [thread_local] storage is a map from thread identifiers to the
      thread's own copy.
    - A call that can throw returns an [Outcome]; running out of memory is
      not modelled. *)

From Stdlib Require Import ZArith String Ascii List Lia Bool.
From Stdlib Require Import DecimalString DecimalFacts DecimalN.
From Stdlib Require Import Floats.SpecFloat.
From stdpp Require Import gmap strings list fin_maps sorting.

Local Open Scope Z_scope.

(** ** Machine integers *)

Definition u64_mod : Z := 2 ^ 64.

Definition u64 (z : Z) : Z := z mod u64_mod.

Definition is_u64 (z : Z) : Prop := 0 <= z < u64_mod.

(** ** Doubles *)

Module Double.

Definition prec : Z := 53.
Definition emax : Z := 1024.

Definition double : Type := spec_float.

Definition zero : double := S754_zero false.

Definition add (x y : double) : double := SFadd prec emax x y.
Definition div (x y : double) : double := SFdiv prec emax x y.

(** [a > b] *)
Definition gt (a b : double) : bool := SFltb b a.
(** [a >= b] *)
Definition ge (a b : double) : bool := SFleb b a.

(** [static_cast<double>(z)] for an integer [z]. *)
Definition of_Z (z : Z) : double := binary_normalize prec emax z 0 false.

Definition is_nan (x : double) : bool :=
  match x with S754_nan => true | _ => false end.

Definition is_finite (x : double) : bool :=
  match x with S754_zero _ | S754_finite _ _ _ => true | _ => false end.

(** Non-negative and not a NaN: [+0], a positive finite number or [+inf]. *)
Definition nonneg (x : double) : bool :=
  match x with
  | S754_zero false | S754_infinity false | S754_finite false _ _ => true
  | _ => false
  end.

End Double.

Abbreviation double := Double.double.

(** ** Data model ([profiler.h]) *)

Abbreviation time_point := Z (only parsing).
Abbreviation thread_id := nat (only parsing).

(** [Profiler::TimerState]; the constructor only sets [active]. *)
Record TimerState : Type := mkTimerState {
  start_time : time_point;
  active : bool
}.

Record ProfileEntry : Type := mkProfileEntry {
  name : string;
  calls : Z;
  total_seconds : double;
  total_bytes : Z
}.

(** [ProfileEntry()] *)
Definition ProfileEntry_default : ProfileEntry :=
  mkProfileEntry EmptyString 0 Double.zero 0.

Definition set_name (n : string) (e : ProfileEntry) : ProfileEntry :=
  mkProfileEntry n (calls e) (total_seconds e) (total_bytes e).

(** [entry.calls++] *)
Definition incr_calls (e : ProfileEntry) : ProfileEntry :=
  mkProfileEntry (name e) (u64 (calls e + 1)) (total_seconds e) (total_bytes e).

(** [entry.total_seconds += elapsed] *)
Definition add_seconds (elapsed : double) (e : ProfileEntry) : ProfileEntry :=
  mkProfileEntry (name e) (calls e) (Double.add (total_seconds e) elapsed)
                 (total_bytes e).

(** [entry.total_bytes += bytes] *)
Definition add_total_bytes (bytes : Z) (e : ProfileEntry) : ProfileEntry :=
  mkProfileEntry (name e) (calls e) (total_seconds e)
                 (u64 (total_bytes e + bytes)).

Abbreviation Registry := (gmap string ProfileEntry).
Abbreviation Timers := (gmap string TimerState).

(** The singleton together with every thread's [thread_timers_]. *)
Record Profiler : Type := mkProfiler {
  entries_ : Registry;
  thread_timers_ : gmap thread_id Timers
}.

Definition Profiler_init : Profiler := mkProfiler ∅ ∅.

(** The calling thread's [thread_timers_]. *)
Definition timers_of (tid : thread_id) (p : Profiler) : Timers :=
  default ∅ (thread_timers_ p !! tid).

Definition set_timers (tid : thread_id) (t : Timers) (p : Profiler) : Profiler :=
  mkProfiler (entries_ p) (<[tid := t]> (thread_timers_ p)).

Definition set_entries (r : Registry) (p : Profiler) : Profiler :=
  mkProfiler r (thread_timers_ p).

(** [entries_[key]]: the stored entry, default-constructed when absent. *)
Definition entry_at (key : string) (r : Registry) : ProfileEntry :=
  default ProfileEntry_default (r !! key).

(** [std::chrono::duration<double>(d).count()] for a tick difference [d]:
    the conversion from nanoseconds divides the count, as a double, by
    [1e9]. *)
Definition duration_seconds (d : Z) : double :=
  Double.div (Double.of_Z d) (Double.of_Z 1000000000).

(** ** [Profiler::start] *)

Definition start (tid : thread_id) (now : time_point) (key : string)
    (p : Profiler) : Profiler :=
  set_timers tid (<[key := mkTimerState now true]> (timers_of tid p)) p.

(** ** [Profiler::stop]

    The part before the lock only touches the caller's timers; it yields
    the elapsed time when a timer was active. *)
Definition stop_local (stop_time : time_point) (key : string) (t : Timers)
    : option (double * Timers) :=
  match t !! key with
  | None => None
  | Some st =>
      if negb (active st) then None
      else
        let elapsed := duration_seconds (stop_time - start_time st) in
        Some (elapsed, <[key := mkTimerState (start_time st) false]> t)
  end.

(** The block guarded by [std::lock_guard]. *)
Definition stop_commit (key : string) (elapsed : double) (r : Registry)
    : Registry :=
  let entry := entry_at key r in
  let entry := set_name key entry in
  let entry := incr_calls entry in
  let entry := add_seconds elapsed entry in
  <[key := entry]> r.

Definition stop (tid : thread_id) (stop_time : time_point) (key : string)
    (p : Profiler) : Profiler :=
  match stop_local stop_time key (timers_of tid p) with
  | None => p
  | Some (elapsed, t') =>
      set_entries (stop_commit key elapsed (entries_ p)) (set_timers tid t' p)
  end.

(** ** [Profiler::add_bytes] *)

Definition add_bytes_commit (key : string) (bytes : Z) (r : Registry)
    : Registry :=
  let entry := entry_at key r in
  let entry := set_name key entry in
  let entry := add_total_bytes bytes entry in
  <[key := entry]> r.

Definition add_bytes (key : string) (bytes : Z) (p : Profiler) : Profiler :=
  set_entries (add_bytes_commit key bytes (entries_ p)) p.

(** ** [Profiler::clear] *)

Definition clear (p : Profiler) : Profiler := set_entries ∅ p.

(** ** [Profiler::entries]

    [std::sort] promises a permutation ordered by the comparison it is
    given and nothing about equal keys; a merge sort stands for it, putting
    [a] before [b] unless [comp b a]. *)

Definition may_precede {A : Type} (comp : A → A → bool) (a b : A) : Prop :=
  comp b a = false.

#[global] Instance may_precede_dec {A : Type} (comp : A → A → bool) (a b : A) :
  Decision (may_precede comp a b).
Proof. unfold may_precede. apply _. Defined.

Definition std_sort {A : Type} (comp : A → A → bool) (l : list A) : list A :=
  merge_sort (may_precede comp) l.

(** The lambda handed to [std::sort]. *)
Definition by_total_desc (a b : ProfileEntry) : bool :=
  Double.gt (total_seconds a) (total_seconds b).

(** The [for] loop over [entries_], pushing each mapped value. *)
Definition collect_entries (r : Registry) : list ProfileEntry :=
  foldl (λ result pair, result ++ [pair.2]) [] (map_to_list r).

(** The method is [const]: the profiler comes back as it went in. *)
Definition entries (p : Profiler) : list ProfileEntry * Profiler :=
  let result := collect_entries (entries_ p) in
  (std_sort by_total_desc result, p).

(** ** Text output *)

Definition nl : string := String "010"%char EmptyString.

(** [out << n] for an unsigned integer. *)
Definition show_u64 (n : Z) : string :=
  NilZero.string_of_uint (N.to_uint (Z.to_N n)).

Definition digit_char (d : Z) : ascii :=
  ascii_of_nat (48 + Z.to_nat d).

(** Exactly [k] decimal digits of [n], most significant first. *)
Fixpoint show_padded (k : nat) (n : Z) : string :=
  match k with
  | O => EmptyString
  | S k' => (show_padded k' (n / 10) ++ String (digit_char (n mod 10)) EmptyString)%string
  end.

(** Nearest integer to [num / den] for [den > 0], ties to even. *)
Definition round_half_even (num den : Z) : Z :=
  let q := num / den in
  let r := num mod den in
  match Z.compare (2 * r) den with
  | Lt => q
  | Gt => q + 1
  | Eq => if Z.even q then q else q + 1
  end.

(** The magnitude [m * 2^e] in millionths, rounded. *)
Definition micro_units (m : positive) (e : Z) : Z :=
  match e with
  | Zneg k => round_half_even (Zpos m * 1000000) (2 ^ Zpos k)
  | _ => Zpos m * 2 ^ e * 1000000
  end.

Definition show_micro (q : Z) : string :=
  (show_u64 (q / 1000000) ++ "." ++ show_padded 6 (q mod 1000000))%string.

(** [out << std::fixed << std::setprecision(6) << x]: the decimal expansion
    with six digits after the point, the exact value being rounded to the
    nearest such decimal (ties to even); the sign is printed for negative
    numbers, negative zero included. *)
Definition show_fixed6 (x : double) : string :=
  match x with
  | S754_nan => "nan"
  | S754_infinity s => if s then "-inf" else "inf"
  | S754_zero s => ((if s then "-" else EmptyString) ++ show_micro 0)%string
  | S754_finite s m e => ((if s then "-" else EmptyString) ++ show_micro (micro_units m e))%string
  end.

(** ** [dump_profile] *)

(** What the reporter can observe and change: the files, whether a path
    can be opened for writing, and the two standard streams. *)
Record Env : Type := mkEnv {
  files : gmap string string;
  can_open : string → bool;
  cout : string;
  cerr : string
}.

Definition cerr_write (s : string) (env : Env) : Env :=
  mkEnv (files env) (can_open env) (cout env) (cerr env ++ s).

Definition cout_write (s : string) (env : Env) : Env :=
  mkEnv (files env) (can_open env) (cout env ++ s) (cerr env).

(** [std::ofstream out(filename)]: on success the file exists and is empty. *)
Definition ofstream_open (filename : string) (env : Env) : option Env :=
  if can_open env filename
  then Some (mkEnv (<[filename := EmptyString]> (files env))
                   (can_open env) (cout env) (cerr env))
  else None.

(** [out.close()]: what was written to the stream is the file's content. *)
Definition ofstream_close (filename out : string) (env : Env) : Env :=
  mkEnv (<[filename := out]> (files env)) (can_open env) (cout env) (cerr env).

(** What a call hands to its caller: its result, or an exception. *)
Inductive Outcome (A : Type) : Type :=
  | Returned (a : A)
  | Thrown (what : string).

Arguments Returned {A} a.
Arguments Thrown {A} what.

#[global] Instance Outcome_ret : MRet Outcome := λ A a, Returned a.

#[global] Instance Outcome_bind : MBind Outcome := λ A B f o,
  match o with
  | Returned a => f a
  | Thrown what => Thrown what
  end.

(** [a - b] on [size_t], for sizes that fit: below zero it wraps around. *)
Definition size_sub (a b : Z) : Z :=
  if b <=? a then a - b else a - b + u64_mod.

(** [s.substr(pos)]: the rest of [s] from [pos] on; [std::out_of_range]
    when [pos] lies beyond the end. *)
Definition substr (s : string) (pos : Z) : Outcome string :=
  if pos <=? Z.of_nat (String.length s)
  then Returned (String.substring (Z.to_nat pos)
                   (String.length s - Z.to_nat pos) s)
  else Thrown "std::out_of_range".

(** [filename.size() >= n && filename.substr(filename.size() - n) == suffix]
    with [n] the length of [suffix]; the second operand is evaluated only
    when the first holds. *)
Definition ends_with (suffix filename : string) : Outcome bool :=
  let n := Z.of_nat (String.length suffix) in
  let size := Z.of_nat (String.length filename) in
  if n <=? size
  then substr filename (size_sub size n) ≫= λ tail : string,
       mret (bool_decide (tail = suffix))
  else mret false.

Definition dq : string := String "034"%char EmptyString.

Section Writers.
Local Open Scope string_scope.

(** The body of the JSON loop for the entry at index [i] of [size]. *)
Definition write_json_entry (size i : nat) (entry : ProfileEntry)
    (out : string) : string :=
  let out := out ++ "  {" ++ nl in
  let out := out ++ "    " ++ dq ++ "name" ++ dq ++ ": " ++ dq ++ name entry
                 ++ dq ++ "," ++ nl in
  let out := out ++ "    " ++ dq ++ "calls" ++ dq ++ ": "
                 ++ show_u64 (calls entry) ++ "," ++ nl in
  let out := out ++ "    " ++ dq ++ "total_seconds" ++ dq ++ ": "
                 ++ show_fixed6 (total_seconds entry) in
  let out :=
    if (0 <? total_bytes entry)%Z
    then out ++ "," ++ nl ++ "    " ++ dq ++ "total_bytes" ++ dq ++ ": "
             ++ show_u64 (total_bytes entry)
    else out in
  let out := out ++ nl ++ "  }" in
  let out := if (i + 1 <? size)%nat then out ++ "," else out in
  out ++ nl.

(** [for (size_t i = 0; i < entries.size(); ++i)], entered at index [i]
    with [rest] the entries from there on. *)
Fixpoint write_json_loop (size i : nat) (rest : list ProfileEntry)
    (out : string) : string :=
  match rest with
  | [] => out
  | entry :: rest' =>
      write_json_loop size (S i) rest' (write_json_entry size i entry out)
  end.

Definition write_json (entries : list ProfileEntry) (out : string) : string :=
  let out := out ++ "[" ++ nl in
  let out := write_json_loop (length entries) 0 entries out in
  out ++ "]" ++ nl.

(** The body of the CSV loop. *)
Definition write_csv_entry (entry : ProfileEntry) (out : string) : string :=
  let avg :=
    if (0 <? calls entry)%Z
    then Double.div (total_seconds entry) (Double.of_Z (calls entry))
    else Double.zero in
  out ++ name entry ++ ","
      ++ show_u64 (calls entry) ++ ","
      ++ show_fixed6 (total_seconds entry) ++ ","
      ++ show_fixed6 avg ++ ","
      ++ show_u64 (total_bytes entry) ++ nl.

Definition write_csv (entries : list ProfileEntry) (out : string) : string :=
  let out := out ++ "name,calls,total_seconds,avg_seconds,total_bytes" ++ nl in
  foldl (λ out entry, write_csv_entry entry out) out entries.

Definition dump_profile (entries : list ProfileEntry) (filename : string)
    (env : Env) : Outcome Env :=
  match entries with
  | [] => mret (cerr_write ("Warning: No profiling data collected" ++ nl) env)
  | _ :: _ =>
      match ofstream_open filename env with
      | None =>
          mret (cerr_write ("Error: Could not open profile output file: "
                            ++ filename ++ nl) env)
      | Some env =>
          ends_with ".json" filename ≫= λ is_json : bool,
          ends_with ".csv" filename ≫= λ is_csv : bool,
          let out :=
            if is_json then write_json entries EmptyString
            else write_csv entries EmptyString in
          let env := ofstream_close filename out env in
          mret (cout_write ("Profiling data written to: " ++ filename ++ nl) env)
      end
  end.

End Writers.

(** Whether [key] has a running timer on thread [tid]. *)
Definition timer_active (tid : thread_id) (key : string) (p : Profiler) : bool :=
  match timers_of tid p !! key with
  | Some st => active st
  | None => false
  end.

(** A region entered at [c.1] and left at [c.2], repeated for each [c]. *)
Definition run_cycles (tid : thread_id) (key : string)
    (cs : list (time_point * time_point)) (p : Profiler) : Profiler :=
  foldl (λ p c, stop tid c.2 key (start tid c.1 key p)) p cs.

(** Left-to-right sum, as repeated [+=] computes it. *)
Definition sum_doubles (acc : double) (l : list double) : double :=
  foldl Double.add acc l.

(** ** Ordering of doubles *)

(** A key whose lexicographic order is the order of the doubles that are
    not NaN. *)
Definition rank (x : double) : Z * Z * Z :=
  match x with
  | S754_nan => (0, 0, 0)
  | S754_zero _ => (0, 0, 0)
  | S754_infinity s => (if s then -2 else 2, 0, 0)
  | S754_finite s m e => if s then (-1, - e, - Zpos m) else (1, e, Zpos m)
  end.

Definition lex_lt (a b : Z * Z * Z) : Prop :=
  a.1.1 < b.1.1 ∨ (a.1.1 = b.1.1 ∧ (a.1.2 < b.1.2 ∨ (a.1.2 = b.1.2 ∧ a.2 < b.2))).

Definition no_nan (l : list ProfileEntry) : Prop :=
  Forall (λ e, Double.is_nan (total_seconds e) = false) l.

(** [a.total_seconds >= b.total_seconds] *)
Definition total_ge (a b : ProfileEntry) : Prop :=
  Double.ge (total_seconds a) (total_seconds b) = true.

(** ** The CSV report, row by row *)

Definition avg_seconds (e : ProfileEntry) : double :=
  if 0 <? calls e
  then Double.div (total_seconds e) (Double.of_Z (calls e))
  else Double.zero.

Definition csv_header : string :=
  ("name,calls,total_seconds,avg_seconds,total_bytes" ++ nl)%string.

Definition csv_row (e : ProfileEntry) : string :=
  (name e ++ "," ++ show_u64 (calls e) ++ ","
   ++ show_fixed6 (total_seconds e) ++ "," ++ show_fixed6 (avg_seconds e) ++ ","
   ++ show_u64 (total_bytes e) ++ nl)%string.

Definition concat_strings (l : list string) : string :=
  foldr String.append EmptyString l.

(** ** The two builds behind one interface

    [GENIE_PROFILE] chooses between the engine above and the inert
    definitions of the header's [#else] branch.  Both offer the same
    operations; [St] is what the [Profiler] object and the threads' timers
    hold, which is nothing at all for the inert build. *)

Record ProfilerApi (St : Type) : Type := mkProfilerApi {
  api_init : St;
  api_start : thread_id → time_point → string → St → St;
  api_stop : thread_id → time_point → string → St → St;
  api_add_bytes : string → Z → St → St;
  api_entries : St → list ProfileEntry * St;
  api_clear : St → St;
  api_scoped_enter : thread_id → time_point → string → St → St;
  api_scoped_exit : thread_id → time_point → string → St → St;
  api_dump_profile : list ProfileEntry → string → Env → Outcome Env
}.

Arguments api_init {St} _.
Arguments api_start {St} _ _ _ _ _.
Arguments api_stop {St} _ _ _ _ _.
Arguments api_add_bytes {St} _ _ _ _.
Arguments api_entries {St} _ _.
Arguments api_clear {St} _ _.
Arguments api_scoped_enter {St} _ _ _ _ _.
Arguments api_scoped_exit {St} _ _ _ _ _.
Arguments api_dump_profile {St} _ _ _ _.

(** With [GENIE_PROFILE]: [ScopedTimer] starts in its constructor and stops
    in its destructor. *)
Definition engine : ProfilerApi Profiler :=
  mkProfilerApi Profiler Profiler_init start stop add_bytes entries clear
    start stop dump_profile.

(** Without [GENIE_PROFILE]: every body is empty and [entries] returns an
    empty vector. *)
Module Stub.

Definition start (tid : thread_id) (now : time_point) (key : string) (s : unit) : unit := s.
Definition stop (tid : thread_id) (now : time_point) (key : string) (s : unit) : unit := s.
Definition add_bytes (key : string) (bytes : Z) (s : unit) : unit := s.
Definition entries (s : unit) : list ProfileEntry * unit := ([], s).
Definition clear (s : unit) : unit := s.
Definition scoped_enter (tid : thread_id) (now : time_point) (key : string) (s : unit) : unit := s.
Definition scoped_exit (tid : thread_id) (now : time_point) (key : string) (s : unit) : unit := s.
Definition dump_profile (entries : list ProfileEntry) (filename : string) (env : Env) : Outcome Env := mret env.

End Stub.

Definition stub : ProfilerApi unit :=
  mkProfilerApi unit tt Stub.start Stub.stop Stub.add_bytes Stub.entries
    Stub.clear Stub.scoped_enter Stub.scoped_exit Stub.dump_profile.

(** What a host program asks of the profiler.  [CallReport] is the usual
    [dump_profile(Profiler::instance().entries(), path)]. *)
Inductive Call : Type :=
  | CallStart (tid : thread_id) (now : time_point) (key : string)
  | CallStop (tid : thread_id) (now : time_point) (key : string)
  | CallAddBytes (key : string) (bytes : Z)
  | CallEntries
  | CallClear
  | CallScopedEnter (tid : thread_id) (now : time_point) (key : string)
  | CallScopedExit (tid : thread_id) (now : time_point) (key : string)
  | CallDump (entries : list ProfileEntry) (filename : string)
  | CallReport (filename : string).

(** What the host can see: the files and streams, every vector that
    [entries] handed back, and the exception, if any, that came out of a
    call and ended the host. *)
Record Host (St : Type) : Type := mkHost {
  host_profiler : St;
  host_env : Env;
  host_seen : list (list ProfileEntry);
  host_thrown : option string
}.

Arguments mkHost {St} _ _ _ _.
Arguments host_profiler {St} _.
Arguments host_env {St} _.
Arguments host_seen {St} _.
Arguments host_thrown {St} _.

Definition host_dump {St : Type} (s : St) (seen : list (list ProfileEntry))
    (o : Outcome Env) (h : Host St) : Host St :=
  match o with
  | Returned env => mkHost s env seen None
  | Thrown what => mkHost s (host_env h) seen (Some what)
  end.

Definition host_call {St : Type} (api : ProfilerApi St) (h : Host St) (c : Call)
    : Host St :=
  let s := host_profiler h in
  match host_thrown h with
  | Some _ => h
  | None =>
      match c with
      | CallStart tid now key =>
          mkHost (api_start api tid now key s) (host_env h) (host_seen h) None
      | CallStop tid now key =>
          mkHost (api_stop api tid now key s) (host_env h) (host_seen h) None
      | CallAddBytes key bytes =>
          mkHost (api_add_bytes api key bytes s) (host_env h) (host_seen h) None
      | CallEntries =>
          let r := api_entries api s in
          mkHost r.2 (host_env h) (host_seen h ++ [r.1]) None
      | CallClear =>
          mkHost (api_clear api s) (host_env h) (host_seen h) None
      | CallScopedEnter tid now key =>
          mkHost (api_scoped_enter api tid now key s) (host_env h) (host_seen h) None
      | CallScopedExit tid now key =>
          mkHost (api_scoped_exit api tid now key s) (host_env h) (host_seen h) None
      | CallDump es filename =>
          host_dump s (host_seen h) (api_dump_profile api es filename (host_env h)) h
      | CallReport filename =>
          let r := api_entries api s in
          host_dump r.2 (host_seen h ++ [r.1])
            (api_dump_profile api r.1 filename (host_env h)) h
      end
  end.

Definition host_run {St : Type} (api : ProfilerApi St) (cs : list Call)
    (h : Host St) : Host St :=
  foldl (host_call api) h cs.

(** ** Threads and the mutex

    To follow concurrent callers the operations are cut where another
    thread can run in between.  [start] and the part of [stop] before the
    lock touch only the caller's [thread_timers_] and take one step.  Under
    [std::lock_guard] each statement is a step of its own, and the
    compound assignments ([calls++], [total_seconds += elapsed],
    [total_bytes += bytes]) read into a temporary in one step and write back
    in the next: the interleavings that lose updates when nothing excludes
    them. *)

Inductive Op : Type :=
  | OpStart (now : time_point) (key : string)
  | OpStop (now : time_point) (key : string)
  | OpAddBytes (key : string) (bytes : Z).

(** What a caller is about to do to the registry under the lock. *)
Inductive Update : Type :=
  | UpdStop (key : string) (elapsed : double)
  | UpdBytes (key : string) (bytes : Z).

Definition update_key (u : Update) : string :=
  match u with UpdStop key _ | UpdBytes key _ => key end.

(** The guarded block run without interruption. *)
Definition update_apply (u : Update) (r : Registry) : Registry :=
  match u with
  | UpdStop key elapsed => stop_commit key elapsed r
  | UpdBytes key bytes => add_bytes_commit key bytes r
  end.

Definition replay (r : Registry) (log : list Update) : Registry :=
  foldl (λ r u, update_apply u r) r log.

(** Where a thread stands inside the guarded block: before the statement
    named. *)
Inductive Stage : Type :=
  | AtIndex                        (* auto& entry = entries_[key]; *)
  | AtName                         (* entry.name = key; *)
  | AtLoad                         (* read entry.calls or entry.total_bytes *)
  | AtStore (tmp : Z)              (* write it back, advanced *)
  | AtLoadSeconds                  (* read entry.total_seconds *)
  | AtStoreSeconds (tmp : double)  (* write back the sum *)
  | AtUnlock.                      (* the guard's destructor *)

Definition set_calls (c : Z) (e : ProfileEntry) : ProfileEntry :=
  mkProfileEntry (name e) c (total_seconds e) (total_bytes e).

Definition set_total_seconds (t : double) (e : ProfileEntry) : ProfileEntry :=
  mkProfileEntry (name e) (calls e) t (total_bytes e).

Definition set_total_bytes (b : Z) (e : ProfileEntry) : ProfileEntry :=
  mkProfileEntry (name e) (calls e) (total_seconds e) b.

(** A write through the reference [entry]. *)
Definition modify (key : string) (f : ProfileEntry → ProfileEntry) (r : Registry)
    : Registry :=
  <[key := f (entry_at key r)]> r.

Definition cs_step (u : Update) (st : Stage) (r : Registry) : Stage * Registry :=
  match st with
  | AtIndex => (AtName, modify (update_key u) id r)
  | AtName => (AtLoad, modify (update_key u) (set_name (update_key u)) r)
  | AtLoad =>
      match u with
      | UpdStop key _ => (AtStore (calls (entry_at key r)), r)
      | UpdBytes key _ => (AtStore (total_bytes (entry_at key r)), r)
      end
  | AtStore tmp =>
      match u with
      | UpdStop key _ => (AtLoadSeconds, modify key (set_calls (u64 (tmp + 1))) r)
      | UpdBytes key bytes => (AtUnlock, modify key (set_total_bytes (u64 (tmp + bytes))) r)
      end
  | AtLoadSeconds => (AtStoreSeconds (total_seconds (entry_at (update_key u) r)), r)
  | AtStoreSeconds tmp =>
      match u with
      | UpdStop key elapsed =>
          (AtUnlock, modify key (set_total_seconds (Double.add tmp elapsed)) r)
      | UpdBytes _ _ => (AtUnlock, r)
      end
  | AtUnlock => (AtUnlock, r)
  end.

(** Statements left before the unlock, at most. *)
Definition stage_left (st : Stage) : nat :=
  match st with
  | AtIndex => 6
  | AtName => 5
  | AtLoad => 4
  | AtStore _ => 3
  | AtLoadSeconds => 2
  | AtStoreSeconds _ => 1
  | AtUnlock => 0
  end.

(** The registry once the block that stands at [st] has run to its end. *)
Definition cs_finish (u : Update) (st : Stage) (r : Registry) : Registry :=
  (Nat.iter (stage_left st) (λ sr, cs_step u sr.1 sr.2) (st, r)).2.

Inductive Pc : Type :=
  | Idle
  | WantLock (u : Update)
  | InCS (u : Update) (st : Stage).

Record Thread : Type := mkThread {
  th_timers : Timers;
  th_pc : Pc;
  th_todo : list Op
}.

Record Machine : Type := mkMachine {
  m_entries : Registry;
  m_mutex : option thread_id;
  m_threads : list Thread
}.

Definition set_thread (i : thread_id) (th : Thread) (m : Machine) : Machine :=
  mkMachine (m_entries m) (m_mutex m) (<[i := th]> (m_threads m)).

(** One step of thread [i]; [None] when it has finished or waits for the
    mutex. *)
Definition thread_step (i : thread_id) (m : Machine) : option Machine :=
  match m_threads m !! i with
  | None => None
  | Some th =>
      match th_pc th with
      | Idle =>
          match th_todo th with
          | [] => None
          | OpStart now key :: rest =>
              Some (set_thread i
                      (mkThread (<[key := mkTimerState now true]> (th_timers th))
                                Idle rest) m)
          | OpStop now key :: rest =>
              match stop_local now key (th_timers th) with
              | None => Some (set_thread i (mkThread (th_timers th) Idle rest) m)
              | Some (elapsed, t') =>
                  Some (set_thread i
                          (mkThread t' (WantLock (UpdStop key elapsed)) rest) m)
              end
          | OpAddBytes key bytes :: rest =>
              Some (set_thread i
                      (mkThread (th_timers th) (WantLock (UpdBytes key bytes)) rest) m)
          end
      | WantLock u =>
          match m_mutex m with
          | Some _ => None
          | None =>
              Some (mkMachine (m_entries m) (Some i)
                      (<[i := mkThread (th_timers th) (InCS u AtIndex) (th_todo th)]>
                         (m_threads m)))
          end
      | InCS u AtUnlock =>
          Some (mkMachine (m_entries m) None
                  (<[i := mkThread (th_timers th) Idle (th_todo th)]> (m_threads m)))
      | InCS u st =>
          let sr := cs_step u st (m_entries m) in
          Some (mkMachine sr.2 (m_mutex m)
                  (<[i := mkThread (th_timers th) (InCS u sr.1) (th_todo th)]>
                     (m_threads m)))
      end
  end.

Definition step (m m' : Machine) : Prop := ∃ i, thread_step i m = Some m'.

(** The scheduler picks the threads in the order of [sched]; a thread that
    cannot move is passed over. *)
Definition run_schedule (sched : list thread_id) (m : Machine) : Machine :=
  foldl (λ m i, default m (thread_step i m)) m sched.

(** For comparison, the same steps taken by callers that do not wait for
    the mutex. *)
Definition racy_step (i : thread_id) (m : Machine) : option Machine :=
  thread_step i (mkMachine (m_entries m) None (m_threads m)).

Definition run_racy (sched : list thread_id) (m : Machine) : Machine :=
  foldl (λ m i, default m (racy_step i m)) m sched.

Definition thread_done (th : Thread) : Prop :=
  th_pc th = Idle ∧ th_todo th = [].

Definition finished (m : Machine) : Prop := Forall thread_done (m_threads m).

(** The updates a thread will still ask for: they depend on its own timers
    and calls only. *)
Fixpoint owed_from (t : Timers) (todo : list Op) : list Update :=
  match todo with
  | [] => []
  | OpStart now key :: rest => owed_from (<[key := mkTimerState now true]> t) rest
  | OpStop now key :: rest =>
      match stop_local now key t with
      | None => owed_from t rest
      | Some (elapsed, t') => UpdStop key elapsed :: owed_from t' rest
      end
  | OpAddBytes key bytes :: rest => UpdBytes key bytes :: owed_from t rest
  end.

Definition owed (th : Thread) : list Update :=
  match th_pc th with WantLock u => [u] | _ => [] end
  ++ owed_from (th_timers th) (th_todo th).

(** The registry as it will be when the holder of the mutex, if any, has
    left its block. *)
Definition view (m : Machine) : Registry :=
  match m_mutex m with
  | None => m_entries m
  | Some i =>
      match m_threads m !! i with
      | Some (mkThread _ (InCS u st) _) => cs_finish u st (m_entries m)
      | _ => m_entries m
      end
  end.

Definition in_cs (th : Thread) : Prop :=
  match th_pc th with InCS _ _ => True | _ => False end.

(** The mutex is held exactly by the thread inside a guarded block. *)
Definition lock_ok (m : Machine) : Prop :=
  (∀ i th, m_threads m !! i = Some th → in_cs th → m_mutex m = Some i)
  ∧ (∀ i, m_mutex m = Some i → ∃ th, m_threads m !! i = Some th ∧ in_cs th).

(** [C] cycles of a region: the calls of one thread. *)
Definition cycles (key : string) (cs : list (time_point * time_point)) : list Op :=
  c ← cs; [OpStart c.1 key; OpStop c.2 key].

Definition cycle_seconds (cs : list (time_point * time_point)) : list double :=
  (λ c, duration_seconds (c.2 - c.1)) <$> cs.

(** Fresh threads, one per list of cycles, before any of them has run. *)
Definition spawn (r : Registry) (key : string)
    (progs : list (list (time_point * time_point))) : Machine :=
  mkMachine r None ((λ cs, mkThread ∅ Idle (cycles key cs)) <$> progs).

(** Steps a thread can still take, at most. *)
Definition op_cost (o : Op) : nat :=
  match o with OpStart _ _ => 1 | OpStop _ _ => 9 | OpAddBytes _ _ => 9 end.

Definition pc_cost (pc : Pc) : nat :=
  match pc with
  | Idle => 0
  | WantLock _ => 8
  | InCS _ st => S (stage_left st)
  end.

Definition thread_cost (th : Thread) : nat :=
  pc_cost (th_pc th) + sum_list (op_cost <$> th_todo th).

Definition machine_cost (m : Machine) : nat :=
  sum_list (thread_cost <$> m_threads m).

(** The four kinds of step of thread [i]. *)
Inductive StepCase (i : thread_id) (m : Machine) : Machine → Prop :=
  | StepLocal th th' :
      m_threads m !! i = Some th →
      th_pc th = Idle →
      ¬ in_cs th' →
      owed th' = owed th →
      (thread_cost th' < thread_cost th)%nat →
      StepCase i m (set_thread i th' m)
  | StepAcquire th u :
      m_threads m !! i = Some th →
      th_pc th = WantLock u →
      m_mutex m = None →
      StepCase i m
        (mkMachine (m_entries m) (Some i)
           (<[i := mkThread (th_timers th) (InCS u AtIndex) (th_todo th)]> (m_threads m)))
  | StepInside th u st :
      m_threads m !! i = Some th →
      th_pc th = InCS u st →
      st ≠ AtUnlock →
      StepCase i m
        (mkMachine (cs_step u st (m_entries m)).2 (m_mutex m)
           (<[i := mkThread (th_timers th) (InCS u (cs_step u st (m_entries m)).1)
                            (th_todo th)]> (m_threads m)))
  | StepRelease th u :
      m_threads m !! i = Some th →
      th_pc th = InCS u AtUnlock →
      StepCase i m
        (mkMachine (m_entries m) None
           (<[i := mkThread (th_timers th) Idle (th_todo th)]> (m_threads m))).

(** What has gone into the registry so far, in the order in which the
    mutex was taken, together with what is still to come, is what the
    threads set out to do. *)
Definition log_ok (m0 m : Machine) : Prop :=
  ∃ log, view m = replay (m_entries m0) log
         ∧ log ++ concat (owed <$> m_threads m) ≡ₚ concat (owed <$> m_threads m0).

(** ** States the operations can produce

    [std::chrono::steady_clock] never goes backwards: a [stop] reads a time
    that is not before the one its [start] stored. *)
Inductive reachable : Profiler → Prop :=
  | reachable_init : reachable Profiler_init
  | reachable_start tid now key p :
      reachable p → reachable (start tid now key p)
  | reachable_stop tid now key p :
      reachable p →
      (∀ st, timers_of tid p !! key = Some st → start_time st ≤ now) →
      reachable (stop tid now key p)
  | reachable_add_bytes key bytes p :
      reachable p → reachable (add_bytes key bytes p)
  | reachable_clear p :
      reachable p → reachable (clear p).

Definition registry_nonneg (r : Registry) : Prop :=
  ∀ key e, r !! key = Some e → Double.nonneg (total_seconds e) = true.

(** ** JSON texts

    The grammar of RFC 8259, as a parser: what a consumer of the report
    accepts.  Numbers and strings keep their spelling. *)

#[local] Unset Elimination Schemes.

Inductive Json : Type :=
  | JNull
  | JBool (b : bool)
  | JNumber (text : string)
  | JString (text : string)
  | JArray (items : list Json)
  | JObject (members : list (string * Json)).

#[local] Set Elimination Schemes.

Definition is_ws (c : ascii) : bool :=
  let n := nat_of_ascii c in
  (n =? 32)%nat || (n =? 9)%nat || (n =? 10)%nat || (n =? 13)%nat.

Definition is_digit (c : ascii) : bool :=
  let n := nat_of_ascii c in (48 <=? n)%nat && (n <=? 57)%nat.

Definition is_hex (c : ascii) : bool :=
  let n := nat_of_ascii c in
  is_digit c || ((65 <=? n)%nat && (n <=? 70)%nat) || ((97 <=? n)%nat && (n <=? 102)%nat).

Fixpoint skip_ws (s : string) : string :=
  match s with
  | String c rest => if is_ws c then skip_ws rest else s
  | EmptyString => s
  end.

Fixpoint take_digits (s : string) : string * string :=
  match s with
  | String c rest =>
      if is_digit c
      then let r := take_digits rest in (String c r.1, r.2)
      else (EmptyString, s)
  | EmptyString => (EmptyString, s)
  end.

Definition snoc_char (s : string) (c : ascii) : string :=
  (s ++ String c EmptyString)%string.

(** The characters of a string literal after its opening quote, up to the
    closing one: no raw quote, backslash or control character; a backslash
    starts one of the escapes. *)
Fixpoint parse_chars (s acc : string) : option (string * string) :=
  match s with
  | EmptyString => None
  | String c rest =>
      if Ascii.eqb c "034" then Some (acc, rest)
      else if Ascii.eqb c "092" then
        match rest with
        | String e rest1 =>
            if existsb (Ascii.eqb e) ["034"; "092"; "/"; "b"; "f"; "n"; "r"; "t"]%char
            then parse_chars rest1 (snoc_char (snoc_char acc c) e)
            else if Ascii.eqb e "u" then
              match rest1 with
              | String h1 (String h2 (String h3 (String h4 rest2))) =>
                  if is_hex h1 && is_hex h2 && is_hex h3 && is_hex h4
                  then parse_chars rest2
                         (snoc_char (snoc_char (snoc_char (snoc_char
                            (snoc_char (snoc_char acc c) e) h1) h2) h3) h4)
                  else None
              | _ => None
              end
            else None
        | EmptyString => None
        end
      else if (nat_of_ascii c <? 32)%nat then None
      else parse_chars rest (snoc_char acc c)
  end.

(** An optional minus, then [0] or digits not starting with [0], then
    optionally a point and digits, then optionally an exponent: [e] or [E],
    a sign if any, digits. *)
Definition parse_number (s : string) : option (string * string) :=
  let (sign, s1) :=
    match s with
    | String c rest => if Ascii.eqb c "-" then ("-"%string, rest) else (EmptyString, s)
    | EmptyString => (EmptyString, s)
    end in
  let (int, s2) := take_digits s1 in
  match int with
  | EmptyString => None
  | String d more =>
      if Ascii.eqb d "0" && negb (String.eqb more EmptyString) then None
      else
        let frac :=
          match s2 with
          | String c rest =>
              if Ascii.eqb c "." then
                let (ds, s3) := take_digits rest in
                match ds with
                | EmptyString => None
                | _ => Some (String c ds, s3)
                end
              else Some (EmptyString, s2)
          | EmptyString => Some (EmptyString, s2)
          end in
        match frac with
        | None => None
        | Some (fr, s3) =>
            let exp :=
              match s3 with
              | String c rest =>
                  if Ascii.eqb c "e" || Ascii.eqb c "E" then
                    let (sg, s4) :=
                      match rest with
                      | String g rest' =>
                          if Ascii.eqb g "+" || Ascii.eqb g "-"
                          then (String g EmptyString, rest')
                          else (EmptyString, rest)
                      | EmptyString => (EmptyString, rest)
                      end in
                    let (ds, s5) := take_digits s4 in
                    match ds with
                    | EmptyString => None
                    | _ => Some ((String c sg ++ ds)%string, s5)
                    end
                  else Some (EmptyString, s3)
              | EmptyString => Some (EmptyString, s3)
              end in
            match exp with
            | None => None
            | Some (ex, s5) => Some ((sign ++ int ++ fr ++ ex)%string, s5)
            end
        end
  end.

(** [s] without the prefix [word], when it starts with it. *)
Fixpoint strip_prefix (word s : string) : option string :=
  match word, s with
  | EmptyString, _ => Some s
  | String a word', String b s' => if Ascii.eqb a b then strip_prefix word' s' else None
  | String _ _, EmptyString => None
  end.

Fixpoint parse_value (fuel : nat) (s : string) {struct fuel} : option (Json * string) :=
  match fuel with
  | O => None
  | S fuel' =>
      match skip_ws s with
      | EmptyString => None
      | String c rest =>
          if Ascii.eqb c "{" then
            match skip_ws rest with
            | String c' rest' =>
                if Ascii.eqb c' "}" then Some (JObject [], rest')
                else
                  match parse_members fuel' rest with
                  | Some (ms, r) => Some (JObject ms, r)
                  | None => None
                  end
            | EmptyString => None
            end
          else if Ascii.eqb c "[" then
            match skip_ws rest with
            | String c' rest' =>
                if Ascii.eqb c' "]" then Some (JArray [], rest')
                else
                  match parse_elements fuel' rest with
                  | Some (vs, r) => Some (JArray vs, r)
                  | None => None
                  end
            | EmptyString => None
            end
          else if Ascii.eqb c "034" then
            match parse_chars rest EmptyString with
            | Some (text, r) => Some (JString text, r)
            | None => None
            end
          else
            match strip_prefix "true" (String c rest) with
            | Some r => Some (JBool true, r)
            | None =>
                match strip_prefix "false" (String c rest) with
                | Some r => Some (JBool false, r)
                | None =>
                    match strip_prefix "null" (String c rest) with
                    | Some r => Some (JNull, r)
                    | None =>
                        match parse_number (String c rest) with
                        | Some (text, r) => Some (JNumber text, r)
                        | None => None
                        end
                    end
                end
            end
      end
  end
with parse_elements (fuel : nat) (s : string) {struct fuel}
    : option (list Json * string) :=
  match fuel with
  | O => None
  | S fuel' =>
      match parse_value fuel' s with
      | None => None
      | Some (v, rest) =>
          match skip_ws rest with
          | String c rest' =>
              if Ascii.eqb c "," then
                match parse_elements fuel' rest' with
                | Some (vs, r) => Some (v :: vs, r)
                | None => None
                end
              else if Ascii.eqb c "]" then Some ([v], rest')
              else None
          | EmptyString => None
          end
      end
  end
with parse_members (fuel : nat) (s : string) {struct fuel}
    : option (list (string * Json) * string) :=
  match fuel with
  | O => None
  | S fuel' =>
      match skip_ws s with
      | String q rest =>
          if Ascii.eqb q "034" then
            match parse_chars rest EmptyString with
            | None => None
            | Some (key, rest1) =>
                match skip_ws rest1 with
                | String c rest2 =>
                    if Ascii.eqb c ":" then
                      match parse_value fuel' rest2 with
                      | None => None
                      | Some (v, rest3) =>
                          match skip_ws rest3 with
                          | String d rest4 =>
                              if Ascii.eqb d "," then
                                match parse_members fuel' rest4 with
                                | Some (ms, r) => Some ((key, v) :: ms, r)
                                | None => None
                                end
                              else if Ascii.eqb d "}" then Some ([(key, v)], rest4)
                              else None
                          | EmptyString => None
                          end
                      end
                    else None
                | EmptyString => None
                end
            end
          else None
      | EmptyString => None
      end
  end.

(** A JSON text is one value with nothing but white space around it. *)
Definition json_parse (s : string) : option Json :=
  match parse_value (2 * String.length s + 2) s with
  | Some (v, rest) =>
      match skip_ws rest with
      | EmptyString => Some v
      | String _ _ => None
      end
  | None => None
  end.

Definition json_keys (v : Json) : list string :=
  match v with
  | JObject ms => ms.*1
  | _ => []
  end.

(** ** Shape of a number printed with six decimals *)

Fixpoint all_digits (s : string) : bool :=
  match s with
  | EmptyString => true
  | String c rest => is_digit c && all_digits rest
  end.

(** An optional minus, digits, a point and exactly six digits. *)
Definition six_decimals (s : string) : Prop :=
  ∃ sign int frac,
    s = (sign ++ int ++ "." ++ frac)%string
    ∧ (sign = EmptyString ∨ sign = "-"%string)
    ∧ int ≠ EmptyString ∧ all_digits int = true
    ∧ String.length frac = 6%nat ∧ all_digits frac = true.

(** ** The JSON report, entry by entry *)

Definition json_safe_char (c : ascii) : bool :=
  negb (Ascii.eqb c "034") && negb (Ascii.eqb c "092")
  && negb (nat_of_ascii c <? 32)%nat.

(** No quote, backslash or control character. *)
Fixpoint json_safe_name (s : string) : bool :=
  match s with
  | EmptyString => true
  | String c rest => json_safe_char c && json_safe_name rest
  end.

Definition json_safe (e : ProfileEntry) : Prop :=
  json_safe_name (name e) = true ∧ Double.is_finite (total_seconds e) = true.

(** The object the documentation describes for an entry. *)
Definition json_object (e : ProfileEntry) : Json :=
  JObject
    ([("name"%string, JString (name e));
      ("calls"%string, JNumber (show_u64 (calls e)));
      ("total_seconds"%string, JNumber (show_fixed6 (total_seconds e)))]
     ++ (if 0 <? total_bytes e
         then [("total_bytes"%string, JNumber (show_u64 (total_bytes e)))]
         else [])).

Definition json_entry_text (e : ProfileEntry) : string :=
  ("  {" ++ nl
   ++ "    " ++ dq ++ "name" ++ dq ++ ": " ++ dq ++ name e ++ dq ++ "," ++ nl
   ++ "    " ++ dq ++ "calls" ++ dq ++ ": " ++ show_u64 (calls e) ++ "," ++ nl
   ++ "    " ++ dq ++ "total_seconds" ++ dq ++ ": " ++ show_fixed6 (total_seconds e)
   ++ (if (0 <? total_bytes e)%Z
       then "," ++ nl ++ "    " ++ dq ++ "total_bytes" ++ dq ++ ": "
                ++ show_u64 (total_bytes e)
       else EmptyString)
   ++ nl ++ "  }")%string.

Fixpoint json_rows (es : list ProfileEntry) : string :=
  match es with
  | [] => EmptyString
  | e :: es' =>
      (json_entry_text e ++ (match es' with [] => EmptyString | _ :: _ => "," end)
       ++ nl ++ json_rows es')%string
  end.

(** What may follow a number: not a digit, a point or an exponent mark. *)
Definition ends_number (s : string) : bool :=
  match s with
  | EmptyString => true
  | String c _ =>
      negb (is_digit c) && negb (Ascii.eqb c ".")
      && negb (Ascii.eqb c "e") && negb (Ascii.eqb c "E")
  end.

(** Decimal digits without a leading zero, or the single digit zero. *)
Definition normal_digits (s : string) : Prop :=
  all_digits s = true
  ∧ (s = "0"%string ∨ ∃ c rest, s = String c rest ∧ Ascii.eqb c "0" = false).

(** ** Calls in sequence *)

Definition sum_Z (l : list Z) : Z := foldr Z.add 0 l.

(** [add_bytes] called for the same name with each count of [bs] in turn. *)
Definition add_bytes_all (key : string) (bs : list Z) (p : Profiler) : Profiler :=
  foldl (λ p b, add_bytes key b p) p bs.

(** What every stored entry satisfies: it carries its key, its counters
    are [uint64_t] values and its total is not negative. *)
Definition entry_ok (key : string) (e : ProfileEntry) : Prop :=
  name e = key ∧ is_u64 (calls e) ∧ is_u64 (total_bytes e)
  ∧ Double.nonneg (total_seconds e) = true.

Definition registry_ok (r : Registry) : Prop :=
  ∀ key e, r !! key = Some e → entry_ok key e.

(** ** [ScopedTimer]

    A block that declares a [ScopedTimer] first: the constructor starts the
    timer, the rest of the block runs, and the destructor stops the timer
    when the block is left, by reaching its end or by an exception that
    unwinds through it.  The guard keeps the pointer it was given; the
    name is read through it at both ends and is taken to be the same
    string, as with the string literal of the documented use.  A block
    hands back its outcome and the profiler as it has left it. *)
Definition Block (A : Type) : Type := Profiler → Outcome A * Profiler.

Definition ScopedTimer_ctor (tid : thread_id) (now : time_point) (n : string)
    (p : Profiler) : Profiler :=
  start tid now n p.

Definition ScopedTimer_dtor (tid : thread_id) (now : time_point) (n : string)
    (p : Profiler) : Profiler :=
  stop tid now n p.

Definition with_ScopedTimer {A : Type} (tid : thread_id) (n : string)
    (t_in t_out : time_point) (body : Block A) : Block A :=
  λ p,
    let p := ScopedTimer_ctor tid t_in n p in
    let r := body p in
    (r.1, ScopedTimer_dtor tid t_out n r.2).

(** ** Threads with any calls

    Fresh threads, one per list of calls, before any of them has run. *)
Definition launch (r : Registry) (progs : list (list Op)) : Machine :=
  mkMachine r None ((λ prog, mkThread ∅ Idle prog) <$> progs).

(** The same calls made one after the other by a single thread. *)
Definition run_op (tid : thread_id) (o : Op) (p : Profiler) : Profiler :=
  match o with
  | OpStart now key => start tid now key p
  | OpStop now key => stop tid now key p
  | OpAddBytes key bytes => add_bytes key bytes p
  end.

Definition run_ops (tid : thread_id) (ops : list Op) (p : Profiler) : Profiler :=
  foldl (λ p o, run_op tid o p) p ops.

(** What a thread records when it runs its calls alone, from a profiler
    that has recorded nothing. *)
Definition alone (prog : list Op) : Registry :=
  entries_ (run_ops 0%nat prog Profiler_init).

(** What an update adds to the calls and to the bytes of [key]. *)
Definition update_calls (key : string) (u : Update) : Z :=
  match u with
  | UpdStop k _ => if decide (k = key) then 1 else 0
  | UpdBytes _ _ => 0
  end.

Definition update_bytes (key : string) (u : Update) : Z :=
  match u with
  | UpdStop _ _ => 0
  | UpdBytes k b => if decide (k = key) then b else 0
  end.

(** ** Reading the reports back *)

(** Names made of printable ASCII characters other than the double quote
    and the backslash. *)
Definition plain_char (c : ascii) : bool :=
  (32 <=? nat_of_ascii c)%nat && (nat_of_ascii c <? 127)%nat
  && negb (Ascii.eqb c "034") && negb (Ascii.eqb c "092").

Fixpoint plain_name (s : string) : bool :=
  match s with
  | EmptyString => true
  | String c rest => plain_char c && plain_name rest
  end.

Fixpoint count_char (c : ascii) (s : string) : nat :=
  match s with
  | EmptyString => 0
  | String a rest => ((if Ascii.eqb a c then 1 else 0) + count_char c rest)%nat
  end.

(** The pieces of [s] between the occurrences of [sep]. *)
Fixpoint split_on (sep : ascii) (s : string) : list string :=
  match s with
  | EmptyString => [EmptyString]
  | String c rest =>
      if Ascii.eqb c sep then EmptyString :: split_on sep rest
      else
        match split_on sep rest with
        | field :: fields => String c field :: fields
        | [] => [String c EmptyString]
        end
  end.

(** A reader of comma-separated values without quoting: the lines, each
    ended by a newline, and the fields of each line. *)
Definition csv_read (text : string) : list (list string) :=
  split_on "," <$> removelast (split_on "010" text).

Definition csv_fields (e : ProfileEntry) : list string :=
  [name e; show_u64 (calls e); show_fixed6 (total_seconds e);
   show_fixed6 (avg_seconds e); show_u64 (total_bytes e)].

Definition csv_header_fields : list string :=
  ["name"; "calls"; "total_seconds"; "avg_seconds"; "total_bytes"]%string.

(** A row without the newline that ends it. *)
Definition csv_line (e : ProfileEntry) : string :=
  (name e ++ "," ++ show_u64 (calls e) ++ ","
   ++ show_fixed6 (total_seconds e) ++ "," ++ show_fixed6 (avg_seconds e) ++ ","
   ++ show_u64 (total_bytes e))%string.

Definition is_separator (c : ascii) : bool :=
  Ascii.eqb c "," || Ascii.eqb c "010".

(** ** Counting the calls of a thread *)

Definition is_start_of (key : string) (o : Op) : bool :=
  match o with
  | OpStart _ k => bool_decide (k = key)
  | _ => false
  end.

Definition is_stop_of (key : string) (o : Op) : bool :=
  match o with
  | OpStop _ k => bool_decide (k = key)
  | _ => false
  end.

Definition count_ops (f : Op → bool) (ops : list Op) : nat :=
  length (List.filter f ops).

(** * Properties *)

(** ** Basic facts about the state *)

Lemma timers_of_set_timers tid t p : timers_of tid (set_timers tid t p) = t.
Proof. unfold timers_of, set_timers; simpl. by rewrite lookup_insert_eq. Qed.

Lemma timers_of_set_timers_ne tid tid' t p :
  tid ≠ tid' → timers_of tid' (set_timers tid t p) = timers_of tid' p.
Proof. intros ?. unfold timers_of, set_timers; simpl. by rewrite lookup_insert_ne. Qed.

Lemma timers_of_set_entries tid r p : timers_of tid (set_entries r p) = timers_of tid p.
Proof. reflexivity. Qed.

Lemma timers_of_start tid now key p :
  timers_of tid (start tid now key p) !! key = Some (mkTimerState now true).
Proof. unfold start. rewrite timers_of_set_timers. apply lookup_insert_eq. Qed.

Lemma entries_start tid now key p : entries_ (start tid now key p) = entries_ p.
Proof. reflexivity. Qed.

Lemma stop_commit_lookup key elapsed r :
  stop_commit key elapsed r !! key =
    Some (mkProfileEntry key (u64 (calls (entry_at key r) + 1))
            (Double.add (total_seconds (entry_at key r)) elapsed)
            (total_bytes (entry_at key r))).
Proof. unfold stop_commit. by rewrite lookup_insert_eq. Qed.

Lemma stop_commit_lookup_ne key key' elapsed r :
  key ≠ key' → stop_commit key elapsed r !! key' = r !! key'.
Proof. intros ?. unfold stop_commit. by rewrite lookup_insert_ne. Qed.

Lemma stop_active tid t0 t1 key p :
  timers_of tid p !! key = Some (mkTimerState t0 true) →
  stop tid t1 key p =
    set_entries (stop_commit key (duration_seconds (t1 - t0)) (entries_ p))
      (set_timers tid (<[key := mkTimerState t0 false]> (timers_of tid p)) p).
Proof. intros H. unfold stop, stop_local. by rewrite H. Qed.

Lemma stop_inactive tid now key p :
  timer_active tid key p = false → stop tid now key p = p.
Proof.
  unfold timer_active, stop, stop_local. intros H.
  destruct (timers_of tid p !! key) as [st|]; [|done].
  by rewrite H.
Qed.

Lemma timer_active_stop tid now key p : timer_active tid key (stop tid now key p) = false.
Proof.
  destruct (timer_active tid key p) eqn:Hact.
  - unfold timer_active in Hact.
    destruct (timers_of tid p !! key) as [[t0 a]|] eqn:Hl; [|done].
    simpl in Hact; subst a. rewrite (stop_active _ t0) by done.
    unfold timer_active. rewrite timers_of_set_entries, timers_of_set_timers.
    by rewrite lookup_insert_eq.
  - by rewrite stop_inactive.
Qed.

Lemma entry_at_stop_cycle tid t0 t1 key p :
  entry_at key (entries_ (stop tid t1 key (start tid t0 key p))) =
    mkProfileEntry key (u64 (calls (entry_at key (entries_ p)) + 1))
      (Double.add (total_seconds (entry_at key (entries_ p)))
                  (duration_seconds (t1 - t0)))
      (total_bytes (entry_at key (entries_ p))).
Proof.
  rewrite (stop_active _ t0) by apply timers_of_start.
  unfold entry_at at 1. simpl. by rewrite stop_commit_lookup.
Qed.

Lemma u64_succ_of_nat (n : nat) : u64 (u64 (Z.of_nat n) + 1) = u64 (Z.of_nat (S n)).
Proof.
  unfold u64. rewrite Nat2Z.inj_succ, Z.add_mod_idemp_l by (unfold u64_mod; lia).
  f_equal; lia.
Qed.

Lemma run_cycles_snoc tid key cs c p :
  run_cycles tid key (cs ++ [c]) p =
    stop tid c.2 key (start tid c.1 key (run_cycles tid key cs p)).
Proof. unfold run_cycles. by rewrite foldl_app. Qed.

Lemma run_cycles_calls tid key cs p :
  entries_ p !! key = None →
  calls (entry_at key (entries_ (run_cycles tid key cs p))) = u64 (Z.of_nat (length cs)).
Proof.
  intros Hfresh. induction cs as [|c cs IH] using rev_ind.
  - simpl. unfold entry_at. by rewrite Hfresh.
  - rewrite run_cycles_snoc, entry_at_stop_cycle. simpl.
    rewrite IH, length_app, Nat.add_1_r. apply u64_succ_of_nat.
Qed.

Lemma run_cycles_total_seconds tid key cs p :
  entries_ p !! key = None →
  total_seconds (entry_at key (entries_ (run_cycles tid key cs p))) =
    sum_doubles Double.zero (map (λ c, duration_seconds (c.2 - c.1)) cs).
Proof.
  intros Hfresh. induction cs as [|c cs IH] using rev_ind.
  - simpl. unfold entry_at. by rewrite Hfresh.
  - rewrite run_cycles_snoc, entry_at_stop_cycle. simpl.
    rewrite IH, map_app. unfold sum_doubles. by rewrite foldl_app.
Qed.

Lemma run_cycles_is_Some tid key cs p :
  cs ≠ [] → is_Some (entries_ (run_cycles tid key cs p) !! key).
Proof.
  destruct cs as [|c cs _] using rev_ind; [done|]. intros _.
  rewrite run_cycles_snoc, (stop_active _ c.1) by apply timers_of_start.
  simpl. rewrite stop_commit_lookup. eauto.
Qed.

(** ** Start/stop accounting *)

(** C1. A [stop] that finds the timer started at [t0] still running puts
    into the registry the entry for that name with [calls] one higher and
    [total_seconds] increased by the time from [t0] to the stop in
    seconds, that is, the difference of the two clock readings as a double
    divided by the [1e9] ticks of a second; a [start] leaves exactly such a
    timer behind and the registry alone; and on a registry without the
    name, [N] start/stop cycles in sequence ([N] a [uint64_t]) leave
    [calls = N] and the running sum of these amounts. *)
Theorem start_stop_accounting (tid : thread_id) (key : string) :
  (∀ p t0 t1,
     timers_of tid p !! key = Some (mkTimerState t0 true) →
     entries_ (stop tid t1 key p) !! key =
       Some (mkProfileEntry key
               (u64 (calls (entry_at key (entries_ p)) + 1))
               (Double.add (total_seconds (entry_at key (entries_ p)))
                           (Double.div (Double.of_Z (t1 - t0))
                                       (Double.of_Z 1000000000)))
               (total_bytes (entry_at key (entries_ p))))) ∧
  (∀ p t0,
     timers_of tid (start tid t0 key p) !! key = Some (mkTimerState t0 true)
     ∧ entries_ (start tid t0 key p) = entries_ p) ∧
  (∀ p cs,
     entries_ p !! key = None →
     Z.of_nat (length cs) < u64_mod →
     let e := entry_at key (entries_ (run_cycles tid key cs p)) in
     calls e = Z.of_nat (length cs)
     ∧ total_seconds e =
         sum_doubles Double.zero
           (map (λ c, Double.div (Double.of_Z (c.2 - c.1)) (Double.of_Z 1000000000))
                cs)
     ∧ (cs ≠ [] → entries_ (run_cycles tid key cs p) !! key = Some e)).
Proof.
  split; [|split].
  - intros p t0 t1 H. rewrite (stop_active _ t0) by done.
    simpl. apply stop_commit_lookup.
  - intros p t0. split; [apply timers_of_start | reflexivity].
  - intros p cs Hfresh Hlen e. subst e. split; [|split].
    + rewrite run_cycles_calls by done. unfold u64. apply Z.mod_small. lia.
    + by apply run_cycles_total_seconds.
    + intros Hne. destruct (run_cycles_is_Some tid key cs p Hne) as [e He].
      unfold entry_at. by rewrite He.
Qed.

(** Three cycles of one, two and three seconds leave three calls and six
    seconds; a single region of a second and a half leaves one call and
    [1.5]. *)
Lemma start_stop_accounting_witness :
  let cs := [(10, 1000000010); (2000000000, 4000000000); (5000000000, 8000000000)] in
  let p := run_cycles 0%nat "matvec" cs Profiler_init in
  timers_of 0%nat (start 0%nat 7 "matvec" Profiler_init) !! "matvec"
    = Some (mkTimerState 7 true)
  ∧ entries_ Profiler_init !! "matvec" = None
  ∧ calls (entry_at "matvec" (entries_ p)) = 3
  ∧ total_seconds (entry_at "matvec" (entries_ p))
    = S754_finite false 6755399441055744 (-50)
  ∧ entries_ p !! "matvec"
    = Some (mkProfileEntry "matvec" 3 (S754_finite false 6755399441055744 (-50)) 0)
  ∧ entries_ (stop 0%nat 1500000007 "matvec" (start 0%nat 7 "matvec" Profiler_init))
      !! "matvec"
    = Some (mkProfileEntry "matvec" 1 (S754_finite false 6755399441055744 (-52)) 0).
Proof.
  intros cs p.
  pose proof (start_stop_accounting 0%nat "matvec") as (Hstop & Hstart & Hcycles).
  assert (Hlen : Z.of_nat (length cs) < u64_mod) by (vm_compute; reflexivity).
  destruct (Hcycles Profiler_init cs eq_refl Hlen) as (Hcalls & Hsecs & Hentry).
  fold p in Hcalls, Hsecs, Hentry.
  assert (Hsix : total_seconds (entry_at "matvec" (entries_ p))
                 = S754_finite false 6755399441055744 (-50)).
  { rewrite Hsecs. vm_compute. reflexivity. }
  split; [apply (Hstart Profiler_init 7)|].
  split; [reflexivity|].
  split; [exact Hcalls|].
  split; [exact Hsix|].
  split.
  - rewrite Hentry by discriminate. vm_compute. reflexivity.
  - rewrite (Hstop (start 0%nat 7 "matvec" Profiler_init) 7 1500000007
               (proj1 (Hstart Profiler_init 7))).
    vm_compute. reflexivity.
Defined.

(** ** Unpaired stop *)

(** C3. A [stop] for a name that has no running timer on the calling thread
    (never started there, or stopped since) returns the profiler state it
    was given: the registry and every thread's timers are unchanged. *)
Theorem stop_without_active_timer_is_noop
    (tid : thread_id) (now : time_point) (key : string) (p : Profiler) :
  timer_active tid key p = false →
  stop tid now key p = p.
Proof. apply stop_inactive. Qed.

Lemma stop_without_active_timer_is_noop_witness :
  timer_active 0%nat "x" Profiler_init = false
  ∧ stop 0%nat 5 "x" Profiler_init = Profiler_init.
Proof.
  split; [reflexivity|].
  apply (stop_without_active_timer_is_noop 0%nat 5 "x" Profiler_init).
  reflexivity.
Defined.

(** A second [stop] after a [stop] finds the timer stopped. *)
Lemma double_stop_is_noop tid t1 t2 key p :
  stop tid t2 key (stop tid t1 key p) = stop tid t1 key p.
Proof. apply stop_inactive, timer_active_stop. Qed.

(** A thread that never called [start] has no running timer. *)
Lemma timer_active_init tid key : timer_active tid key Profiler_init = false.
Proof. reflexivity. Qed.

(** ** Byte accounting *)

Lemma add_bytes_commit_lookup key bytes r :
  add_bytes_commit key bytes r !! key =
    Some (mkProfileEntry key (calls (entry_at key r))
            (total_seconds (entry_at key r))
            (u64 (total_bytes (entry_at key r) + bytes))).
Proof. unfold add_bytes_commit. by rewrite lookup_insert_eq. Qed.

(** C5. [add_bytes] stores under the name the entry it found there (a
    default one if there was none) with [total_bytes] advanced by the byte
    count, in [uint64_t] arithmetic, and [calls] and [total_seconds] as they
    were; no other entry and no timer changes.  On a name that is not in
    the registry the result has [calls = 0] and [total_bytes] equal to the
    byte count. *)
Theorem add_bytes_accounting (key : string) (bytes : Z) (p : Profiler) :
  let e := entry_at key (entries_ p) in
  entries_ (add_bytes key bytes p) !! key =
    Some (mkProfileEntry key (calls e) (total_seconds e)
            (u64 (total_bytes e + bytes)))
  ∧ (∀ key', key ≠ key' → entries_ (add_bytes key bytes p) !! key' = entries_ p !! key')
  ∧ thread_timers_ (add_bytes key bytes p) = thread_timers_ p
  ∧ (total_bytes e + bytes < u64_mod → 0 ≤ total_bytes e → 0 ≤ bytes →
     u64 (total_bytes e + bytes) = total_bytes e + bytes)
  ∧ (entries_ p !! key = None → is_u64 bytes →
     entries_ (add_bytes key bytes p) !! key =
       Some (mkProfileEntry key 0 Double.zero bytes)).
Proof.
  intros e. subst e. split; [|split; [|split; [|split]]].
  - apply add_bytes_commit_lookup.
  - intros key' Hne. unfold add_bytes, add_bytes_commit. simpl.
    by rewrite lookup_insert_ne.
  - reflexivity.
  - intros. unfold u64. apply Z.mod_small. lia.
  - intros Hfresh [Hlo Hhi]. simpl. rewrite add_bytes_commit_lookup.
    unfold entry_at. rewrite Hfresh. simpl. do 2 f_equal.
    unfold u64. apply Z.mod_small. lia.
Qed.

Lemma add_bytes_accounting_witness :
  entries_ Profiler_init !! "io_read" = None
  ∧ is_u64 4096
  ∧ entries_ (add_bytes "io_read" 4096 Profiler_init) !! "io_read"
    = Some (mkProfileEntry "io_read" 0 Double.zero 4096).
Proof.
  split; [reflexivity|]. split; [unfold is_u64, u64_mod; lia|].
  apply (add_bytes_accounting "io_read" 4096 Profiler_init);
    [reflexivity | unfold is_u64, u64_mod; lia].
Defined.

(** ** Ordering of doubles *)

Lemma SFcompare_rank x y :
  Double.is_nan x = false → Double.is_nan y = false →
  match SFcompare x y with
  | Some Lt => lex_lt (rank x) (rank y)
  | Some Eq => rank x = rank y
  | Some Gt => lex_lt (rank y) (rank x)
  | None => False
  end.
Proof.
  intros Hx Hy. unfold lex_lt.
  destruct x as [sx|sx| |sx mx ex], y as [sy|sy| |sy my ey]; try discriminate;
    simpl; try (destruct sx); try (destruct sy); simpl; try lia; try reflexivity.
  - destruct (Z.compare_spec ex ey); simpl; try lia.
    change (Pos.compare_cont Eq mx my) with (mx ?= my)%positive.
    destruct (Pos.compare_spec mx my); simpl; subst; try lia; reflexivity.
  - destruct (Z.compare_spec ex ey); simpl; try lia.
    change (Pos.compare_cont Eq mx my) with (mx ?= my)%positive.
    destruct (Pos.compare_spec mx my); simpl; subst; try lia; reflexivity.
Qed.

Ltac rank_cases x y Hx Hy :=
  let H := fresh "Hc" in
  pose proof (SFcompare_rank x y Hx Hy) as H;
  destruct (SFcompare x y) as [[| |]|]; try done.

Ltac rank_lia :=
  repeat match goal with
  | H : rank _ = rank _ |- _ => revert H
  | H : lex_lt _ _ |- _ => revert H
  end;
  unfold lex_lt;
  repeat match goal with
  | |- context [rank ?x] =>
      let a := fresh "a" in let b := fresh "b" in let c := fresh "c" in
      destruct (rank x) as [[a b] c]
  end;
  simpl; intros; simplify_eq; try lia.

Lemma ge_iff_rank x y :
  Double.is_nan x = false → Double.is_nan y = false →
  Double.ge x y = true ↔ ¬ lex_lt (rank x) (rank y).
Proof.
  intros Hx Hy. unfold Double.ge, SFleb.
  rank_cases y x Hy Hx; split; intros; try done; try rank_lia.
Qed.

Lemma gt_iff_rank x y :
  Double.is_nan x = false → Double.is_nan y = false →
  Double.gt x y = true ↔ lex_lt (rank y) (rank x).
Proof.
  intros Hx Hy. unfold Double.gt, SFltb.
  rank_cases y x Hy Hx; split; intros; try done; try rank_lia.
Qed.

Lemma gt_asym x y : Double.gt x y = true → Double.gt y x = false.
Proof.
  intros H. destruct (Double.is_nan x) eqn:Hx; [by destruct x, y|].
  destruct (Double.is_nan y) eqn:Hy; [by destruct x, y|].
  apply gt_iff_rank in H; [|done..].
  apply not_true_is_false. rewrite gt_iff_rank by done. rank_lia.
Qed.

#[global] Instance may_precede_by_total_desc_total : Total (may_precede by_total_desc).
Proof.
  intros a b. unfold may_precede, by_total_desc.
  destruct (Double.gt (total_seconds b) (total_seconds a)) eqn:H; [|by left].
  right. by apply gt_asym.
Qed.

Lemma may_precede_total_ge a b :
  Double.is_nan (total_seconds a) = false →
  Double.is_nan (total_seconds b) = false →
  may_precede by_total_desc a b → total_ge a b.
Proof.
  unfold may_precede, by_total_desc, total_ge. intros Ha Hb H.
  apply ge_iff_rank; [done..|]. intros Hlt.
  apply (gt_iff_rank _ _ Hb Ha) in Hlt. congruence.
Qed.

Lemma total_ge_trans a b c :
  Double.is_nan (total_seconds a) = false →
  Double.is_nan (total_seconds b) = false →
  Double.is_nan (total_seconds c) = false →
  total_ge a b → total_ge b c → total_ge a c.
Proof.
  unfold total_ge. intros Ha Hb Hc.
  rewrite !ge_iff_rank by done. rank_lia.
Qed.

Lemma Sorted_StronglySorted_on {A : Type} (P : A → Prop) (R R' : relation A) :
  (∀ x y, P x → P y → R x y → R' x y) →
  (∀ x y z, P x → P y → P z → R' x y → R' y z → R' x z) →
  ∀ l, Forall P l → Sorted R l → StronglySorted R' l.
Proof.
  intros Hweak Htrans l HP Hs. induction Hs as [|x l Hs IH Hhd]; [constructor|].
  apply Forall_cons in HP as [Hx HP]. specialize (IH HP).
  constructor; [done|].
  destruct Hhd as [|y l Hxy]; [constructor|].
  apply Forall_cons in HP as [Hy HP].
  apply StronglySorted_inv in IH as [_ Hall].
  constructor; [by apply Hweak|].
  rewrite Forall_forall in *. intros z Hz.
  apply (Htrans x y z); auto.
Qed.

Lemma collect_entries_values (r : Registry) : collect_entries r = (map_to_list r).*2.
Proof.
  unfold collect_entries.
  enough (∀ l (acc : list ProfileEntry),
            foldl (λ result pair, result ++ [pair.2]) acc l = acc ++ l.*2) as H
    by apply (H _ []).
  induction l as [|x l IH]; intros acc; simpl; [by rewrite app_nil_r|].
  by rewrite IH, <- app_assoc.
Qed.

(** ** Sign of the accumulated seconds *)

Section Rounding.

Variables prec emax : Z.

Lemma shr_1_nonneg mrs : 0 ≤ shr_m mrs → 0 ≤ shr_m (shr_1 mrs).
Proof. destruct mrs as [[|[p|p|]|p] r s]; simpl; lia. Qed.

Lemma iter_pos_invariant {A : Type} (f : A → A) (P : A → Prop) :
  (∀ x, P x → P (f x)) → ∀ p x, P x → P (SpecFloat.iter_pos f p x).
Proof.
  intros Hf. induction p as [p IH|p IH|]; intros x Hx; simpl; auto.
Qed.

Lemma shr_nonneg mrs e n : 0 ≤ shr_m mrs → 0 ≤ shr_m (shr mrs e n).1.
Proof.
  intros H. destruct n as [|p|p]; simpl; try done.
  by apply (iter_pos_invariant shr_1 (λ mrs, 0 ≤ shr_m mrs) shr_1_nonneg).
Qed.

Lemma shr_fexp_nonneg m e l : 0 ≤ m → 0 ≤ shr_m (shr_fexp prec emax m e l).1.
Proof.
  intros H. unfold shr_fexp. apply shr_nonneg. by destruct l as [|[| |]].
Qed.

Lemma round_nearest_even_nonneg m l : 0 ≤ m → 0 ≤ round_nearest_even m l.
Proof.
  intros H. destruct l as [|[| |]]; simpl; try lia. destruct (Z.even m); lia.
Qed.

Lemma binary_round_aux_nonneg mx ex lx :
  0 ≤ mx → Double.nonneg (binary_round_aux prec emax false mx ex lx) = true.
Proof.
  intros H. unfold binary_round_aux.
  pose proof (shr_fexp_nonneg mx ex lx H) as H1.
  destruct (shr_fexp prec emax mx ex lx) as [mrs' e']. simpl in H1.
  pose proof (shr_fexp_nonneg _ e' loc_Exact
                (round_nearest_even_nonneg _ (loc_of_shr_record mrs') H1)) as H2.
  destruct (shr_fexp prec emax _ e' loc_Exact) as [mrs'' e'']. simpl in H2.
  destruct (shr_m mrs'') as [|m|m]; [done| |lia].
  by destruct (e'' <=? emax - prec).
Qed.

Lemma binary_round_nonneg m e :
  Double.nonneg (binary_round prec emax false m e) = true.
Proof.
  unfold binary_round. destruct (shl_align _ _ _) as [mz ez].
  by apply binary_round_aux_nonneg.
Qed.

Lemma binary_normalize_nonneg m e :
  0 ≤ m → Double.nonneg (binary_normalize prec emax m e false) = true.
Proof.
  intros H. destruct m as [|m|m]; simpl; [done| |lia]. apply binary_round_nonneg.
Qed.

Lemma SFadd_nonneg x y :
  Double.nonneg x = true → Double.nonneg y = true →
  Double.nonneg (SFadd prec emax x y) = true.
Proof.
  destruct x as [[|]|[|]| |[|] mx ex], y as [[|]|[|]| |[|] my ey]; try done.
  intros _ _. simpl. apply binary_round_nonneg.
Qed.

Lemma SFdiv_nonneg x my ey :
  Double.nonneg x = true →
  Double.nonneg (SFdiv prec emax x (S754_finite false my ey)) = true.
Proof.
  destruct x as [[|]|[|]| |[|] mx ex]; try done. intros _. simpl.
  unfold SFdiv_core_binary.
  set (m' := match _ with Z0 => _ | Zpos _ => _ | Zneg _ => _ end).
  assert (0 ≤ m') as Hm'.
  { subst m'. destruct (_ - _ - _) as [|p|p]; try lia. apply Z.shiftl_nonneg. lia. }
  pose proof (Z_div_mod m' (Zpos my) ltac:(lia)) as Hdiv.
  destruct (Z.div_eucl m' (Zpos my)) as [q r].
  apply binary_round_aux_nonneg. nia.
Qed.

End Rounding.

Lemma nonneg_not_nan x : Double.nonneg x = true → Double.is_nan x = false.
Proof. by destruct x as [[|]|[|]| |[|] m e]. Qed.

Lemma duration_seconds_nonneg d : 0 ≤ d → Double.nonneg (duration_seconds d) = true.
Proof.
  intros H. unfold duration_seconds, Double.div.
  change (Double.of_Z 1000000000)
    with (S754_finite false 8388608000000000 (-23)).
  apply SFdiv_nonneg. by apply binary_normalize_nonneg.
Qed.

Lemma registry_nonneg_entry_at key (r : Registry) :
  registry_nonneg r → Double.nonneg (total_seconds (entry_at key r)) = true.
Proof.
  intros H. unfold entry_at. destruct (r !! key) as [e|] eqn:He; [by eapply H|done].
Qed.

Lemma reachable_nonneg p : reachable p → registry_nonneg (entries_ p).
Proof.
  induction 1 as [|tid now key p _ IH|tid now key p _ IH Hclock|key bytes p _ IH|p _ IH].
  - intros key e H. simpl in H. by rewrite lookup_empty in H.
  - done.
  - unfold stop, stop_local.
    destruct (timers_of tid p !! key) as [st|] eqn:Hst; [|done].
    destruct (active st); [|done]. simpl.
    intros key' e He. destruct (decide (key = key')) as [<-|Hne].
    + rewrite stop_commit_lookup in He. injection He as <-. simpl.
      apply SFadd_nonneg; [by apply registry_nonneg_entry_at|].
      apply duration_seconds_nonneg. specialize (Hclock st eq_refl). lia.
    + rewrite stop_commit_lookup_ne in He by done. by eapply IH.
  - simpl. intros key' e He. destruct (decide (key = key')) as [<-|Hne].
    + rewrite add_bytes_commit_lookup in He. injection He as <-. simpl.
      by apply registry_nonneg_entry_at.
    + unfold add_bytes_commit in He. rewrite lookup_insert_ne in He by done.
      by eapply IH.
  - intros key e H. simpl in H. by rewrite lookup_empty in H.
Qed.

Lemma registry_nonneg_no_nan (r : Registry) :
  registry_nonneg r → no_nan (collect_entries r).
Proof.
  intros H. unfold no_nan. rewrite collect_entries_values, Forall_forall.
  intros e He. apply list_elem_of_fmap in He as [[k e'] [-> Hin]].
  apply elem_of_map_to_list in Hin. simpl. by apply nonneg_not_nan, (H k).
Qed.

(** ** Snapshot *)

(** C4. [entries] returns the stored entries, each as often as the registry
    holds it, and hands the profiler back as it was.  When no stored
    [total_seconds] is a NaN every returned entry has a [total_seconds]
    greater than or equal to that of every entry after it; and no registry
    that [start], [stop], [add_bytes] and [clear] produce under a monotonic
    clock holds a NaN. *)
Theorem entries_sorted_snapshot (p : Profiler) :
  (entries p).1 ≡ₚ (map_to_list (entries_ p)).*2
  ∧ (∀ e, e ∈ (entries p).1 ↔ ∃ key, entries_ p !! key = Some e)
  ∧ (entries p).2 = p
  ∧ (no_nan (collect_entries (entries_ p)) → StronglySorted total_ge (entries p).1)
  ∧ (reachable p → no_nan (collect_entries (entries_ p))).
Proof.
  assert ((entries p).1 ≡ₚ (map_to_list (entries_ p)).*2) as Hperm.
  { simpl. unfold std_sort. rewrite merge_sort_Permutation.
    by rewrite collect_entries_values. }
  split; [done|]. split; [|split; [done|split]].
  - intros e. rewrite Hperm, list_elem_of_fmap. split.
    + intros [[k e'] [-> Hin]]. exists k. by apply elem_of_map_to_list in Hin.
    + intros [k Hk]. exists (k, e). split; [done|]. by apply elem_of_map_to_list.
  - intros Hnn. simpl. unfold std_sort.
    apply (Sorted_StronglySorted_on
             (λ e, Double.is_nan (total_seconds e) = false)
             (may_precede by_total_desc)).
    + apply may_precede_total_ge.
    + apply total_ge_trans.
    + unfold no_nan in Hnn. by rewrite merge_sort_Permutation.
    + apply Sorted_merge_sort, _.
  - intros Hreach. by apply registry_nonneg_no_nan, reachable_nonneg.
Qed.

Lemma entries_sorted_snapshot_witness :
  let p := stop 0%nat 1000000400 "c"
             (stop 0%nat 3000000200 "b"
                (stop 0%nat 5000000100 "a"
                   (start 0%nat 400 "c"
                      (start 0%nat 200 "b" (start 0%nat 100 "a" Profiler_init))))) in
  no_nan (collect_entries (entries_ p))
  ∧ StronglySorted total_ge (entries p).1
  ∧ map total_seconds (collect_entries (entries_ p))
    = [Double.of_Z 1; Double.of_Z 5; Double.of_Z 3]
  ∧ map total_seconds (entries p).1 = [Double.of_Z 5; Double.of_Z 3; Double.of_Z 1]
  ∧ map name (entries p).1 = ["a"; "b"; "c"].
Proof.
  intros p.
  assert (no_nan (collect_entries (entries_ p))) as Hnn
    by (vm_compute; repeat constructor).
  split; [exact Hnn|].
  split; [apply (entries_sorted_snapshot p); exact Hnn|].
  repeat split; vm_compute; reflexivity.
Defined.

(** ** Suffix test *)

Lemma string_app_cons (c : ascii) (a b : string) :
  (String c a ++ b)%string = String c (a ++ b).
Proof. reflexivity. Qed.

Lemma string_app_nil_l (b : string) : (EmptyString ++ b)%string = b.
Proof. reflexivity. Qed.

Lemma substring_all (s : string) : String.substring 0 (String.length s) s = s.
Proof. induction s as [|c s IH]; simpl; [done|]. by rewrite IH. Qed.

Lemma substring_skip_prefix (stem s : string) (n : nat) :
  String.substring (String.length stem) n (stem ++ s) = String.substring 0 n s.
Proof.
  induction stem as [|c stem IH]; [done|].
  rewrite string_app_cons. simpl. apply IH.
Qed.

Lemma substring_split (s : string) (k : nat) :
  (k ≤ String.length s)%nat →
  s = (String.substring 0 k s ++ String.substring k (String.length s - k) s)%string.
Proof.
  revert k. induction s as [|c s IH]; intros k Hk; simpl in *.
  - by destruct k.
  - destruct k as [|k]; simpl.
    + by rewrite substring_all.
    + rewrite string_app_cons. f_equal. apply IH. lia.
Qed.

Lemma string_length_app (a b : string) :
  String.length (a ++ b) = (String.length a + String.length b)%nat.
Proof.
  induction a as [|c a IH]; [done|].
  rewrite string_app_cons. simpl. by rewrite IH.
Qed.

(** The size test in front of [substr] is what keeps it from throwing. *)
Example substr_beyond_end :
  substr "a.js" (size_sub 4 5) = Thrown "std::out_of_range"
  ∧ ends_with ".json" "a.js" = Returned false.
Proof. split; reflexivity. Qed.

Lemma ends_with_returns (suffix filename : string) :
  ends_with suffix filename =
    Returned ((String.length suffix <=? String.length filename)%nat
              && bool_decide
                   (String.substring (String.length filename - String.length suffix)
                      (String.length suffix) filename = suffix)).
Proof.
  unfold ends_with, size_sub, substr.
  destruct (Nat.leb_spec (String.length suffix) (String.length filename)) as [Hle|Hlt].
  - rewrite (proj2 (Z.leb_le _ _)) by lia. simpl.
    rewrite (proj2 (Z.leb_le _ _)) by lia. simpl.
    replace (Z.to_nat (Z.of_nat (String.length filename)
                       - Z.of_nat (String.length suffix)))
      with (String.length filename - String.length suffix)%nat by lia.
    replace (String.length filename
             - (String.length filename - String.length suffix))%nat
      with (String.length suffix) by lia.
    reflexivity.
  - by rewrite (proj2 (Z.leb_gt _ _)) by lia.
Qed.

Lemma ends_with_spec (suffix filename : string) :
  ends_with suffix filename = Returned true
  ↔ ∃ stem, filename = (stem ++ suffix)%string.
Proof.
  rewrite ends_with_returns.
  assert (∀ b : bool, Returned b = Returned true ↔ b = true) as ->
    by (intros b; split; congruence).
  rewrite andb_true_iff, Nat.leb_le, bool_decide_eq_true. split.
  - intros [Hlen Hsub].
    exists (String.substring 0 (String.length filename - String.length suffix) filename).
    pose proof (substring_split filename
                  (String.length filename - String.length suffix)) as Hs.
    replace (String.length filename - (String.length filename - String.length suffix))%nat
      with (String.length suffix) in Hs by lia.
    rewrite Hsub in Hs. apply Hs. lia.
  - intros [stem ->]. rewrite string_length_app. split; [lia|].
    replace (String.length stem + String.length suffix - String.length suffix)%nat
      with (String.length stem) by lia.
    rewrite substring_skip_prefix. apply substring_all.
Qed.

Lemma ends_with_cases (suffix filename : string) :
  ends_with suffix filename = Returned true
  ∨ ends_with suffix filename = Returned false.
Proof. rewrite ends_with_returns. destruct (_ && _); auto. Qed.

(** ** CSV output *)

Lemma string_app_assoc (a b c : string) : ((a ++ b) ++ c = a ++ (b ++ c))%string.
Proof.
  induction a as [|x a IH]; [done|].
  rewrite !string_app_cons. by rewrite IH.
Qed.

Lemma string_app_nil_r (a : string) : (a ++ EmptyString)%string = a.
Proof.
  induction a as [|x a IH]; [done|].
  rewrite string_app_cons. by rewrite IH.
Qed.

Lemma write_csv_entry_row e out : write_csv_entry e out = (out ++ csv_row e)%string.
Proof. reflexivity. Qed.

Lemma write_csv_rows es out :
  foldl (λ out entry, write_csv_entry entry out) out es
  = (out ++ concat_strings (map csv_row es))%string.
Proof.
  revert out. induction es as [|e es IH]; intros out; simpl.
  - by rewrite string_app_nil_r.
  - by rewrite IH, write_csv_entry_row, string_app_assoc.
Qed.

Lemma write_csv_text es :
  write_csv es EmptyString = (csv_header ++ concat_strings (map csv_row es))%string.
Proof. unfold write_csv. by rewrite write_csv_rows. Qed.

(** ** Digits *)

Lemma all_digits_app a b :
  all_digits (a ++ b) = all_digits a && all_digits b.
Proof.
  induction a as [|c a IH]; [done|].
  rewrite string_app_cons. simpl. by rewrite IH, andb_assoc.
Qed.

Lemma digit_char_is_digit d : 0 ≤ d < 10 → is_digit (digit_char d) = true.
Proof.
  intros H.
  assert (d = 0 ∨ d = 1 ∨ d = 2 ∨ d = 3 ∨ d = 4 ∨ d = 5 ∨ d = 6 ∨ d = 7
          ∨ d = 8 ∨ d = 9) as Hd by lia.
  repeat (destruct Hd as [->|Hd]; [reflexivity|]). by subst.
Qed.

Lemma show_padded_S k n :
  show_padded (S k) n
  = (show_padded k (n / 10) ++ String (digit_char (n mod 10)) EmptyString)%string.
Proof. reflexivity. Qed.

Lemma show_padded_length k n : String.length (show_padded k n) = k.
Proof.
  revert n. induction k as [|k IH]; intros n; [done|].
  rewrite show_padded_S, string_length_app, IH.
  change (String.length (String (digit_char (n mod 10)) EmptyString)) with 1%nat.
  lia.
Qed.

Lemma show_padded_digits k n : all_digits (show_padded k n) = true.
Proof.
  revert n. induction k as [|k IH]; intros n; [done|].
  rewrite show_padded_S, all_digits_app, IH.
  change (all_digits (String (digit_char (n mod 10)) EmptyString))
    with (is_digit (digit_char (n mod 10)) && true).
  rewrite digit_char_is_digit; [done|]. apply Z.mod_pos_bound. lia.
Qed.

Lemma string_of_uint_digits d : all_digits (NilEmpty.string_of_uint d) = true.
Proof. induction d; simpl; try done. Qed.

Lemma show_u64_digits n : all_digits (show_u64 n) = true ∧ show_u64 n ≠ EmptyString.
Proof.
  unfold show_u64, NilZero.string_of_uint.
  generalize (N.to_uint (Z.to_N n)). intros d.
  destruct d; split; try (apply string_of_uint_digits); done.
Qed.

Lemma show_micro_shape sign q :
  sign = EmptyString ∨ sign = "-"%string →
  six_decimals (sign ++ show_micro q).
Proof.
  intros Hsign. exists sign, (show_u64 (q / 1000000)), (show_padded 6 (q mod 1000000)).
  destruct (show_u64_digits (q / 1000000)) as [Hd Hne].
  split; [done|]. split; [done|]. split; [done|]. split; [done|].
  split; [apply show_padded_length | apply show_padded_digits].
Qed.

Lemma show_fixed6_shape x :
  Double.is_finite x = true → six_decimals (show_fixed6 x).
Proof.
  destruct x as [s|s| |s m e]; try done; intros _; simpl;
    apply show_micro_shape; destruct s; auto.
Qed.

(** ** Format dispatch *)

Lemma dump_profile_writes (es : list ProfileEntry) (filename : string) (env : Env) :
  es ≠ [] →
  can_open env filename = true →
  ∃ env', dump_profile es filename env = Returned env'
    ∧ ((∃ stem, filename = (stem ++ ".json")%string) →
         files env' = <[filename := write_json es EmptyString]> (files env))
    ∧ ((¬ ∃ stem, filename = (stem ++ ".json")%string) →
         files env' =
           <[filename := (csv_header ++ concat_strings (map csv_row es))%string]>
             (files env)).
Proof.
  intros Hne Hopen. unfold dump_profile, ofstream_open.
  destruct es as [|e es]; [done|]. rewrite Hopen.
  destruct (ends_with_cases ".csv" filename) as [Hcsv|Hcsv];
    destruct (ends_with_cases ".json" filename) as [Hjson|Hjson];
    rewrite Hjson, Hcsv; simpl; eexists; (split; [reflexivity|]); simpl;
    (split; intros Hsuffix);
    try (by rewrite insert_insert_eq);
    try (by rewrite write_csv_text, insert_insert_eq).
  all: first [ apply ends_with_spec in Hsuffix; congruence
             | apply ends_with_spec in Hjson; contradiction ].
Qed.

(** C7. For a non-empty vector and a path that can be opened,
    [dump_profile] replaces the file's content, and what it writes depends
    on the path only through whether it ends in [.json]: if it does, the
    JSON text; in every other case (a [.csv] ending included) the header
    line followed by one row per entry in the order given, each row being
    name, calls, total seconds, average seconds and total bytes, where the
    average is the total divided by the calls when there are calls and zero
    otherwise, and both seconds fields are printed in fixed notation with
    precision six, which for every finite number is digits, a point and
    six digits. *)
Theorem dump_profile_format_dispatch
    (es : list ProfileEntry) (filename : string) (env : Env) :
  es ≠ [] →
  can_open env filename = true →
  (∃ env', dump_profile es filename env = Returned env'
     ∧ ((∃ stem, filename = (stem ++ ".json")%string) →
          files env' = <[filename := write_json es EmptyString]> (files env))
     ∧ ((¬ ∃ stem, filename = (stem ++ ".json")%string) →
          files env' =
            <[filename := (csv_header ++ concat_strings (map csv_row es))%string]>
              (files env)))
  ∧ (∀ x, Double.is_finite x = true → six_decimals (show_fixed6 x)).
Proof.
  intros Hne Hopen. split; [by apply dump_profile_writes | apply show_fixed6_shape].
Qed.

Lemma dump_profile_format_dispatch_witness :
  let es := [mkProfileEntry "solve" 4 (Double.of_Z 2) 0;
             mkProfileEntry "io_read" 0 Double.zero 512] in
  let env := mkEnv ∅ (λ _, true) EmptyString EmptyString in
  let csv := ("name,calls,total_seconds,avg_seconds,total_bytes" ++ nl
              ++ "solve,4,2.000000,0.500000,0" ++ nl
              ++ "io_read,0,0.000000,0.000000,512" ++ nl)%string in
  es ≠ []
  ∧ can_open env "out.dat" = true
  ∧ (∃ env', dump_profile es "out.dat" env = Returned env'
             ∧ files env' = {[ "out.dat" := csv ]})
  ∧ (∃ env', dump_profile es "out.csv" env = Returned env'
             ∧ files env' = {[ "out.csv" := csv ]})
  ∧ (∃ env', dump_profile es "out.json" env = Returned env'
             ∧ files env' = {[ "out.json" := write_json es EmptyString ]}).
Proof.
  intros es env csv.
  split; [done|]. split; [reflexivity|].
  split; [|split].
  - destruct (dump_profile_format_dispatch es "out.dat" env) as [(env' & Hret & _ & H) _];
      [done | reflexivity |].
    exists env'. split; [exact Hret|]. rewrite H; [reflexivity|].
    intros Hs. apply ends_with_spec in Hs. vm_compute in Hs. discriminate.
  - destruct (dump_profile_format_dispatch es "out.csv" env) as [(env' & Hret & _ & H) _];
      [done | reflexivity |].
    exists env'. split; [exact Hret|]. rewrite H; [reflexivity|].
    intros Hs. apply ends_with_spec in Hs. vm_compute in Hs. discriminate.
  - destruct (dump_profile_format_dispatch es "out.json" env) as [(env' & Hret & H & _) _];
      [done | reflexivity |].
    exists env'. split; [exact Hret|]. rewrite H; [reflexivity|]. by exists "out".
Defined.

(** ** Failures of the reporter *)

Lemma dump_profile_returns es filename env :
  ∃ env', dump_profile es filename env = Returned env'.
Proof.
  unfold dump_profile. destruct es as [|e es]; [by eexists|].
  destruct (ofstream_open filename env) as [env1|]; [|by eexists].
  rewrite !ends_with_returns. simpl. by eexists.
Qed.

(** C9. [dump_profile] returns to its caller whatever it is given: the one
    call in it that can throw, [substr], is never reached with a position
    beyond the end.  Given an empty vector it changes no file and writes
    the warning to [std::cerr]; given a path that cannot be opened it
    changes no file and writes the error, naming the path, to [std::cerr];
    in both cases nothing goes to [std::cout]. *)
Theorem dump_profile_failures_are_diagnosed (filename : string) (env : Env) :
  (∀ es, ∃ env', dump_profile es filename env = Returned env')
  ∧ (∃ env', dump_profile [] filename env = Returned env'
       ∧ files env' = files env
       ∧ cout env' = cout env
       ∧ cerr env' = (cerr env ++ "Warning: No profiling data collected" ++ nl)%string)
  ∧ (∀ es, es ≠ [] → can_open env filename = false →
     ∃ env', dump_profile es filename env = Returned env'
       ∧ files env' = files env
       ∧ cout env' = cout env
       ∧ cerr env' = (cerr env ++ "Error: Could not open profile output file: "
                               ++ filename ++ nl)%string).
Proof.
  split; [intros es; apply dump_profile_returns|].
  split; [by eexists|].
  intros es Hne Hopen. unfold dump_profile, ofstream_open.
  destruct es as [|e es]; [done|]. rewrite Hopen. by eexists.
Qed.

Lemma dump_profile_failures_are_diagnosed_witness :
  let env := mkEnv {[ "old.csv" := "kept" ]} (λ _, false) EmptyString EmptyString in
  let es := [mkProfileEntry "solve" 1 Double.zero 0] in
  es ≠ []
  ∧ can_open env "/nowhere/out.csv" = false
  ∧ ∃ env', dump_profile es "/nowhere/out.csv" env = Returned env'
      ∧ files env' = {[ "old.csv" := "kept" ]}
      ∧ cerr env'
        = ("Error: Could not open profile output file: /nowhere/out.csv" ++ nl)%string.
Proof.
  intros env es. split; [done|]. split; [reflexivity|].
  destruct (dump_profile_failures_are_diagnosed "/nowhere/out.csv" env) as (_ & _ & H).
  destruct (H es) as (env' & Hret & Hfiles & _ & Hcerr); [done | reflexivity |].
  exists env'. split; [exact Hret|]. split; [exact Hfiles | exact Hcerr].
Defined.

(** ** Clear *)

Lemma entries_empty_registry p : entries_ p = ∅ → (entries p).1 = [].
Proof.
  intros H. simpl. rewrite collect_entries_values, H, map_to_list_empty.
  reflexivity.
Qed.

(** C10. [clear] leaves an empty registry, so that [entries] then returns
    an empty vector, and leaves every thread's timers as they were; a timer
    that was running before the [clear] is still running, and stopping it
    puts a new entry for its name into the registry, with [calls = 1], the
    elapsed time of that timer and no bytes. *)
Theorem clear_resets_only_registry (p : Profiler) :
  entries_ (clear p) = ∅
  ∧ (entries (clear p)).1 = []
  ∧ thread_timers_ (clear p) = thread_timers_ p
  ∧ (∀ tid key t0 t1,
       timers_of tid p !! key = Some (mkTimerState t0 true) →
       entries_ (stop tid t1 key (clear p)) !! key =
         Some (mkProfileEntry key 1
                 (Double.add Double.zero (duration_seconds (t1 - t0))) 0)).
Proof.
  split; [done|]. split; [by apply entries_empty_registry|]. split; [done|].
  intros tid key t0 t1 Hact.
  rewrite (stop_active _ t0) by done. simpl.
  rewrite stop_commit_lookup. reflexivity.
Qed.

Lemma clear_resets_only_registry_witness :
  let p := add_bytes "solve" 9 (stop 1%nat 50 "solve" (start 1%nat 20 "solve"
             (start 0%nat 10 "solve" Profiler_init))) in
  timers_of 0%nat p !! "solve" = Some (mkTimerState 10 true)
  ∧ calls (entry_at "solve" (entries_ p)) = 1
  ∧ (entries (clear p)).1 = []
  ∧ entries_ (stop 0%nat 70 "solve" (clear p)) !! "solve"
    = Some (mkProfileEntry "solve" 1
              (Double.add Double.zero (duration_seconds (70 - 10))) 0).
Proof.
  intros p. split; [reflexivity|]. split; [reflexivity|].
  destruct (clear_resets_only_registry p) as (_ & Hempty & _ & Hstop).
  split; [exact Hempty|].
  apply (Hstop 0%nat "solve" 10 70). reflexivity.
Defined.

(** ** The build without instrumentation *)

Lemma stub_host_call (h : Host unit) (c : Call) :
  host_profiler (host_call stub h c) = host_profiler h
  ∧ host_env (host_call stub h c) = host_env h
  ∧ host_thrown (host_call stub h c) = host_thrown h
  ∧ ∃ n, host_seen (host_call stub h c) = host_seen h ++ replicate n [].
Proof.
  destruct h as [[] env seen [what|]].
  - repeat (split; [done|]). exists 0%nat. simpl. by rewrite app_nil_r.
  - destruct c; simpl; repeat (split; [done|]);
      first [ by (exists 1%nat) | exists 0%nat; simpl; by rewrite app_nil_r ].
Qed.

(** C8. In the build without [GENIE_PROFILE] the operations have the types
    of the engine's, each returns the state it was given, [entries] returns
    an empty vector and [dump_profile] returns the files and streams
    untouched; so whatever sequence of calls a host makes, its files and
    streams end as they began, no call throws and every vector it got from
    [entries] is empty. *)
Theorem stub_is_inert :
  (∀ tid now key s, api_start stub tid now key s = s)
  ∧ (∀ tid now key s, api_stop stub tid now key s = s)
  ∧ (∀ key bytes s, api_add_bytes stub key bytes s = s)
  ∧ (∀ s, api_entries stub s = ([], s))
  ∧ (∀ s, api_clear stub s = s)
  ∧ (∀ tid now key s, api_scoped_enter stub tid now key s = s)
  ∧ (∀ tid now key s, api_scoped_exit stub tid now key s = s)
  ∧ (∀ es filename env, api_dump_profile stub es filename env = Returned env)
  ∧ (∀ cs h,
       host_profiler (host_run stub cs h) = host_profiler h
       ∧ host_env (host_run stub cs h) = host_env h
       ∧ host_thrown (host_run stub cs h) = host_thrown h
       ∧ ∃ n, host_seen (host_run stub cs h) = host_seen h ++ replicate n []).
Proof.
  repeat (split; [done|]).
  intros cs. induction cs as [|c cs IH] using rev_ind; intros h.
  - repeat (split; [done|]). exists 0%nat. simpl. by rewrite app_nil_r.
  - unfold host_run in *. rewrite foldl_app. simpl.
    destruct (stub_host_call (foldl (host_call stub) h cs) c)
      as (Hp & He & Ht & [n Hn]).
    destruct (IH h) as (Hp' & He' & Ht' & [n' Hn']).
    split; [congruence|]. split; [congruence|]. split; [congruence|].
    exists (n' + n)%nat. rewrite Hn, Hn', replicate_add. by rewrite app_assoc.
Qed.

(** With [GENIE_PROFILE], too, no call of a host ends in an exception. *)
Lemma engine_never_throws (cs : list Call) (h : Host Profiler) :
  host_thrown h = None → host_thrown (host_run engine cs h) = None.
Proof.
  intros Hh. induction cs as [|c cs IH] using rev_ind; [done|].
  unfold host_run in *. rewrite foldl_app. simpl.
  set (h' := foldl (host_call engine) h cs) in *.
  unfold host_call. rewrite IH.
  destruct c; try done; simpl;
    match goal with
    | |- context [dump_profile ?es ?f ?env] =>
        destruct (dump_profile_returns es f env) as [env' ->]
    end; done.
Qed.

(** ** Threads and the mutex *)

Lemma entry_at_insert key e (r : Registry) : entry_at key (<[key := e]> r) = e.
Proof. unfold entry_at. by rewrite lookup_insert_eq. Qed.

Lemma cs_finish_unlock u r : cs_finish u AtUnlock r = r.
Proof. reflexivity. Qed.

Lemma cs_finish_step u st r :
  cs_finish u st r = cs_finish u (cs_step u st r).1 (cs_step u st r).2.
Proof. destruct st, u; reflexivity. Qed.

Lemma cs_finish_index u r : cs_finish u AtIndex r = update_apply u r.
Proof.
  destruct u as [key elapsed|key bytes]; unfold cs_finish; simpl; unfold modify;
    rewrite ?entry_at_insert, ?insert_insert_eq; reflexivity.
Qed.

Lemma stage_left_step u st r :
  st ≠ AtUnlock → (stage_left (cs_step u st r).1 < stage_left st)%nat.
Proof. destruct st, u; simpl; intros; try done; lia. Qed.

Lemma thread_step_cases i m m' : thread_step i m = Some m' → StepCase i m m'.
Proof.
  unfold thread_step. intros H.
  destruct (m_threads m !! i) as [[t pc todo]|] eqn:Hth; [|done].
  simpl in H. destruct pc as [|u|u st].
  - destruct todo as [|[now key|now key|key bytes] rest]; [done| | |].
    + injection H as <-. apply (StepLocal i m _ _ Hth); [done|(unfold in_cs; simpl; tauto)|done|].
      unfold thread_cost; csimpl; lia.
    + destruct (stop_local now key t) as [[elapsed t']|] eqn:Hstop;
        injection H as <-; (apply (StepLocal i m _ _ Hth); [done|(unfold in_cs; simpl; tauto)| |]).
      * unfold owed; simpl. by rewrite Hstop.
      * unfold thread_cost; csimpl; lia.
      * unfold owed; simpl. by rewrite Hstop.
      * unfold thread_cost; csimpl; lia.
    + injection H as <-. apply (StepLocal i m _ _ Hth); [done|(unfold in_cs; simpl; tauto)|done|].
      unfold thread_cost; csimpl; lia.
  - destruct (m_mutex m) eqn:Hmx; [done|]. injection H as <-.
    by apply (StepAcquire i m _ u Hth).
  - assert (st = AtUnlock ∨ st ≠ AtUnlock) as [->|Hst] by (destruct st; auto).
    + injection H as <-. by apply (StepRelease i m _ u Hth).
    + pose proof (StepInside i m _ u st Hth eq_refl Hst) as Hcase.
      destruct st; try done; by injection H as <-.
Qed.

Lemma lock_ok_step i m m' : lock_ok m → StepCase i m m' → lock_ok m'.
Proof.
  intros [Hin Hheld] Hstep.
  destruct Hstep as [th th' Hth Hpc Hncs _ _|th u Hth Hpc Hmx|th u st Hth Hpc Hst|th u Hth Hpc];
    pose proof (lookup_lt_Some _ _ _ Hth) as Hlt; split; simpl.
  - intros j thj Hj Hcs. destruct (decide (i = j)) as [->|Hne].
    + rewrite list_lookup_insert_eq in Hj by done. by simplify_eq.
    + rewrite list_lookup_insert_ne in Hj by done. eauto.
  - intros j Hj. destruct (Hheld j Hj) as (thj & Hthj & Hcs).
    destruct (decide (i = j)) as [->|Hne].
    + simplify_eq. unfold in_cs in Hcs. by rewrite Hpc in Hcs.
    + exists thj. by rewrite list_lookup_insert_ne.
  - intros j thj Hj Hcs. destruct (decide (i = j)) as [->|Hne]; [done|].
    rewrite list_lookup_insert_ne in Hj by done.
    specialize (Hin j thj Hj Hcs). congruence.
  - intros j [= <-]. eexists. by rewrite list_lookup_insert_eq.
  - intros j thj Hj Hcs. destruct (decide (i = j)) as [->|Hne].
    + apply (Hin j th Hth). unfold in_cs. by rewrite Hpc.
    + rewrite list_lookup_insert_ne in Hj by done. eauto.
  - intros j Hj. destruct (Hheld j Hj) as (thj & Hthj & Hcs).
    destruct (decide (i = j)) as [->|Hne].
    + eexists. by rewrite list_lookup_insert_eq.
    + exists thj. by rewrite list_lookup_insert_ne.
  - intros j thj Hj Hcs. destruct (decide (i = j)) as [->|Hne].
    + rewrite list_lookup_insert_eq in Hj by done. by simplify_eq.
    + rewrite list_lookup_insert_ne in Hj by done.
      assert (m_mutex m = Some j) as Hmj by eauto.
      assert (m_mutex m = Some i) as Hmi.
      { apply (Hin i th Hth). unfold in_cs. by rewrite Hpc. }
      congruence.
  - done.
Qed.

Lemma concat_fmap_insert {A B : Type} (f : A → list B) (l : list A) i x y :
  l !! i = Some x →
  concat (f <$> <[i := y]> l) ++ f x ≡ₚ concat (f <$> l) ++ f y.
Proof.
  revert i. induction l as [|a l IH]; intros [|i] H; simplify_eq/=.
  - rewrite <- app_assoc. rewrite (Permutation_app_comm (f y)).
    apply Permutation_app_tail, Permutation_app_comm.
  - rewrite <- !app_assoc. apply Permutation_app_head. by apply IH.
Qed.

Lemma concat_owed_insert_same (l : list Thread) i th th' :
  l !! i = Some th → owed th' = owed th →
  concat (owed <$> <[i := th']> l) ≡ₚ concat (owed <$> l).
Proof.
  intros Hth Howed. pose proof (concat_fmap_insert owed l i th th' Hth) as H.
  rewrite Howed in H. by apply Permutation_app_inv_r in H.
Qed.

Lemma sum_list_fmap_insert {A : Type} (f : A → nat) (l : list A) i x y :
  l !! i = Some x →
  (sum_list (f <$> <[i := y]> l) + f x = sum_list (f <$> l) + f y)%nat.
Proof.
  revert i. induction l as [|a l IH]; intros [|i] H; simplify_eq/=; [lia|].
  specialize (IH i H). lia.
Qed.

Lemma view_not_in_cs m i th :
  m_mutex m = Some i → m_threads m !! i = Some th → ¬ in_cs th →
  view m = m_entries m.
Proof.
  intros Hmx Hth Hcs. unfold view. rewrite Hmx, Hth.
  destruct th as [t [|u|u st] todo]; try done.
Qed.

Lemma view_in_cs m i t u st todo :
  m_mutex m = Some i → m_threads m !! i = Some (mkThread t (InCS u st) todo) →
  view m = cs_finish u st (m_entries m).
Proof. intros Hmx Hth. unfold view. by rewrite Hmx, Hth. Qed.

Lemma view_unlocked m : m_mutex m = None → view m = m_entries m.
Proof. intros Hmx. unfold view. by rewrite Hmx. Qed.

Lemma log_ok_step m0 i m m' :
  lock_ok m → log_ok m0 m → StepCase i m m' → log_ok m0 m'.
Proof.
  intros [Hin Hheld] (log & Hview & Hperm) Hstep.
  destruct Hstep as [th th' Hth Hpc Hncs Howed _|th u Hth Hpc Hmx|th u st Hth Hpc Hst|th u Hth Hpc];
    pose proof (lookup_lt_Some _ _ _ Hth) as Hlt.
  - exists log. split.
    + rewrite <- Hview. destruct (m_mutex m) as [j|] eqn:Hmx; [|by rewrite !view_unlocked].
      destruct (decide (i = j)) as [->|Hne].
      * rewrite (view_not_in_cs m j th), (view_not_in_cs _ j th'); try done.
        -- simpl. rewrite list_lookup_insert_eq; done.
        -- unfold in_cs. rewrite Hpc. tauto.
      * unfold view. simpl. rewrite Hmx. by rewrite list_lookup_insert_ne.
    + simpl. by rewrite (concat_owed_insert_same _ _ th).
  - exists (log ++ [u]). split.
    + rewrite (view_in_cs _ i (th_timers th) u AtIndex (th_todo th)); simpl;
        [|done|by rewrite list_lookup_insert_eq].
      rewrite cs_finish_index. unfold replay. rewrite foldl_app. simpl.
      fold (replay (m_entries m0) log). rewrite <- Hview.
      by rewrite view_unlocked.
    + simpl. rewrite <- Hperm.
      pose proof (concat_fmap_insert owed (m_threads m) i th
                    (mkThread (th_timers th) (InCS u AtIndex) (th_todo th)) Hth) as H.
      assert (owed th = u :: owed_from (th_timers th) (th_todo th)) as Hoth
        by (unfold owed; by rewrite Hpc).
      rewrite Hoth in H. unfold owed at 3 in H. simpl in H.
      rewrite <- app_assoc. apply Permutation_app_head.
      apply (Permutation_app_inv_r (owed_from (th_timers th) (th_todo th))).
      rewrite <- H. simpl. apply Permutation_middle.
  - assert (m_mutex m = Some i) as Hmx.
    { apply (Hin i th Hth). unfold in_cs. by rewrite Hpc. }
    exists log. split.
    + rewrite <- Hview. destruct th as [t pc todo]. simpl in *. subst pc.
      rewrite (view_in_cs m i t u st todo) by done.
      rewrite (view_in_cs _ i t u (cs_step u st (m_entries m)).1 todo); simpl;
        [|done|by rewrite list_lookup_insert_eq].
      symmetry. apply cs_finish_step.
    + simpl. rewrite (concat_owed_insert_same _ _ th); [done..|].
      unfold owed. by rewrite Hpc.
  - assert (m_mutex m = Some i) as Hmx.
    { apply (Hin i th Hth). unfold in_cs. by rewrite Hpc. }
    exists log. split.
    + rewrite <- Hview. destruct th as [t pc todo]. simpl in *. subst pc.
      rewrite (view_in_cs m i t u AtUnlock todo) by done.
      by rewrite view_unlocked.
    + simpl. rewrite (concat_owed_insert_same _ _ th); [done..|].
      unfold owed. by rewrite Hpc.
Qed.

Lemma insert_thread_cost (l : list Thread) i th th' :
  l !! i = Some th → (thread_cost th' < thread_cost th)%nat →
  (sum_list (thread_cost <$> <[i := th']> l) < sum_list (thread_cost <$> l))%nat.
Proof.
  intros Hth Hlt. pose proof (sum_list_fmap_insert thread_cost l i th th' Hth). lia.
Qed.

Lemma machine_cost_step i m m' :
  StepCase i m m' → (machine_cost m' < machine_cost m)%nat.
Proof.
  unfold machine_cost.
  intros [th th' Hth Hpc Hncs _ Hcost|th u Hth Hpc Hmx|th u st Hth Hpc Hst|th u Hth Hpc];
    simpl; apply (insert_thread_cost _ _ th); try done;
    unfold thread_cost; rewrite Hpc; simpl; try lia.
  pose proof (stage_left_step u st (m_entries m) Hst). lia.
Qed.

Lemma unfinished_thread (l : list Thread) :
  Forall thread_done l ∨ ∃ (i : thread_id) th, l !! i = Some th ∧ ¬ thread_done th.
Proof.
  induction l as [|th l [IH|(i & th' & Hth & Hnd)]].
  - left. constructor.
  - destruct th as [t [|u|u st] [|o todo]] eqn:Heq;
      try (right; exists 0%nat, th; subst th; split; [done|]; by intros [??]).
    left. constructor; [done|done].
  - right. exists (S i), th'. done.
Qed.

Lemma progress m : lock_ok m → ¬ finished m → ∃ m', step m m'.
Proof.
  intros [Hin Hheld] Hnf. unfold step.
  destruct (m_mutex m) as [j|] eqn:Hmx.
  - destruct (Hheld j eq_refl) as ([t pc todo] & Hth & Hcs).
    exists (default m (thread_step j m)), j. unfold thread_step. rewrite Hth. simpl.
    destruct pc as [|u|u st]; try done. by destruct st.
  - destruct (unfinished_thread (m_threads m)) as [Hall|(i & [t pc todo] & Hth & Hnd)]; [done|].
    exists (default m (thread_step i m)), i. unfold thread_step. rewrite Hth. simpl.
    destruct pc as [|u|u st].
    + destruct todo as [|[now key|now key|key bytes] rest]; try done.
      * exfalso. by apply Hnd.
      * by destruct (stop_local now key t) as [[??]|].
    + by rewrite Hmx.
    + by destruct st.
Qed.

Lemma step_StepCase m m' : step m m' → ∃ i, StepCase i m m'.
Proof. intros [i H]. exists i. by apply thread_step_cases. Qed.

Lemma can_finish_within n m :
  (machine_cost m < n)%nat → lock_ok m → ∃ m', rtc step m m' ∧ finished m'.
Proof.
  revert m. induction n as [|n IH]; intros m Hcost Hok; [lia|].
  destruct (unfinished_thread (m_threads m)) as [Hall|Hsome].
  - exists m. split; [constructor|done].
  - destruct (progress m Hok) as [m1 Hstep].
    { intros Hfin. destruct Hsome as (i & th & Hth & Hnd). apply Hnd.
      unfold finished in Hfin. rewrite Forall_lookup in Hfin. eauto. }
    destruct (step_StepCase _ _ Hstep) as [i Hcase].
    pose proof (machine_cost_step _ _ _ Hcase) as Hlt.
    destruct (IH m1) as (m' & Hrtc & Hfin); [lia|by eapply lock_ok_step|].
    exists m'. split; [by eapply rtc_l|done].
Qed.

Lemma can_finish m : lock_ok m → ∃ m', rtc step m m' ∧ finished m'.
Proof. apply (can_finish_within (S (machine_cost m))). lia. Qed.

Lemma reachable_ok m0 m :
  m_mutex m0 = None → lock_ok m0 → rtc step m0 m → lock_ok m ∧ log_ok m0 m.
Proof.
  intros Hmx Hok0 Hrtc. revert m Hrtc.
  apply (rtc_ind_r (λ m, lock_ok m ∧ log_ok m0 m)).
  - split; [done|]. exists []. split; [by apply view_unlocked|done].
  - intros m m' Hrtc Hstep [Hok Hlog]. destruct (step_StepCase _ _ Hstep) as [i Hcase].
    split; [by eapply lock_ok_step | by eapply log_ok_step].
Qed.

Lemma finished_unlocked m : lock_ok m → finished m → m_mutex m = None.
Proof.
  intros [_ Hheld] Hfin. destruct (m_mutex m) as [j|] eqn:Hmx; [|done].
  destruct (Hheld j eq_refl) as (th & Hth & Hcs).
  unfold finished in Hfin. rewrite Forall_lookup in Hfin.
  destruct (Hfin j th Hth) as [Hpc _]. unfold in_cs in Hcs. by rewrite Hpc in Hcs.
Qed.

Lemma finished_owed m : finished m → concat (owed <$> m_threads m) = [].
Proof.
  unfold finished. induction 1 as [|th l [Hpc Htodo] _ IH]; [done|].
  csimpl. rewrite IH. unfold owed. by rewrite Hpc, Htodo.
Qed.

(** Every complete run leaves the registry that the guarded blocks, run one
    after the other in some order, would leave. *)
Lemma finished_linearized m0 m :
  m_mutex m0 = None → lock_ok m0 → rtc step m0 m → finished m →
  ∃ log, m_entries m = replay (m_entries m0) log
         ∧ log ≡ₚ concat (owed <$> m_threads m0).
Proof.
  intros Hmx Hok0 Hrtc Hfin.
  destruct (reachable_ok m0 m Hmx Hok0 Hrtc) as [Hok (log & Hview & Hperm)].
  exists log. split.
  - rewrite <- Hview. symmetry. by apply view_unlocked, finished_unlocked.
  - by rewrite finished_owed, app_nil_r in Hperm.
Qed.

Lemma run_schedule_rtc sched m : rtc step m (run_schedule sched m).
Proof.
  revert m. induction sched as [|i sched IH]; intros m; [constructor|].
  simpl. destruct (thread_step i m) as [m'|] eqn:Hstep; simpl.
  - eapply rtc_l; [by exists i|]. apply IH.
  - apply IH.
Qed.

(** Without the mutex two threads that stop in step both read [calls = 0]
    and both write [1]; with it the same schedule counts both. *)
Example lost_update_without_mutex :
  let m0 := spawn ∅ "solve" [[(10, 20)]; [(13, 50)]] in
  let sched := concat (replicate 20 [0; 1]%nat) in
  finished (run_racy sched m0)
  ∧ calls (entry_at "solve" (m_entries (run_racy sched m0))) = 1
  ∧ finished (run_schedule sched m0)
  ∧ calls (entry_at "solve" (m_entries (run_schedule sched m0))) = 2.
Proof.
  repeat split; try (vm_compute; reflexivity); vm_compute; repeat constructor.
Qed.

(** *** Threads running cycles of one region *)

Lemma owed_from_cycles key cs t :
  owed_from t (cycles key cs) = UpdStop key <$> cycle_seconds cs.
Proof.
  revert t. induction cs as [|c cs IH]; intros t; [done|].
  unfold cycles. csimpl. fold (cycles key cs).
  unfold stop_local. rewrite lookup_insert_eq. simpl. by rewrite IH.
Qed.

Lemma spawn_lock_ok r key progs : lock_ok (spawn r key progs).
Proof.
  split; [|done]. simpl. intros i th Hth Hcs.
  rewrite list_lookup_fmap in Hth.
  unfold in_cs in Hcs. destruct (progs !! i); by simplify_eq/=.
Qed.

Lemma spawn_owed r key progs :
  concat (owed <$> m_threads (spawn r key progs))
  = UpdStop key <$> concat (cycle_seconds <$> progs).
Proof.
  simpl. induction progs as [|cs progs IH]; [done|].
  csimpl. rewrite IH, fmap_app. unfold owed at 1. simpl.
  by rewrite owed_from_cycles.
Qed.

Lemma entry_at_stop_commit key elapsed (r : Registry) :
  entry_at key (stop_commit key elapsed r) =
    mkProfileEntry key (u64 (calls (entry_at key r) + 1))
      (Double.add (total_seconds (entry_at key r)) elapsed)
      (total_bytes (entry_at key r)).
Proof. unfold entry_at at 1. by rewrite stop_commit_lookup. Qed.

Lemma replay_stops key els (r : Registry) :
  r !! key = None →
  calls (entry_at key (replay r (UpdStop key <$> els))) = u64 (Z.of_nat (length els))
  ∧ total_seconds (entry_at key (replay r (UpdStop key <$> els)))
    = sum_doubles Double.zero els.
Proof.
  intros Hfresh. induction els as [|el els [IHc IHt]] using rev_ind.
  - simpl. unfold entry_at. by rewrite Hfresh.
  - rewrite fmap_app. unfold replay, sum_doubles. rewrite !foldl_app. simpl.
    fold (replay r (UpdStop key <$> els)). fold (sum_doubles Double.zero els).
    rewrite entry_at_stop_commit. simpl.
    rewrite IHc, IHt, length_app, Nat.add_1_r. split; [|done].
    apply u64_succ_of_nat.
Qed.

Lemma length_concat_cycles (progs : list (list (time_point * time_point))) (C : nat) :
  Forall (λ cs, length cs = C) progs →
  length (concat (cycle_seconds <$> progs)) = (length progs * C)%nat.
Proof.
  induction 1 as [|cs progs Hcs _ IH]; [done|].
  csimpl. rewrite length_app, IH. unfold cycle_seconds. rewrite length_fmap. lia.
Qed.

(** C2. [T] threads start on a registry without the name and each runs
    [C] start/stop cycles of that name, under any scheduling of their
    steps.  Every run can be carried on until all threads are through, and
    when they are, the entry for the name has [calls = T * C] and its
    [total_seconds] is the sum, taken in the order in which the threads got
    the mutex, of the [T * C] durations measured: no stop's update is
    lost. *)
Theorem concurrent_cycles_no_lost_update
    (key : string) (r0 : Registry)
    (progs : list (list (time_point * time_point))) (C : nat) :
  r0 !! key = None →
  Forall (λ cs, length cs = C) progs →
  Z.of_nat (length progs * C) < u64_mod →
  (∀ m, rtc step (spawn r0 key progs) m → ∃ m', rtc step m m' ∧ finished m')
  ∧ (∀ m, rtc step (spawn r0 key progs) m → finished m →
       ∃ order,
         order ≡ₚ concat (cycle_seconds <$> progs)
         ∧ calls (entry_at key (m_entries m)) = Z.of_nat (length progs * C)
         ∧ total_seconds (entry_at key (m_entries m))
           = sum_doubles Double.zero order).
Proof.
  intros Hfresh Hlen Hbound. split.
  - intros m Hrtc. apply can_finish.
    by apply (reachable_ok (spawn r0 key progs) m eq_refl (spawn_lock_ok _ _ _)).
  - intros m Hrtc Hfin.
    destruct (finished_linearized (spawn r0 key progs) m eq_refl
                (spawn_lock_ok r0 key progs) Hrtc Hfin)
      as (log & Hreg & Hperm).
    rewrite spawn_owed in Hperm.
    apply Permutation_map_inv in Hperm as (order & -> & Horder).
    exists order. split; [done|].
    rewrite Hreg. simpl.
    destruct (replay_stops key order r0 Hfresh) as [Hc Ht].
    split; [|exact Ht].
    change (map (UpdStop key) order) with (UpdStop key <$> order).
    rewrite Hc, <- Horder, (length_concat_cycles progs C Hlen).
    unfold u64. apply Z.mod_small. lia.
Qed.

Lemma concurrent_cycles_no_lost_update_witness :
  let progs := [[(10, 20); (30, 45)]; [(13, 50); (60, 61)]] in
  let m := run_schedule (concat (replicate 40 [0; 1]%nat)) (spawn ∅ "solve" progs) in
  (∅ : Registry) !! "solve" = None
  ∧ Forall (λ cs, length cs = 2%nat) progs
  ∧ Z.of_nat (length progs * 2) < u64_mod
  ∧ finished m
  ∧ calls (entry_at "solve" (m_entries m)) = 4.
Proof.
  intros progs m.
  assert ((∅ : Registry) !! "solve" = None) as Hfresh by reflexivity.
  assert (Forall (λ cs, length cs = 2%nat) progs) as Hlen by (repeat constructor).
  assert (Z.of_nat (length progs * 2) < u64_mod) as Hbound by (vm_compute; reflexivity).
  assert (finished m) as Hfin by (vm_compute; repeat constructor).
  split; [exact Hfresh|]. split; [exact Hlen|]. split; [exact Hbound|].
  split; [exact Hfin|].
  destruct (concurrent_cycles_no_lost_update "solve" ∅ progs 2 Hfresh Hlen Hbound)
    as [_ Hfinal].
  destruct (Hfinal m (run_schedule_rtc _ _) Hfin) as (order & _ & Hcalls & _).
  exact Hcalls.
Defined.

(** ** The JSON report on well-behaved entries *)

Lemma write_json_entry_text size i e out :
  write_json_entry size i e out
  = (out ++ json_entry_text e ++ (if (i + 1 <? size)%nat then "," else EmptyString)
         ++ nl)%string.
Proof.
  unfold write_json_entry, json_entry_text.
  destruct (0 <? total_bytes e), (i + 1 <? size)%nat;
    rewrite ?string_app_assoc; reflexivity.
Qed.

Lemma write_json_loop_text size i rest out :
  size = (i + length rest)%nat →
  write_json_loop size i rest out = (out ++ json_rows rest)%string.
Proof.
  revert i out. induction rest as [|e rest IH]; intros i out Hsize; simpl.
  - by rewrite string_app_nil_r.
  - rewrite IH by (simpl in Hsize; lia). rewrite write_json_entry_text.
    rewrite !string_app_assoc. do 2 f_equal.
    destruct rest as [|e' rest]; simpl in *.
    + replace (i + 1 <? size)%nat with false; [done|].
      symmetry. apply Nat.ltb_ge. lia.
    + replace (i + 1 <? size)%nat with true; [done|].
      symmetry. apply Nat.ltb_lt. lia.
Qed.

Lemma write_json_text es :
  write_json es EmptyString = ("[" ++ nl ++ json_rows es ++ "]" ++ nl)%string.
Proof.
  unfold write_json. rewrite write_json_loop_text by done.
  by rewrite !string_app_assoc.
Qed.

Lemma parse_chars_safe s tail acc :
  json_safe_name s = true →
  parse_chars (s ++ String "034" tail) acc = Some ((acc ++ s)%string, tail).
Proof.
  revert acc. induction s as [|c s IH]; intros acc Hsafe.
  - rewrite string_app_nil_l, string_app_nil_r. reflexivity.
  - simpl in Hsafe. apply andb_true_iff in Hsafe as [Hc Hs].
    unfold json_safe_char in Hc.
    apply andb_true_iff in Hc as [Hc Hctl]. apply andb_true_iff in Hc as [Hq Hb].
    apply negb_true_iff in Hq, Hb, Hctl.
    rewrite string_app_cons. simpl. rewrite Hq, Hb, Hctl.
    rewrite IH by done. unfold snoc_char.
    by rewrite string_app_assoc, string_app_cons, string_app_nil_l.
Qed.

Lemma take_digits_app ds tail :
  all_digits ds = true →
  match tail with String c _ => is_digit c = false | EmptyString => True end →
  take_digits (ds ++ tail) = (ds, tail).
Proof.
  intros Hds Htail. induction ds as [|c ds IH].
  - rewrite string_app_nil_l. destruct tail as [|c tail]; [done|].
    simpl. by rewrite Htail.
  - simpl in Hds. apply andb_true_iff in Hds as [Hc Hds].
    rewrite string_app_cons. simpl. rewrite Hc, IH by done. reflexivity.
Qed.

Lemma is_digit_not c d : is_digit c = true → is_digit d = false → Ascii.eqb c d = false.
Proof.
  intros Hc Hd. apply Ascii.eqb_neq. intros ->. congruence.
Qed.

Lemma ends_number_take tail :
  ends_number tail = true →
  match tail with String c _ => is_digit c = false | EmptyString => True end.
Proof.
  destruct tail as [|c tail]; [done|]. simpl. intros H.
  repeat (apply andb_true_iff in H as [H ?]). by apply negb_true_iff in H.
Qed.

Lemma parse_number_tail tail :
  ends_number tail = true →
  match tail with
  | String c rest =>
      Ascii.eqb c "." = false ∧ Ascii.eqb c "e" = false ∧ Ascii.eqb c "E" = false
  | EmptyString => True
  end.
Proof.
  destruct tail as [|c tail]; [done|]. simpl. intros H.
  repeat (apply andb_true_iff in H as [H ?]).
  repeat match goal with H : negb _ = true |- _ => apply negb_true_iff in H end.
  done.
Qed.

Lemma parse_number_int ds tail :
  normal_digits ds → ends_number tail = true →
  parse_number (ds ++ tail) = Some (ds, tail).
Proof.
  intros [Hds Hnorm] Htail.
  pose proof (take_digits_app ds tail Hds (ends_number_take _ Htail)) as Htake.
  pose proof (parse_number_tail _ Htail) as Hmarks.
  assert (∃ c rest, ds = String c rest ∧ is_digit c = true
                    ∧ Ascii.eqb c "0" && negb (String.eqb rest EmptyString) = false)
    as (c & rest & -> & Hc & Hlead).
  { destruct Hnorm as [->|(c & rest & -> & Hc)].
    - by exists "0"%char, EmptyString.
    - exists c, rest. simpl in Hds. apply andb_true_iff in Hds as [Hd _].
      by rewrite Hc. }
  unfold parse_number. rewrite string_app_cons.
  rewrite (is_digit_not c "-" Hc eq_refl). rewrite <- string_app_cons, Htake.
  rewrite Hlead.
  destruct tail as [|t tail].
  - by rewrite !string_app_nil_r.
  - destruct Hmarks as (-> & -> & ->). simpl. by rewrite !string_app_nil_r.
Qed.

Lemma parse_number_fixed sign int frac tail :
  sign = EmptyString ∨ sign = "-"%string →
  normal_digits int → all_digits frac = true → frac ≠ EmptyString →
  ends_number tail = true →
  parse_number (sign ++ int ++ "." ++ frac ++ tail)
  = Some ((sign ++ int ++ "." ++ frac)%string, tail).
Proof.
  intros Hsign [Hds Hnorm] Hfrac Hne Htail.
  assert (take_digits (int ++ "." ++ frac ++ tail) = (int, ("." ++ frac ++ tail)%string))
    as Hwhole by (apply take_digits_app; [done | exact eq_refl]).
  pose proof (take_digits_app frac tail Hfrac (ends_number_take _ Htail)) as Hfr.
  pose proof (parse_number_tail _ Htail) as Hmarks.
  assert (∃ c rest, int = String c rest ∧ is_digit c = true
                    ∧ Ascii.eqb c "0" && negb (String.eqb rest EmptyString) = false)
    as (c & rest & -> & Hc & Hlead).
  { destruct Hnorm as [->|(c & rest & -> & Hc)].
    - by exists "0"%char, EmptyString.
    - exists c, rest. simpl in Hds. apply andb_true_iff in Hds as [Hd _].
      by rewrite Hc. }
  assert (parse_number (String c rest ++ "." ++ frac ++ tail)
          = Some ((String c rest ++ "." ++ frac)%string, tail)) as Hplain.
  { unfold parse_number. rewrite string_app_cons.
    rewrite (is_digit_not c "-" Hc eq_refl). rewrite <- string_app_cons, Hwhole.
    rewrite Hlead. rewrite string_app_cons, string_app_nil_l.
    change (Ascii.eqb "." ".") with true. cbv iota. rewrite Hfr.
    destruct frac as [|d frac]; [done|].
    destruct tail as [|t tail].
    - by rewrite !string_app_nil_r.
    - destruct Hmarks as (_ & -> & ->). simpl. by rewrite !string_app_nil_r. }
  destruct Hsign as [->| ->].
  - by rewrite !string_app_nil_l.
  - change ("-" ++ String c rest ++ "." ++ frac ++ tail)%string
      with (String "-" (String c rest ++ "." ++ frac ++ tail)).
    unfold parse_number in *. change (Ascii.eqb "-" "-") with true. cbv iota.
    rewrite string_app_cons in Hplain.
    rewrite (is_digit_not c "-" Hc eq_refl) in Hplain.
    rewrite <- string_app_cons in Hplain.
    destruct (take_digits (String c rest ++ "." ++ frac ++ tail)) as [i s2].
    destruct i as [|d more]; [done|].
    destruct (Ascii.eqb d "0" && negb (String.eqb more EmptyString)); [done|].
    destruct (match s2 with String _ _ => _ | EmptyString => _ end) as [[fr s3]|];
      [|done].
    destruct (match s3 with String _ _ => _ | EmptyString => _ end) as [[ex s5]|];
      [|done].
    rewrite string_app_nil_l in Hplain.
    assert ((String d more ++ fr ++ ex)%string = (String c rest ++ "." ++ frac)%string
            ∧ s5 = tail) as [-> ->] by (split; congruence).
    reflexivity.
Qed.

Lemma to_uint_normal (n : N) :
  N.to_uint n = Decimal.D0 Decimal.Nil
  ∨ match N.to_uint n with Decimal.Nil | Decimal.D0 _ => False | _ => True end.
Proof.
  pose proof (DecimalN.Unsigned.to_of (N.to_uint n)) as H.
  rewrite DecimalN.Unsigned.of_to in H.
  destruct (N.to_uint n) as [|u|u|u|u|u|u|u|u|u|u]; auto.
  left. rewrite DecimalFacts.unorm_D0 in H.
  assert (u = Decimal.Nil) as ->; [|done].
  destruct (Decimal.uint_eq_dec u Decimal.Nil) as [?|Hne]; [done|].
  pose proof (DecimalFacts.nb_digits_unorm u Hne) as Hle.
  rewrite <- H in Hle. simpl in Hle. lia.
Qed.

Lemma show_u64_normal n : normal_digits (show_u64 n).
Proof.
  split; [apply show_u64_digits|].
  unfold show_u64, NilZero.string_of_uint.
  destruct (to_uint_normal (Z.to_N n)) as [->|H]; [by left|].
  destruct (N.to_uint (Z.to_N n)); try done; right; simpl; eauto.
Qed.

Lemma skip_ws_ws c s : is_ws c = true → skip_ws (String c s) = skip_ws s.
Proof. intros H. simpl. by rewrite H. Qed.

Lemma skip_ws_stop c s : is_ws c = false → skip_ws (String c s) = String c s.
Proof. intros H. simpl. by rewrite H. Qed.

Lemma number_start c :
  is_digit c = true ∨ c = "-"%char →
  is_ws c = false ∧ Ascii.eqb c "{" = false ∧ Ascii.eqb c "[" = false
  ∧ Ascii.eqb c "034" = false ∧ Ascii.eqb "t" c = false
  ∧ Ascii.eqb "f" c = false ∧ Ascii.eqb "n" c = false.
Proof.
  intros [Hc| ->]; [|done].
  repeat split;
    first [ by apply (is_digit_not c _ Hc)
          | rewrite Ascii.eqb_sym; by apply (is_digit_not c _ Hc)
          | idtac ].
  unfold is_ws, is_digit in *. apply andb_true_iff in Hc as [H1 H2].
  apply Nat.leb_le in H1, H2.
  repeat (apply orb_false_iff; split); apply Nat.eqb_neq; lia.
Qed.

Lemma parse_value_number f c rest tail :
  is_digit c = true ∨ c = "-"%char →
  parse_number (String c rest ++ tail) = Some (String c rest, tail) →
  parse_value (S f) (String " " (String c rest ++ tail))
  = Some (JNumber (String c rest), tail).
Proof.
  intros Hc Hnum. destruct (number_start c Hc) as (Hws & H1 & H2 & H3 & H4 & H5 & H6).
  rewrite string_app_cons in *.
  cbn [parse_value]. rewrite (skip_ws_ws " ") by done. rewrite skip_ws_stop by done.
  rewrite H1, H2, H3. cbn [strip_prefix]. rewrite H4, H5, H6. by rewrite Hnum.
Qed.

Lemma parse_value_string f s tail :
  json_safe_name s = true →
  parse_value (S f) (String " " (String "034" (s ++ String "034" tail)))
  = Some (JString s, tail).
Proof.
  intros Hs. cbn [parse_value]. rewrite (skip_ws_ws " ") by done.
  rewrite skip_ws_stop by done.
  change (Ascii.eqb "034" "{") with false. change (Ascii.eqb "034" "[") with false.
  change (Ascii.eqb "034" "034") with true. cbv iota.
  by rewrite parse_chars_safe.
Qed.

Lemma parse_members_more f s key vrest v rest3 rest4 ms r :
  skip_ws s = String "034" (key ++ String "034" (String ":" vrest)) →
  json_safe_name key = true →
  parse_value f vrest = Some (v, rest3) →
  skip_ws rest3 = String "," rest4 →
  parse_members f rest4 = Some (ms, r) →
  parse_members (S f) s = Some ((key, v) :: ms, r).
Proof.
  intros Hs Hkey Hv Hsep Hms. cbn [parse_members]. rewrite Hs.
  change (Ascii.eqb "034" "034") with true. cbv iota.
  rewrite parse_chars_safe by done. rewrite string_app_nil_l.
  rewrite skip_ws_stop by done.
  change (Ascii.eqb ":" ":") with true. cbv iota.
  rewrite Hv, Hsep. change (Ascii.eqb "," ",") with true. cbv iota.
  by rewrite Hms.
Qed.

Lemma parse_members_last f s key vrest v rest3 rest4 :
  skip_ws s = String "034" (key ++ String "034" (String ":" vrest)) →
  json_safe_name key = true →
  parse_value f vrest = Some (v, rest3) →
  skip_ws rest3 = String "}" rest4 →
  parse_members (S f) s = Some ([(key, v)], rest4).
Proof.
  intros Hs Hkey Hv Hsep. cbn [parse_members]. rewrite Hs.
  change (Ascii.eqb "034" "034") with true. cbv iota.
  rewrite parse_chars_safe by done. rewrite string_app_nil_l.
  rewrite skip_ws_stop by done.
  change (Ascii.eqb ":" ":") with true. cbv iota.
  rewrite Hv, Hsep. change (Ascii.eqb "}" ",") with false.
  by change (Ascii.eqb "}" "}") with true.
Qed.

Lemma parse_number_show_u64 f n tail :
  ends_number tail = true →
  parse_value (S f) (String " " (show_u64 n ++ tail)) = Some (JNumber (show_u64 n), tail).
Proof.
  intros Htail. pose proof (show_u64_normal n) as Hn.
  pose proof (parse_number_int _ _ Hn Htail) as Hnum.
  destruct Hn as [Hd Hn].
  assert (∃ c rest, show_u64 n = String c rest ∧ is_digit c = true)
    as (c & rest & Heq & Hc).
  { destruct Hn as [Heq|(c & rest & Heq & _)]; rewrite Heq in *.
    - by exists "0"%char, EmptyString.
    - exists c, rest. simpl in Hd. apply andb_true_iff in Hd as [Hd _]. done. }
  rewrite Heq in *. apply parse_value_number; auto.
Qed.

Lemma parse_number_show_fixed6 f x tail :
  Double.is_finite x = true → ends_number tail = true →
  parse_value (S f) (String " " (show_fixed6 x ++ tail))
  = Some (JNumber (show_fixed6 x), tail).
Proof.
  intros Hx Htail.
  assert (∃ sign q, (sign = EmptyString ∨ sign = "-"%string)
                    ∧ show_fixed6 x = (sign ++ show_micro q)%string)
    as (sign & q & Hsign & Heq).
  { destruct x as [s|s| |s m e]; try done; simpl;
      [exists (if s then "-"%string else EmptyString), 0
      |exists (if s then "-"%string else EmptyString), (micro_units m e)];
      (split; [destruct s; auto|done]). }
  pose proof (show_u64_normal (q / 1000000)) as Hwhole.
  assert (parse_number (show_fixed6 x ++ tail) = Some (show_fixed6 x, tail)) as Hnum.
  { rewrite Heq. unfold show_micro. rewrite !string_app_assoc.
    pose proof (parse_number_fixed sign (show_u64 (q / 1000000))
                  (show_padded 6 (q mod 1000000)) tail Hsign Hwhole
                  (show_padded_digits _ _)) as H.
    apply H; [|done].
    intros Hnil. pose proof (show_padded_length 6 (q mod 1000000)) as Hlen.
    by rewrite Hnil in Hlen. }
  assert (∃ c rest, show_fixed6 x = String c rest ∧ (is_digit c = true ∨ c = "-"%char))
    as (c & rest & Hshape & Hc).
  { rewrite Heq. destruct Hwhole as [Hd Hn]. unfold show_micro.
    destruct Hsign as [-> | ->].
    - rewrite string_app_nil_l.
      destruct Hn as [Hz|(c & rest & Hz & _)]; rewrite Hz in *.
      + eexists _, _. split; [reflexivity|by left].
      + rewrite string_app_cons. eexists _, _. split; [reflexivity|].
        left. simpl in Hd. by apply andb_true_iff in Hd as [Hd _].
    - eexists _, _. split; [reflexivity|by right]. }
  rewrite Hshape in *. by apply parse_value_number.
Qed.

Lemma parse_object f e tail :
  json_safe e →
  parse_value (6 + f) (String "010" (json_entry_text e ++ tail))
  = Some (json_object e, tail).
Proof.
  intros [Hname Hfin].
  set (close := String "010" (String " " (String " " (String "}" tail)))).
  set (m4 := ((if (0 <? total_bytes e)%Z
               then "," ++ nl ++ "    " ++ dq ++ "total_bytes" ++ dq ++ ": "
                        ++ show_u64 (total_bytes e)
               else EmptyString) ++ close)%string).
  set (m3 := (nl ++ "    " ++ dq ++ "total_seconds" ++ dq ++ ": "
                 ++ show_fixed6 (total_seconds e) ++ m4)%string).
  set (m2 := (nl ++ "    " ++ dq ++ "calls" ++ dq ++ ": "
                 ++ show_u64 (calls e) ++ "," ++ m3)%string).
  set (m1 := (nl ++ "    " ++ dq ++ "name" ++ dq ++ ": " ++ dq ++ name e ++ dq
                 ++ "," ++ m2)%string).
  assert (String "010" (json_entry_text e ++ tail)
          = String "010" (String " " (String " " (String "{" m1)))) as ->.
  { unfold json_entry_text, m1, m2, m3, m4, close.
    destruct (0 <? total_bytes e)%Z; rewrite ?string_app_assoc; reflexivity. }
  assert (ends_number m4 = true) as Hm4
    by (unfold m4; destruct (0 <? total_bytes e)%Z; reflexivity).
  assert (parse_members (3 + f) m3
          = Some ([("total_seconds"%string, JNumber (show_fixed6 (total_seconds e)))]
                  ++ (if (0 <? total_bytes e)%Z
                      then [("total_bytes"%string, JNumber (show_u64 (total_bytes e)))]
                      else []), tail)) as H3.
  { unfold m4 in *. destruct (0 <? total_bytes e)%Z.
    - eapply (parse_members_more _ _ "total_seconds"); [reflexivity|done| | |].
      + by apply parse_number_show_fixed6.
      + reflexivity.
      + eapply (parse_members_last _ _ "total_bytes"); [reflexivity|done| |].
        * by apply (parse_number_show_u64 _ _ close).
        * reflexivity.
    - eapply (parse_members_last _ _ "total_seconds"); [reflexivity|done| |].
      + by apply parse_number_show_fixed6.
      + reflexivity. }
  assert (parse_members (4 + f) m2
          = Some (("calls"%string, JNumber (show_u64 (calls e)))
                    :: [("total_seconds"%string, JNumber (show_fixed6 (total_seconds e)))]
                    ++ (if (0 <? total_bytes e)%Z
                        then [("total_bytes"%string, JNumber (show_u64 (total_bytes e)))]
                        else []), tail)) as H2.
  { eapply (parse_members_more _ _ "calls"); [reflexivity|done| | |exact H3].
    - by apply (parse_number_show_u64 _ _ (String "," m3)).
    - reflexivity. }
  assert (parse_members (5 + f) m1
          = Some (("name"%string, JString (name e))
                    :: ("calls"%string, JNumber (show_u64 (calls e)))
                    :: [("total_seconds"%string, JNumber (show_fixed6 (total_seconds e)))]
                    ++ (if (0 <? total_bytes e)%Z
                        then [("total_bytes"%string, JNumber (show_u64 (total_bytes e)))]
                        else []), tail)) as H1.
  { eapply (parse_members_more _ _ "name"); [reflexivity|done| | |exact H2].
    - by apply (parse_value_string _ (name e) (String "," m2)).
    - reflexivity. }
  change (6 + f)%nat with (S (5 + f)). cbn [parse_value].
  rewrite (skip_ws_ws "010"), (skip_ws_ws " "), (skip_ws_ws " ") by done.
  rewrite skip_ws_stop by done.
  change (Ascii.eqb "{" "{") with true. cbv iota.
  assert (skip_ws m1 = String "034" ("name" ++ String "034"
            (String ":" (String " " (String "034" (name e ++ String "034" (String "," m2)))))))
    as -> by reflexivity.
  change (Ascii.eqb "034" "}") with false. cbv iota.
  by rewrite H1.
Qed.

Lemma json_entry_text_length e : (3 ≤ String.length (json_entry_text e))%nat.
Proof.
  unfold json_entry_text. rewrite string_length_app. simpl. lia.
Qed.

Lemma json_rows_length es : (3 * length es ≤ String.length (json_rows es))%nat.
Proof.
  induction es as [|e es IH]; [done|].
  cbn [json_rows length]. rewrite string_length_app.
  pose proof (json_entry_text_length e). rewrite !string_length_app. lia.
Qed.

Lemma parse_rows f es tail :
  es ≠ [] → Forall json_safe es →
  parse_elements (length es + 7 + f) (String "010" (json_rows es ++ String "]" tail))
  = Some (map json_object es, tail).
Proof.
  intros Hne Hsafe. induction Hsafe as [|e es He Hes IH]; [done|]. clear Hne.
  cbn [json_rows length map].
  replace (S (length es) + 7 + f)%nat with (S (6 + (length es + 1 + f))) by lia.
  cbn [parse_elements]. rewrite !string_app_assoc.
  rewrite (parse_object _ e _ He).
  destruct es as [|e' es].
  - change (skip_ws _) with (String "]" tail).
    change (Ascii.eqb "]" ",") with false. by change (Ascii.eqb "]" "]") with true.
  - rewrite string_app_cons, string_app_nil_l. rewrite skip_ws_stop by done.
    change (Ascii.eqb "," ",") with true. cbv iota.
    replace (6 + (length (e' :: es) + 1 + f))%nat
      with (length (e' :: es) + 7 + f)%nat by lia.
    change (nl ++ ?x)%string with (String "010" x).
    by rewrite IH.
Qed.

(** On well-behaved entries the JSON branch writes one JSON array holding,
    in order, the object of each entry. *)
Lemma json_report_parses es :
  es ≠ [] → Forall json_safe es →
  json_parse (write_json es EmptyString) = Some (JArray (map json_object es)).
Proof.
  intros Hne Hsafe. rewrite write_json_text. unfold json_parse.
  set (text := ("[" ++ nl ++ json_rows es ++ "]" ++ nl)%string).
  assert (length es + 7 ≤ 2 * String.length text + 1)%nat as Hfuel.
  { unfold text. change ("[" ++ nl ++ ?x)%string with (String "[" (String "010" x)).
    cbn [String.length]. rewrite string_length_app.
    pose proof (json_rows_length es). destruct es; [done|]. simpl in *. lia. }
  replace (2 * String.length text + 2)%nat
    with (S (length es + 7 + (2 * String.length text + 1 - (length es + 7))))
    by lia.
  unfold text. change ("[" ++ nl ++ ?x)%string with (String "[" (String "010" x)).
  cbn [parse_value]. rewrite skip_ws_stop by done.
  change (Ascii.eqb "[" "{") with false. change (Ascii.eqb "[" "[") with true.
  cbv iota.
  assert (∃ x, skip_ws (String "010" (json_rows es ++ "]" ++ nl)) = String "{" x)
    as [x ->].
  { destruct es as [|e es]; [done|]. eexists. cbn [json_rows]. unfold json_entry_text.
    rewrite !string_app_assoc. reflexivity. }
  change (Ascii.eqb "{" "]") with false. cbv iota.
  change ("]" ++ nl)%string with (String "]" nl).
  rewrite parse_rows by done. reflexivity.
Qed.

(** The same, for the file that [dump_profile] leaves behind. *)
Lemma dump_profile_json_parses es stem env :
  es ≠ [] → Forall json_safe es →
  can_open env (stem ++ ".json")%string = true →
  ∃ env' text,
    dump_profile es (stem ++ ".json")%string env = Returned env'
    ∧ files env' !! (stem ++ ".json")%string = Some text
    ∧ json_parse text = Some (JArray (map json_object es)).
Proof.
  intros Hne Hsafe Hopen.
  destruct (dump_profile_writes es (stem ++ ".json")%string env Hne Hopen)
    as (env' & Hret & Hjson & _).
  exists env', (write_json es EmptyString).
  split; [done|]. split; [|by apply json_report_parses].
  rewrite Hjson by eauto. by rewrite lookup_insert_eq.
Qed.

(** ** The JSON report *)

(** C6. The JSON branch writes the name between quotes as it is.  For an
    entry whose name is [a], a double quote and [b], the text written to
    [out.json] is the one below, in which the string after [name] ends at
    the quote inside the name and is followed by [b]: no JSON text.  The
    same happens with a [total_seconds] that is infinite, printed as
    [inf].  With names that need no escaping the text is a JSON array of
    objects with the keys [name], [calls] and [total_seconds], and
    [total_bytes] too when it is not zero ([json_report_parses] has this
    for all such entries). *)
Theorem json_name_is_written_unescaped :
  let env := mkEnv ∅ (λ _, true) EmptyString EmptyString in
  let entry n := mkProfileEntry n 1 (Double.of_Z 2) 0 in
  let text :=
    ("[" ++ nl
     ++ "  {" ++ nl
     ++ "    " ++ dq ++ "name" ++ dq ++ ": " ++ dq ++ "a" ++ dq ++ "b" ++ dq ++ "," ++ nl
     ++ "    " ++ dq ++ "calls" ++ dq ++ ": 1," ++ nl
     ++ "    " ++ dq ++ "total_seconds" ++ dq ++ ": 2.000000" ++ nl
     ++ "  }" ++ nl
     ++ "]" ++ nl)%string in
  (∃ env', dump_profile [entry ("a" ++ dq ++ "b")%string] "out.json" env = Returned env'
            ∧ files env' !! "out.json" = Some text)
  ∧ json_parse text = None
  ∧ json_parse (write_json [mkProfileEntry "ab" 1 (S754_infinity false) 0] EmptyString)
    = None
  ∧ json_parse (write_json [entry "ab"; mkProfileEntry "io" 0 Double.zero 77] EmptyString)
    = Some (JArray
              [JObject [("name", JString "ab"); ("calls", JNumber "1");
                        ("total_seconds", JNumber "2.000000")];
               JObject [("name", JString "io"); ("calls", JNumber "0");
                        ("total_seconds", JNumber "0.000000");
                        ("total_bytes", JNumber "77")]]).
Proof.
  split; [eexists; split; vm_compute; reflexivity|].
  repeat split; vm_compute; reflexivity.
Qed.

(** * Further properties *)

(** ** Timers of one thread and of several *)

Lemma Profiler_eq (p q : Profiler) :
  entries_ p = entries_ q → thread_timers_ p = thread_timers_ q → p = q.
Proof. destruct p, q; simpl; congruence. Qed.

Lemma set_timers_set_timers tid t t' p :
  set_timers tid t (set_timers tid t' p) = set_timers tid t p.
Proof. unfold set_timers; simpl. by rewrite insert_insert_eq. Qed.

Lemma set_timers_commute tid tid' t t' p :
  tid ≠ tid' →
  set_timers tid t (set_timers tid' t' p) = set_timers tid' t' (set_timers tid t p).
Proof. intros. unfold set_timers; simpl. by rewrite insert_insert_ne. Qed.

Lemma set_timers_set_entries tid t r p :
  set_timers tid t (set_entries r p) = set_entries r (set_timers tid t p).
Proof. reflexivity. Qed.

Lemma start_start tid t0 t1 key p :
  start tid t1 key (start tid t0 key p) = start tid t1 key p.
Proof.
  unfold start. rewrite timers_of_set_timers, set_timers_set_timers.
  by rewrite insert_insert_eq.
Qed.

Lemma timers_of_start_ne tid tid' now key p :
  tid ≠ tid' → timers_of tid' (start tid now key p) = timers_of tid' p.
Proof. intros. unfold start. by rewrite timers_of_set_timers_ne. Qed.

Lemma timers_of_stop_ne tid tid' now key p :
  tid ≠ tid' → timers_of tid' (stop tid now key p) = timers_of tid' p.
Proof.
  intros. unfold stop. destruct (stop_local _ _ _) as [[el t']|]; [|done].
  by rewrite timers_of_set_entries, timers_of_set_timers_ne.
Qed.

Lemma stop_local_insert_ne now key key' st (t : Timers) :
  key ≠ key' →
  stop_local now key' (<[key := st]> t)
  = (λ r : double * Timers, (r.1, <[key := st]> r.2)) <$> stop_local now key' t.
Proof.
  intros. unfold stop_local. rewrite lookup_insert_ne by done.
  destruct (t !! key') as [st'|]; [|done].
  destruct (negb (active st')); [done|]. simpl.
  by rewrite insert_insert_ne.
Qed.

Lemma stop_commit_commute key key' el el' (r : Registry) :
  key ≠ key' →
  stop_commit key el (stop_commit key' el' r)
  = stop_commit key' el' (stop_commit key el r).
Proof.
  intros. unfold stop_commit, entry_at.
  rewrite !lookup_insert_ne by done. by rewrite insert_insert_ne.
Qed.

Lemma add_bytes_stop_commit_commute key key' bytes el (r : Registry) :
  add_bytes_commit key bytes (stop_commit key' el r)
  = stop_commit key' el (add_bytes_commit key bytes r).
Proof.
  unfold add_bytes_commit, stop_commit, entry_at.
  destruct (decide (key = key')) as [->|Hne].
  - rewrite !lookup_insert_eq, !insert_insert_eq. reflexivity.
  - rewrite !lookup_insert_ne by done. by rewrite insert_insert_ne.
Qed.

Lemma u64_add_l a b : u64 (u64 a + b) = u64 (a + b).
Proof. unfold u64. by rewrite Zplus_mod_idemp_l. Qed.

Lemma add_bytes_commit_commute key key' b b' (r : Registry) :
  add_bytes_commit key b (add_bytes_commit key' b' r)
  = add_bytes_commit key' b' (add_bytes_commit key b r).
Proof.
  unfold add_bytes_commit, entry_at.
  destruct (decide (key = key')) as [->|Hne].
  - rewrite !lookup_insert_eq, !insert_insert_eq. simpl.
    unfold add_total_bytes; simpl. rewrite !u64_add_l.
    do 2 f_equal. f_equal. lia.
  - rewrite !lookup_insert_ne by done. by rewrite insert_insert_ne.
Qed.

(** X1. [start] on a name whose timer is already running on the thread
    overwrites the stored time: only the latest [start] counts, and the
    [stop] that follows records one call, measured from it. *)
Theorem restart_measures_from_latest_start
    (tid : thread_id) (t0 t1 t2 : time_point) (key : string) (p : Profiler) :
  start tid t1 key (start tid t0 key p) = start tid t1 key p
  ∧ entries_ (stop tid t2 key (start tid t1 key (start tid t0 key p))) !! key
    = Some (mkProfileEntry key
              (u64 (calls (entry_at key (entries_ p)) + 1))
              (Double.add (total_seconds (entry_at key (entries_ p)))
                          (duration_seconds (t2 - t1)))
              (total_bytes (entry_at key (entries_ p)))).
Proof.
  split; [apply start_start|].
  rewrite start_start.
  rewrite (stop_active tid t1 t2 key) by apply timers_of_start.
  cbn [entries_ set_entries]. rewrite entries_start. apply stop_commit_lookup.
Qed.

(** X2. Timers belong to the thread that started them: a [start] on one
    thread does not make the name running on another, a [stop] issued on
    another thread with no running timer of its own changes nothing, and
    whatever the other thread stops, the first thread's timer keeps
    running. *)
Theorem timer_is_thread_local
    (tid tid' : thread_id) (t0 t1 : time_point) (key : string) (p : Profiler) :
  tid ≠ tid' →
  timer_active tid' key (start tid t0 key p) = timer_active tid' key p
  ∧ (timer_active tid' key p = false →
     stop tid' t1 key (start tid t0 key p) = start tid t0 key p)
  ∧ timer_active tid key (stop tid' t1 key (start tid t0 key p)) = true.
Proof.
  intros Hne. split; [|split].
  - unfold timer_active. by rewrite timers_of_start_ne.
  - intros Hoff. apply stop_inactive.
    unfold timer_active in *. by rewrite timers_of_start_ne.
  - unfold timer_active. rewrite timers_of_stop_ne by done.
    by rewrite timers_of_start.
Qed.

Lemma timer_is_thread_local_witness :
  0%nat ≠ 1%nat
  ∧ stop 1%nat 9 "solve" (start 0%nat 5 "solve" Profiler_init)
    = start 0%nat 5 "solve" Profiler_init
  ∧ timer_active 0%nat "solve"
      (stop 1%nat 9 "solve" (start 0%nat 5 "solve" Profiler_init)) = true.
Proof.
  assert (Hne : 0%nat ≠ 1%nat) by lia.
  pose proof (timer_is_thread_local 0%nat 1%nat 5 9 "solve" Profiler_init Hne)
    as (_ & Hnoop & Hon).
  split; [exact Hne|]. split; [apply Hnoop; reflexivity|exact Hon].
Defined.

Lemma stop_Some tid now key p el t' :
  stop_local now key (timers_of tid p) = Some (el, t') →
  stop tid now key p
  = set_entries (stop_commit key el (entries_ p)) (set_timers tid t' p).
Proof. intros H. unfold stop. by rewrite H. Qed.

Lemma stop_None tid now key p :
  stop_local now key (timers_of tid p) = None → stop tid now key p = p.
Proof. intros H. unfold stop. by rewrite H. Qed.

(** X3. A [start] and a [stop] that do not address the same timer (another
    thread, or another name on the same thread) can be issued in either
    order: the resulting state is the same. *)
Theorem start_stop_commute
    (tid tid' : thread_id) (t t' : time_point) (key key' : string) (p : Profiler) :
  tid ≠ tid' ∨ key ≠ key' →
  start tid t key (stop tid' t' key' p) = stop tid' t' key' (start tid t key p).
Proof.
  intros Hdiff.
  destruct (decide (tid = tid')) as [<-|Hne].
  - destruct Hdiff as [?|Hk]; [done|].
    assert (Hloc : stop_local t' key' (timers_of tid (start tid t key p))
                   = (λ r : double * Timers, (r.1, <[key := mkTimerState t true]> r.2))
                       <$> stop_local t' key' (timers_of tid p)).
    { unfold start at 1. rewrite timers_of_set_timers. by apply stop_local_insert_ne. }
    destruct (stop_local t' key' (timers_of tid p)) as [[el T]|] eqn:Hl.
    + rewrite (stop_Some _ _ _ _ _ _ Hl), (stop_Some _ _ _ _ _ _ Hloc).
      unfold start. rewrite timers_of_set_entries, timers_of_set_timers.
      rewrite set_timers_set_entries, !set_timers_set_timers. reflexivity.
    + by rewrite (stop_None _ _ _ _ Hl), (stop_None _ _ _ _ Hloc).
  - assert (Hloc : stop_local t' key' (timers_of tid' (start tid t key p))
                   = stop_local t' key' (timers_of tid' p))
      by (by rewrite timers_of_start_ne).
    destruct (stop_local t' key' (timers_of tid' p)) as [[el T]|] eqn:Hl.
    + rewrite (stop_Some _ _ _ _ _ _ Hl), (stop_Some _ _ _ _ _ _ Hloc).
      unfold start. rewrite timers_of_set_entries, timers_of_set_timers_ne by done.
      rewrite set_timers_set_entries, set_timers_commute by done. reflexivity.
    + by rewrite (stop_None _ _ _ _ Hl), (stop_None _ _ _ _ Hloc).
Qed.

Lemma start_stop_commute_witness :
  start 0%nat 7 "io" (stop 0%nat 9 "solve" (start 0%nat 5 "solve" Profiler_init))
  = stop 0%nat 9 "solve" (start 0%nat 7 "io" (start 0%nat 5 "solve" Profiler_init)).
Proof.
  apply (start_stop_commute 0%nat 0%nat 7 9 "io" "solve"). right. discriminate.
Defined.

Lemma stop_local_other_stop tid tid' now now' key key' p :
  key ≠ key' →
  stop_local now' key' (timers_of tid' (stop tid now key p))
  = match stop_local now key (timers_of tid p) with
    | Some (_, T) =>
        if decide (tid = tid')
        then (λ r : double * Timers,
                (r.1, <[key := mkTimerState
                                 (default 0 (start_time <$> timers_of tid p !! key))
                                 false]> r.2))
               <$> stop_local now' key' (timers_of tid' p)
        else stop_local now' key' (timers_of tid' p)
    | None => stop_local now' key' (timers_of tid' p)
    end.
Proof.
  intros Hk. unfold stop.
  destruct (stop_local now key (timers_of tid p)) as [[el T]|] eqn:Hl; [|done].
  rewrite timers_of_set_entries.
  destruct (decide (tid = tid')) as [<-|Hne].
  - rewrite timers_of_set_timers.
    unfold stop_local in Hl.
    destruct (timers_of tid p !! key) as [st|]; [|done].
    destruct (negb (active st)); [done|]. simplify_eq. simpl.
    by apply stop_local_insert_ne.
  - by rewrite timers_of_set_timers_ne.
Qed.

(** X4. Two [stop]s of different names can be issued in either order, on
    the same thread or on different ones: the resulting state is the
    same. *)
Theorem stops_of_distinct_names_commute
    (tid tid' : thread_id) (t t' : time_point) (key key' : string) (p : Profiler) :
  key ≠ key' →
  stop tid t key (stop tid' t' key' p) = stop tid' t' key' (stop tid t key p).
Proof.
  intros Hk.
  destruct (stop_local t key (timers_of tid p)) as [[el T]|] eqn:Hl;
    destruct (stop_local t' key' (timers_of tid' p)) as [[el' T']|] eqn:Hl'.
  - pose proof (stop_local_other_stop tid tid' t t' key key' p Hk) as H1.
    pose proof (stop_local_other_stop tid' tid t' t key' key p (not_eq_sym Hk)) as H2.
    rewrite Hl, Hl' in H1. rewrite Hl, Hl' in H2.
    destruct (decide (tid = tid')) as [<-|Hne].
    + rewrite decide_True in H2 by done. simpl in H1, H2.
      rewrite (stop_Some _ _ _ _ _ _ H1), (stop_Some _ _ _ _ _ _ H2). simpl.
      rewrite (stop_Some _ _ _ _ _ _ Hl), (stop_Some _ _ _ _ _ _ Hl').
      unfold set_entries, set_timers; cbn [entries_ thread_timers_].
      rewrite !insert_insert_eq.
      rewrite (stop_commit_commute key key') by done.
      f_equal. f_equal.
      unfold stop_local in Hl, Hl'.
      destruct (timers_of tid p !! key) as [st|]; [|done].
      destruct (timers_of tid p !! key') as [st'|]; [|done].
      destruct (negb (active st)); [done|]. destruct (negb (active st')); [done|].
      simplify_eq. simpl. by rewrite insert_insert_ne.
    + rewrite decide_False in H2 by done.
      rewrite (stop_Some _ _ _ _ _ _ H1), (stop_Some _ _ _ _ _ _ H2).
      rewrite (stop_Some _ _ _ _ _ _ Hl), (stop_Some _ _ _ _ _ _ Hl').
      unfold set_entries, set_timers; cbn [entries_ thread_timers_].
      rewrite (stop_commit_commute key key') by done.
      f_equal. by rewrite insert_insert_ne.
  - pose proof (stop_local_other_stop tid' tid t' t key' key p (not_eq_sym Hk)) as H2.
    rewrite Hl' in H2. rewrite Hl in H2.
    rewrite (stop_None _ _ _ _ Hl').
    rewrite (stop_Some _ _ _ _ _ _ Hl).
    symmetry. apply stop_None.
    pose proof (stop_local_other_stop tid tid' t t' key key' p Hk) as H1.
    rewrite Hl, Hl' in H1. destruct (decide (tid = tid')); simpl in H1;
      by rewrite <- (stop_Some _ _ _ _ _ _ Hl).
  - pose proof (stop_local_other_stop tid' tid t' t key' key p (not_eq_sym Hk)) as H2.
    rewrite Hl', Hl in H2.
    rewrite (stop_None _ _ _ _ Hl).
    apply stop_None.
    destruct (decide (tid' = tid)); simpl in H2; done.
  - by rewrite (stop_None _ _ _ _ Hl), (stop_None _ _ _ _ Hl'), (stop_None _ _ _ _ Hl).
Qed.

Lemma stops_of_distinct_names_commute_witness :
  stop 0%nat 9 "solve" (stop 1%nat 8 "io"
    (start 1%nat 6 "io" (start 0%nat 5 "solve" Profiler_init)))
  = stop 1%nat 8 "io" (stop 0%nat 9 "solve"
      (start 1%nat 6 "io" (start 0%nat 5 "solve" Profiler_init))).
Proof.
  apply (stops_of_distinct_names_commute 0%nat 1%nat 9 8 "solve" "io"). discriminate.
Defined.

(** X5. Byte accounting is independent of timing: [add_bytes] can change
    places with a [start], with a [stop] (of the same name or another) and
    with another [add_bytes], and the resulting state is the same. *)
Theorem add_bytes_commutes
    (key key' : string) (bytes bytes' : Z) (tid : thread_id) (now : time_point)
    (p : Profiler) :
  add_bytes key bytes (start tid now key' p) = start tid now key' (add_bytes key bytes p)
  ∧ add_bytes key bytes (stop tid now key' p) = stop tid now key' (add_bytes key bytes p)
  ∧ add_bytes key bytes (add_bytes key' bytes' p)
    = add_bytes key' bytes' (add_bytes key bytes p).
Proof.
  split; [reflexivity|]. split.
  - assert (Hloc : stop_local now key' (timers_of tid (add_bytes key bytes p))
                   = stop_local now key' (timers_of tid p)) by reflexivity.
    destruct (stop_local now key' (timers_of tid p)) as [[el T]|] eqn:Hl.
    + rewrite (stop_Some _ _ _ _ _ _ Hl), (stop_Some _ _ _ _ _ _ Hloc).
      unfold add_bytes, set_entries, set_timers; cbn [entries_ thread_timers_].
      by rewrite add_bytes_stop_commit_commute.
    + by rewrite (stop_None _ _ _ _ Hl), (stop_None _ _ _ _ Hloc).
  - unfold add_bytes, set_entries; cbn [entries_ thread_timers_].
    by rewrite add_bytes_commit_commute.
Qed.

Lemma add_bytes_all_snoc key bs b p :
  add_bytes_all key (bs ++ [b]) p = add_bytes key b (add_bytes_all key bs p).
Proof. unfold add_bytes_all. by rewrite foldl_app. Qed.

Lemma sum_Z_snoc bs b : sum_Z (bs ++ [b]) = sum_Z bs + b.
Proof. unfold sum_Z. induction bs as [|a bs IH]; simpl; lia. Qed.

Lemma add_bytes_all_frame key bs p :
  thread_timers_ (add_bytes_all key bs p) = thread_timers_ p
  ∧ ∀ key', key ≠ key' → entries_ (add_bytes_all key bs p) !! key' = entries_ p !! key'.
Proof.
  induction bs as [|b bs IH] using rev_ind; [done|].
  rewrite add_bytes_all_snoc. destruct IH as [IH1 IH2]. split; [done|].
  intros key' Hne. unfold add_bytes, add_bytes_commit; cbn [entries_ set_entries].
  rewrite lookup_insert_ne by done. by apply IH2.
Qed.

(** X6. Byte counts reported for a name add up: after any non-empty series
    of [add_bytes] calls the entry holds the earlier total plus the sum of
    the counts, as a [uint64_t]; its calls and seconds, the other entries
    and all timers are as before. *)
Theorem add_bytes_accumulates (key : string) (bs : list Z) (p : Profiler) :
  bs ≠ [] →
  entries_ (add_bytes_all key bs p) !! key
  = Some (mkProfileEntry key
            (calls (entry_at key (entries_ p)))
            (total_seconds (entry_at key (entries_ p)))
            (u64 (total_bytes (entry_at key (entries_ p)) + sum_Z bs)))
  ∧ (∀ key', key ≠ key' →
       entries_ (add_bytes_all key bs p) !! key' = entries_ p !! key')
  ∧ thread_timers_ (add_bytes_all key bs p) = thread_timers_ p.
Proof.
  intros Hbs. split; [|split; apply add_bytes_all_frame].
  induction bs as [|b bs IH] using rev_ind; [done|].
  rewrite add_bytes_all_snoc, sum_Z_snoc.
  unfold add_bytes; cbn [entries_ set_entries].
  rewrite add_bytes_commit_lookup.
  destruct bs as [|b0 bs'].
  - simpl. by rewrite Z.add_0_l.
  - unfold entry_at at 1 2 3. rewrite IH by done. cbn [from_option id calls total_seconds total_bytes].
    rewrite u64_add_l. by rewrite Z.add_assoc.
Qed.

Lemma add_bytes_accumulates_witness :
  entries_ (add_bytes_all "io_read" [4096; 512; 0] Profiler_init) !! "io_read"
  = Some (mkProfileEntry "io_read" 0 Double.zero 4608).
Proof.
  assert (H : [4096; 512; 0] ≠ ([] : list Z)) by discriminate.
  exact (proj1 (add_bytes_accumulates "io_read" [4096; 512; 0] Profiler_init H)).
Defined.

(** ** What the registry always satisfies *)

Lemma u64_is_u64 z : is_u64 (u64 z).
Proof. unfold is_u64, u64, u64_mod. apply Z.mod_pos_bound. lia. Qed.

Lemma registry_ok_entry_at key (r : Registry) :
  registry_ok r →
  is_u64 (calls (entry_at key r)) ∧ is_u64 (total_bytes (entry_at key r))
  ∧ Double.nonneg (total_seconds (entry_at key r)) = true.
Proof.
  intros Hr. unfold entry_at. destruct (r !! key) as [e|] eqn:He.
  - destruct (Hr _ _ He) as (_ & ? & ? & ?). done.
  - simpl. unfold is_u64, u64_mod. split_and!; try done; lia.
Qed.

Lemma reachable_registry_ok p : reachable p → registry_ok (entries_ p).
Proof.
  intros Hp. pose proof (reachable_nonneg p Hp) as Hnn.
  induction Hp as [|tid now key p Hp IH|tid now key p Hp IH Hclock|key bytes p Hp IH|p Hp IH].
  - intros key e He. cbn in He. by rewrite lookup_empty in He.
  - exact (IH (reachable_nonneg _ Hp)).
  - specialize (IH (reachable_nonneg _ Hp)).
    intros k e He.
    destruct (stop_local now key (timers_of tid p)) as [[el T]|] eqn:Hl.
    + rewrite (stop_Some _ _ _ _ _ _ Hl) in He, Hnn. cbn [entries_ set_entries] in He, Hnn.
      destruct (decide (key = k)) as [<-|Hne].
      * pose proof (Hnn _ _ He) as Hpos.
        rewrite stop_commit_lookup in He. simplify_eq.
        destruct (registry_ok_entry_at key _ IH) as (? & ? & ?).
        unfold entry_ok; cbn [name calls total_bytes total_seconds].
        split_and!; try done; apply u64_is_u64.
      * rewrite stop_commit_lookup_ne in He by done. by apply IH.
    + rewrite (stop_None _ _ _ _ Hl) in He. by apply IH.
  - specialize (IH (reachable_nonneg _ Hp)).
    intros k e He. unfold add_bytes in He; cbn [entries_ set_entries] in He.
    destruct (decide (key = k)) as [<-|Hne].
    + rewrite add_bytes_commit_lookup in He. simplify_eq.
      destruct (registry_ok_entry_at key _ IH) as (? & ? & ?).
      unfold entry_ok; cbn [name calls total_bytes total_seconds].
      split_and!; try done; apply u64_is_u64.
    + unfold add_bytes_commit in He. rewrite lookup_insert_ne in He by done. by apply IH.
  - intros key e He. cbn in He. by rewrite lookup_empty in He.
Qed.

(** X7. Whatever sequence of [start], [stop], [add_bytes] and [clear]
    led to it, under a clock that does not go backwards, every entry stored
    in the registry carries the key it is stored under as its name, its
    counters are [uint64_t] values, and its total time is not negative and
    not a NaN. *)
Theorem registry_entries_are_well_formed (p : Profiler) (key : string) (e : ProfileEntry) :
  reachable p →
  entries_ p !! key = Some e →
  name e = key
  ∧ is_u64 (calls e) ∧ is_u64 (total_bytes e)
  ∧ Double.nonneg (total_seconds e) = true
  ∧ Double.is_nan (total_seconds e) = false.
Proof.
  intros Hp He. destruct (reachable_registry_ok p Hp key e He) as (? & ? & ? & ?).
  split_and!; try done. by apply nonneg_not_nan.
Qed.

Lemma registry_entries_are_well_formed_witness :
  let p := add_bytes "solve" 9
             (stop 0%nat 50 "solve" (start 0%nat 20 "solve" Profiler_init)) in
  let e := mkProfileEntry "solve" 1 (Double.add Double.zero (duration_seconds 30)) 9 in
  reachable p
  ∧ entries_ p !! "solve" = Some e
  ∧ name e = "solve"
  ∧ Double.is_nan (total_seconds e) = false.
Proof.
  intros p e.
  assert (Hp : reachable p).
  { apply reachable_add_bytes, reachable_stop; [apply reachable_start, reachable_init|].
    intros st Hst. vm_compute in Hst. injection Hst as <-. simpl. lia. }
  assert (He : entries_ p !! "solve" = Some e) by (vm_compute; reflexivity).
  pose proof (registry_entries_are_well_formed p "solve" e Hp He) as (Hn & _ & _ & _ & Hnan).
  split; [exact Hp|]. split; [exact He|]. split; [exact Hn|exact Hnan].
Defined.

Lemma fmap_name_pairs (l : list (string * ProfileEntry)) :
  Forall (λ kv, name kv.2 = kv.1) l → name <$> l.*2 = l.*1.
Proof.
  induction 1 as [|[k e] l Hk _ IH]; [done|]. csimpl. simpl in Hk. by rewrite Hk, IH.
Qed.

Lemma registry_ok_names (r : Registry) :
  registry_ok r → name <$> (map_to_list r).*2 = (map_to_list r).*1.
Proof.
  intros Hr. apply fmap_name_pairs. apply Forall_forall. intros [k e] Hin.
  apply elem_of_map_to_list in Hin. simpl. by destruct (Hr k e Hin).
Qed.

(** X8. [entries] hands back exactly one entry for each name recorded since
    the last [clear]: as many entries as the registry has names, no name
    twice, and a name is among them exactly when the registry has it. *)
Theorem entries_one_per_name (p : Profiler) :
  reachable p →
  length (entries p).1 = size (entries_ p)
  ∧ NoDup (name <$> (entries p).1)
  ∧ (∀ key, key ∈ name <$> (entries p).1 ↔ is_Some (entries_ p !! key)).
Proof.
  intros Hp. pose proof (reachable_registry_ok p Hp) as Hok.
  assert (Hperm : (entries p).1 ≡ₚ (map_to_list (entries_ p)).*2).
  { unfold entries, std_sort; cbn [fst].
    rewrite merge_sort_Permutation. by rewrite collect_entries_values. }
  assert (Hnames : name <$> (entries p).1 ≡ₚ (map_to_list (entries_ p)).*1).
  { rewrite Hperm. by rewrite registry_ok_names. }
  split; [|split].
  - rewrite Hperm, length_fmap. apply length_map_to_list.
  - rewrite Hnames. apply NoDup_fst_map_to_list.
  - intros key. rewrite Hnames. rewrite list_elem_of_fmap. split.
    + intros ([k e] & -> & Hin). apply elem_of_map_to_list in Hin. by exists e.
    + intros [e He]. exists (key, e). split; [done|]. by apply elem_of_map_to_list.
Qed.

Lemma entries_one_per_name_witness :
  let p := add_bytes "io" 9
             (stop 0%nat 50 "solve" (start 0%nat 20 "solve"
                (stop 0%nat 15 "solve" (start 0%nat 10 "solve" Profiler_init)))) in
  reachable p
  ∧ length (entries p).1 = 2%nat
  ∧ NoDup (name <$> (entries p).1).
Proof.
  intros p.
  assert (Hp : reachable p).
  { apply reachable_add_bytes, reachable_stop;
      [apply reachable_start, reachable_stop; [apply reachable_start, reachable_init|]|];
      intros st Hst; vm_compute in Hst; injection Hst as <-; simpl; lia. }
  pose proof (entries_one_per_name p Hp) as (Hlen & Hnd & _).
  split; [exact Hp|]. split; [|exact Hnd].
  rewrite Hlen. vm_compute. reflexivity.
Defined.

Lemma stop_entries_cases tid now key p :
  entries_ (stop tid now key p) = entries_ p
  ∨ ∃ el, entries_ (stop tid now key p) = stop_commit key el (entries_ p).
Proof.
  destruct (stop_local now key (timers_of tid p)) as [[el T]|] eqn:Hl.
  - right. exists el. by rewrite (stop_Some _ _ _ _ _ _ Hl).
  - left. by rewrite (stop_None _ _ _ _ Hl).
Qed.

Lemma timers_of_stop_same tid now key p :
  timers_of tid (stop tid now key p) = timers_of tid p
  ∨ ∃ st, timers_of tid p !! key = Some st
          ∧ timers_of tid (stop tid now key p)
            = <[key := mkTimerState (start_time st) false]> (timers_of tid p).
Proof.
  unfold stop, stop_local.
  destruct (timers_of tid p !! key) as [st|] eqn:Hst; [|by left].
  destruct (negb (active st)); [by left|].
  right. exists st. split; [done|].
  by rewrite timers_of_set_entries, timers_of_set_timers.
Qed.

(** X9. [start] and [stop] keep to their own timer and entry.  [start]
    leaves the registry alone; [stop] leaves the entries of all other names
    alone and, in the entry of its own name, the byte count; both leave
    every timer of another thread or of another name as it was; and [stop]
    never removes a timer record or changes the time stored in it. *)
Theorem start_and_stop_keep_to_their_own
    (tid : thread_id) (now : time_point) (key : string) (p : Profiler) :
  entries_ (start tid now key p) = entries_ p
  ∧ (∀ tid' key', tid' ≠ tid ∨ key' ≠ key →
       timers_of tid' (start tid now key p) !! key' = timers_of tid' p !! key')
  ∧ (∀ key', key' ≠ key →
       entries_ (stop tid now key p) !! key' = entries_ p !! key')
  ∧ total_bytes (entry_at key (entries_ (stop tid now key p)))
    = total_bytes (entry_at key (entries_ p))
  ∧ (∀ tid' key', tid' ≠ tid ∨ key' ≠ key →
       timers_of tid' (stop tid now key p) !! key' = timers_of tid' p !! key')
  ∧ (∀ st, timers_of tid p !! key = Some st →
       ∃ st', timers_of tid (stop tid now key p) !! key = Some st'
              ∧ start_time st' = start_time st).
Proof.
  split; [apply entries_start|]. split; [|split; [|split; [|split]]].
  - intros tid' key' Hdiff. destruct (decide (tid' = tid)) as [->|Hne].
    + destruct Hdiff as [?|Hk]; [done|].
      unfold start. by rewrite timers_of_set_timers, lookup_insert_ne.
    + by rewrite timers_of_start_ne.
  - intros key' Hk. destruct (stop_entries_cases tid now key p) as [->|[el ->]]; [done|].
    by apply stop_commit_lookup_ne.
  - destruct (stop_entries_cases tid now key p) as [->|[el ->]]; [done|].
    by rewrite entry_at_stop_commit.
  - intros tid' key' Hdiff. destruct (decide (tid' = tid)) as [->|Hne].
    + destruct Hdiff as [?|Hk]; [done|].
      destruct (timers_of_stop_same tid now key p) as [->|(st & _ & ->)]; [done|].
      by rewrite lookup_insert_ne.
    + by rewrite timers_of_stop_ne.
  - intros st Hst.
    destruct (timers_of_stop_same tid now key p) as [->|(st2 & Hst2 & ->)].
    + by exists st.
    + rewrite lookup_insert_eq. eexists. split; [done|]. simpl. congruence.
Qed.

(** ** [ScopedTimer] *)

Lemma stop_active_lookup tid t0 t1 key p :
  timers_of tid p !! key = Some (mkTimerState t0 true) →
  entries_ (stop tid t1 key p) = stop_commit key (duration_seconds (t1 - t0)) (entries_ p)
  ∧ timers_of tid (stop tid t1 key p) = <[key := mkTimerState t0 false]> (timers_of tid p).
Proof.
  intros H. rewrite (stop_active tid t0 t1 key p H). split; [reflexivity|].
  by rewrite timers_of_set_entries, timers_of_set_timers.
Qed.

(** X10. A block guarded by a [ScopedTimer] passes on what its body returned
    or threw and leaves the timer of its name stopped, whatever the body
    did.  When the body has left that timer as the constructor set it, the
    block has recorded exactly one call for the name, lasting from the
    constructor to the destructor, on top of what the body left in the
    registry; the other names are as the body left them. *)
Theorem with_ScopedTimer_records_one_call
    {A : Type} (tid : thread_id) (n : string) (t_in t_out : time_point)
    (body : Block A) (p : Profiler) :
  let b := body (start tid t_in n p) in
  let r := with_ScopedTimer tid n t_in t_out body p in
  r.1 = b.1
  ∧ timer_active tid n r.2 = false
  ∧ (timers_of tid b.2 !! n = Some (mkTimerState t_in true) →
     entries_ r.2 !! n
     = Some (mkProfileEntry n
               (u64 (calls (entry_at n (entries_ b.2)) + 1))
               (Double.add (total_seconds (entry_at n (entries_ b.2)))
                           (duration_seconds (t_out - t_in)))
               (total_bytes (entry_at n (entries_ b.2))))
     ∧ ∀ n', n ≠ n' → entries_ r.2 !! n' = entries_ b.2 !! n').
Proof.
  intros b r. subst b r. unfold with_ScopedTimer, ScopedTimer_ctor, ScopedTimer_dtor.
  cbn [fst snd]. split; [reflexivity|]. split; [apply timer_active_stop|].
  intros Hkept. destruct (stop_active_lookup tid t_in t_out n _ Hkept) as [-> _].
  split; [apply stop_commit_lookup|].
  intros n' Hne. by apply stop_commit_lookup_ne.
Qed.

Lemma with_ScopedTimer_records_one_call_witness :
  let body : Block nat := λ p, (Thrown "bad input", add_bytes "load" 64 p) in
  let r := with_ScopedTimer 0%nat "load" 100 2000000100 body Profiler_init in
  r.1 = Thrown "bad input"
  ∧ timer_active 0%nat "load" r.2 = false
  ∧ entries_ r.2 !! "load"
    = Some (mkProfileEntry "load" 1 (Double.add Double.zero (duration_seconds 2000000000)) 64).
Proof.
  intros body r.
  pose proof (with_ScopedTimer_records_one_call 0%nat "load" 100 2000000100 body
                Profiler_init) as (H1 & H2 & H3).
  split; [exact H1|]. split; [exact H2|].
  apply H3. reflexivity.
Defined.

(** X11. Declaring a second [ScopedTimer] of the same name inside the
    first, on the same thread, makes the outer one count for nothing: the
    inner constructor overwrites the start time, the inner destructor
    stops the timer, and the outer destructor finds it stopped.  What is
    recorded is what the inner block alone records. *)
Theorem nested_ScopedTimer_same_name
    {A : Type} (tid : thread_id) (n : string) (t0 t1 t2 t3 : time_point)
    (body : Block A) (p : Profiler) :
  with_ScopedTimer tid n t0 t3 (with_ScopedTimer tid n t1 t2 body) p
  = with_ScopedTimer tid n t1 t2 body p.
Proof.
  unfold with_ScopedTimer, ScopedTimer_ctor, ScopedTimer_dtor. cbn [fst snd].
  rewrite start_start. f_equal. apply double_stop_is_noop.
Qed.

(** X12. [ScopedTimer]s of different names nest: when the body leaves the
    thread's timers alone, the inner block records one call of its name
    from its constructor to its destructor, and the outer block one call of
    its own name from its own constructor to its own destructor. *)
Theorem nested_ScopedTimers_distinct_names
    {A : Type} (tid : thread_id) (n1 n2 : string) (t0 t1 t2 t3 : time_point)
    (body : Block A) (p : Profiler) :
  let p2 := start tid t1 n2 (start tid t0 n1 p) in
  let b := body p2 in
  let r := with_ScopedTimer tid n1 t0 t3 (with_ScopedTimer tid n2 t1 t2 body) p in
  n1 ≠ n2 →
  timers_of tid b.2 = timers_of tid p2 →
  r.1 = b.1
  ∧ entries_ r.2 !! n2
    = Some (mkProfileEntry n2
              (u64 (calls (entry_at n2 (entries_ b.2)) + 1))
              (Double.add (total_seconds (entry_at n2 (entries_ b.2)))
                          (duration_seconds (t2 - t1)))
              (total_bytes (entry_at n2 (entries_ b.2))))
  ∧ entries_ r.2 !! n1
    = Some (mkProfileEntry n1
              (u64 (calls (entry_at n1 (entries_ b.2)) + 1))
              (Double.add (total_seconds (entry_at n1 (entries_ b.2)))
                          (duration_seconds (t3 - t0)))
              (total_bytes (entry_at n1 (entries_ b.2)))).
Proof.
  intros p2 b r Hne Hkept. subst r.
  unfold with_ScopedTimer, ScopedTimer_ctor, ScopedTimer_dtor. cbn [fst snd].
  fold p2. fold b.
  assert (H2 : timers_of tid b.2 !! n2 = Some (mkTimerState t1 true)).
  { rewrite Hkept. apply timers_of_start. }
  destruct (stop_active_lookup tid t1 t2 n2 _ H2) as [He2 Ht2].
  assert (H1 : timers_of tid (stop tid t2 n2 b.2) !! n1 = Some (mkTimerState t0 true)).
  { rewrite Ht2, lookup_insert_ne by done. rewrite Hkept. unfold p2.
    unfold start at 1. rewrite timers_of_set_timers, lookup_insert_ne by done.
    apply timers_of_start. }
  destruct (stop_active_lookup tid t0 t3 n1 _ H1) as [He1 _].
  split; [reflexivity|]. rewrite He1, He2. split.
  - rewrite stop_commit_lookup_ne by done. apply stop_commit_lookup.
  - rewrite stop_commit_lookup. unfold entry_at at 1 2 3.
    rewrite stop_commit_lookup_ne by done. reflexivity.
Qed.

Lemma nested_ScopedTimers_distinct_names_witness :
  let body : Block unit := λ p, (Returned tt, p) in
  let r := with_ScopedTimer 0%nat "solve" 10 90
             (with_ScopedTimer 0%nat "factor" 20 50 body) Profiler_init in
  "solve" ≠ "factor"
  ∧ entries_ r.2 !! "factor"
    = Some (mkProfileEntry "factor" 1 (Double.add Double.zero (duration_seconds 30)) 0)
  ∧ entries_ r.2 !! "solve"
    = Some (mkProfileEntry "solve" 1 (Double.add Double.zero (duration_seconds 80)) 0).
Proof.
  intros body r.
  assert (Hne : "solve" ≠ "factor") by discriminate.
  pose proof (nested_ScopedTimers_distinct_names 0%nat "solve" "factor" 10 20 50 90
                body Profiler_init Hne eq_refl) as (_ & H2 & H1).
  split; [exact Hne|]. split; [exact H2|exact H1].
Defined.

(** ** Threads with any calls *)

Lemma launch_lock_ok r progs : lock_ok (launch r progs).
Proof.
  split.
  - intros i th Hi Hcs. unfold launch in Hi; cbn [m_threads] in Hi.
    rewrite list_lookup_fmap in Hi.
    destruct (progs !! i); simplify_eq/=. destruct Hcs.
  - intros i Hi. discriminate.
Qed.

Lemma launch_owed r progs :
  concat (owed <$> m_threads (launch r progs)) = concat (owed_from ∅ <$> progs).
Proof.
  unfold launch; cbn [m_threads]. rewrite <- list_fmap_compose. reflexivity.
Qed.

Lemma replay_cons r u log : replay r (u :: log) = replay (update_apply u r) log.
Proof. reflexivity. Qed.

Lemma run_ops_cons tid o ops p :
  run_ops tid (o :: ops) p = run_ops tid ops (run_op tid o p).
Proof. reflexivity. Qed.

Lemma run_ops_replay tid ops p :
  entries_ (run_ops tid ops p) = replay (entries_ p) (owed_from (timers_of tid p) ops).
Proof.
  revert p. induction ops as [|[now key|now key|key bytes] ops IH]; intros p; [done|..];
    rewrite run_ops_cons; cbn [owed_from run_op].
  - rewrite IH. unfold start at 2. by rewrite timers_of_set_timers, entries_start.
  - destruct (stop_local now key (timers_of tid p)) as [[el T]|] eqn:Hl.
    + rewrite IH, (stop_Some _ _ _ _ _ _ Hl), timers_of_set_entries, timers_of_set_timers.
      reflexivity.
    + by rewrite IH, (stop_None _ _ _ _ Hl).
  - rewrite IH. reflexivity.
Qed.

Lemma sum_Z_app l l' : sum_Z (l ++ l') = sum_Z l + sum_Z l'.
Proof. unfold sum_Z. induction l as [|a l IH]; simpl; lia. Qed.

Lemma sum_Z_perm l l' : l ≡ₚ l' → sum_Z l = sum_Z l'.
Proof. unfold sum_Z. induction 1; simpl; lia. Qed.

Lemma sum_Z_concat {A : Type} (f : A → Z) (ls : list (list A)) :
  sum_Z (f <$> concat ls) = sum_Z ((λ l, sum_Z (f <$> l)) <$> ls).
Proof.
  induction ls as [|l ls IH]; [done|]. csimpl. rewrite fmap_app, sum_Z_app, IH.
  reflexivity.
Qed.

Lemma u64_small z : is_u64 z → u64 z = z.
Proof. intros H. unfold u64. apply Z.mod_small. exact H. Qed.

Lemma u64_add_r a b : u64 (a + u64 b) = u64 (a + b).
Proof. unfold u64. by rewrite Zplus_mod_idemp_r. Qed.

Lemma u64_sum_wrapped {A : Type} (f : A → Z) (l : list A) c :
  u64 (c + sum_Z ((λ x, u64 (f x)) <$> l)) = u64 (c + sum_Z (f <$> l)).
Proof.
  revert c. induction l as [|x l IH]; intros c; [done|]. csimpl.
  change (sum_Z ?h) with (foldr Z.add 0 h) in *. simpl.
  change (foldr Z.add 0 ?h) with (sum_Z h).
  replace (c + (u64 (f x) + sum_Z ((λ x, u64 (f x)) <$> l)))
    with ((c + u64 (f x)) + sum_Z ((λ x, u64 (f x)) <$> l)) by lia.
  rewrite IH.
  replace (c + u64 (f x) + sum_Z (f <$> l)) with ((c + sum_Z (f <$> l)) + u64 (f x)) by lia.
  rewrite u64_add_r. f_equal. lia.
Qed.

Lemma update_apply_counts key u (r : Registry) :
  calls (entry_at key (update_apply u r))
  = (if decide (update_calls key u = 0) then calls (entry_at key r)
     else u64 (calls (entry_at key r) + update_calls key u))
  ∧ total_bytes (entry_at key (update_apply u r))
    = (if decide (update_key u = key)
       then match u with
            | UpdStop _ _ => total_bytes (entry_at key r)
            | UpdBytes _ b => u64 (total_bytes (entry_at key r) + b)
            end
       else total_bytes (entry_at key r)).
Proof.
  destruct u as [k el|k b]; cbn [update_apply update_calls update_key].
  - destruct (decide (k = key)) as [->|Hne].
    + rewrite entry_at_stop_commit. simpl. done.
    + simpl. unfold entry_at. by rewrite stop_commit_lookup_ne.
  - simpl. destruct (decide (k = key)) as [->|Hne].
    + unfold entry_at at 1 3. rewrite add_bytes_commit_lookup. simpl. done.
    + unfold entry_at, add_bytes_commit. by rewrite lookup_insert_ne.
Qed.

Lemma replay_counts key log (r : Registry) :
  is_u64 (calls (entry_at key r)) → is_u64 (total_bytes (entry_at key r)) →
  calls (entry_at key (replay r log))
  = u64 (calls (entry_at key r) + sum_Z (update_calls key <$> log))
  ∧ total_bytes (entry_at key (replay r log))
    = u64 (total_bytes (entry_at key r) + sum_Z (update_bytes key <$> log)).
Proof.
  revert r. induction log as [|u log IH]; intros r Hc Hb.
  - simpl. rewrite !Z.add_0_r. by rewrite !u64_small.
  - rewrite replay_cons. destruct (update_apply_counts key u r) as [Ec Eb].
    assert (Hc' : is_u64 (calls (entry_at key (update_apply u r)))).
    { rewrite Ec. destruct (decide (update_calls key u = 0)); [exact Hc|apply u64_is_u64]. }
    assert (Hb' : is_u64 (total_bytes (entry_at key (update_apply u r)))).
    { rewrite Eb. destruct (decide (update_key u = key)); [|exact Hb].
      destruct u; [exact Hb|apply u64_is_u64]. }
    destruct (IH _ Hc' Hb') as [-> ->]. csimpl.
    change (sum_Z (?a :: ?l)) with (a + sum_Z l). split.
    + rewrite Ec. destruct (decide (update_calls key u = 0)) as [Hz|_].
      * by rewrite Hz, Z.add_0_l.
      * rewrite u64_add_l. f_equal. lia.
    + rewrite Eb. destruct u as [k el|k b]; cbn [update_key update_bytes].
      * destruct (decide (k = key)); by rewrite Z.add_0_l.
      * destruct (decide (k = key)).
        -- rewrite u64_add_l. f_equal. lia.
        -- by rewrite Z.add_0_l.
Qed.

Lemma alone_counts key prog :
  calls (entry_at key (alone prog)) = u64 (sum_Z (update_calls key <$> owed_from ∅ prog))
  ∧ total_bytes (entry_at key (alone prog))
    = u64 (sum_Z (update_bytes key <$> owed_from ∅ prog)).
Proof.
  unfold alone. rewrite run_ops_replay.
  change (timers_of 0%nat Profiler_init) with (∅ : Timers).
  change (entries_ Profiler_init) with (∅ : Registry).
  assert (H0 : is_u64 0) by (unfold is_u64, u64_mod; lia).
  destruct (replay_counts key (owed_from ∅ prog) ∅) as [-> ->]; try done.
  
Qed.

Lemma launch_linearized r progs m :
  rtc step (launch r progs) m → finished m →
  ∃ log, m_entries m = replay r log ∧ log ≡ₚ concat (owed_from ∅ <$> progs).
Proof.
  intros Hrun Hfin.
  destruct (finished_linearized (launch r progs) m eq_refl (launch_lock_ok r progs)
              Hrun Hfin) as (log & Hlog & Hperm).
  exists log. split; [exact Hlog|]. by rewrite <- launch_owed with (r := r).
Qed.

(** X13. Threads that make any calls at all ([start], [stop] and
    [add_bytes], in any number and for any names) leave, under every
    schedule, a registry that is the result of their guarded updates taken
    one after the other in some order.  For every name the final number of
    calls and the final byte count are the earlier ones plus the sum of
    what each thread records when it runs alone, as [uint64_t]: no call
    and no byte is lost or counted twice. *)
Theorem concurrent_calls_add_up
    (r : Registry) (progs : list (list Op)) (m : Machine) :
  rtc step (launch r progs) m →
  finished m →
  (∃ log, log ≡ₚ concat (owed_from ∅ <$> progs) ∧ m_entries m = replay r log)
  ∧ ∀ key,
      is_u64 (calls (entry_at key r)) → is_u64 (total_bytes (entry_at key r)) →
      calls (entry_at key (m_entries m))
      = u64 (calls (entry_at key r)
             + sum_Z ((λ prog, calls (entry_at key (alone prog))) <$> progs))
      ∧ total_bytes (entry_at key (m_entries m))
        = u64 (total_bytes (entry_at key r)
               + sum_Z ((λ prog, total_bytes (entry_at key (alone prog))) <$> progs)).
Proof.
  intros Hrun Hfin.
  destruct (launch_linearized r progs m Hrun Hfin) as (log & Hlog & Hperm).
  split; [by exists log|].
  intros key Hc Hb. rewrite Hlog.
  destruct (replay_counts key log r Hc Hb) as [-> ->].
  rewrite (sum_Z_perm (update_calls key <$> log)
             (update_calls key <$> concat (owed_from ∅ <$> progs)))
    by (by rewrite Hperm).
  rewrite (sum_Z_perm (update_bytes key <$> log)
             (update_bytes key <$> concat (owed_from ∅ <$> progs)))
    by (by rewrite Hperm).
  rewrite !sum_Z_concat, <- !list_fmap_compose.
  split.
  - rewrite (list_fmap_ext (λ prog, calls (entry_at key (alone prog)))
               (λ prog, u64 (sum_Z (update_calls key <$> owed_from ∅ prog))) progs)
      by (intros; apply alone_counts).
    symmetry. apply (u64_sum_wrapped (λ prog, sum_Z (update_calls key <$> owed_from ∅ prog))).
  - rewrite (list_fmap_ext (λ prog, total_bytes (entry_at key (alone prog)))
               (λ prog, u64 (sum_Z (update_bytes key <$> owed_from ∅ prog))) progs)
      by (intros; apply alone_counts).
    symmetry. apply (u64_sum_wrapped (λ prog, sum_Z (update_bytes key <$> owed_from ∅ prog))).
Qed.

Lemma concurrent_calls_add_up_witness :
  let progs := [[OpStart 10 "solve"; OpAddBytes "io" 100; OpStop 20 "solve"];
                [OpAddBytes "io" 28; OpStart 13 "solve"; OpStop 50 "solve";
                 OpStop 60 "solve"]] in
  let m := run_schedule (concat (replicate 40 [1; 0]%nat)) (launch ∅ progs) in
  finished m
  ∧ calls (entry_at "solve" (m_entries m)) = 2
  ∧ total_bytes (entry_at "io" (m_entries m)) = 128.
Proof.
  intros progs m.
  assert (Hfin : finished m).
  { vm_compute. repeat constructor. }
  assert (H0 : is_u64 0) by (unfold is_u64, u64_mod; lia).
  pose proof (concurrent_calls_add_up ∅ progs m (run_schedule_rtc _ _) Hfin) as [_ H].
  split; [exact Hfin|]. split.
  - destruct (H "solve" H0 H0) as [-> _]. vm_compute. reflexivity.
  - destruct (H "io" H0 H0) as [_ ->]. vm_compute. reflexivity.
Defined.

(** X14. The guarded blocks exclude each other: in every state that threads
    making any calls can reach, at most one thread is between taking the
    mutex and releasing it, and it is the thread recorded as the holder;
    when no thread is there, the mutex is free. *)
Theorem guarded_blocks_exclude_each_other
    (r : Registry) (progs : list (list Op)) (m : Machine) :
  rtc step (launch r progs) m →
  (∀ i j thi thj,
     m_threads m !! i = Some thi → m_threads m !! j = Some thj →
     in_cs thi → in_cs thj → i = j)
  ∧ (∀ i th, m_threads m !! i = Some th → in_cs th → m_mutex m = Some i)
  ∧ ((∀ i th, m_threads m !! i = Some th → ¬ in_cs th) → m_mutex m = None).
Proof.
  intros Hrun.
  destruct (reachable_ok (launch r progs) m eq_refl (launch_lock_ok r progs) Hrun)
    as [[Hin Hheld] _].
  split; [|split].
  - intros i j thi thj Hi Hj Hci Hcj.
    pose proof (Hin i thi Hi Hci) as Ei. pose proof (Hin j thj Hj Hcj) as Ej.
    congruence.
  - exact Hin.
  - intros Hnone. destruct (m_mutex m) as [i|] eqn:Hm; [|done].
    destruct (Hheld i eq_refl) as (th & Hth & Hcs). by destruct (Hnone i th Hth).
Qed.

Lemma guarded_blocks_exclude_each_other_witness :
  let progs := [[OpAddBytes "io" 100]; [OpAddBytes "io" 28]] in
  let m := run_schedule [0; 1; 0; 1; 0; 1]%nat (launch ∅ progs) in
  m_mutex m = Some 0%nat
  ∧ (∀ th, m_threads m !! 1%nat = Some th → ¬ in_cs th).
Proof.
  intros progs m.
  pose proof (guarded_blocks_exclude_each_other ∅ progs m (run_schedule_rtc _ _))
    as (Hexcl & Hholder & _).
  assert (H0 : ∃ th, m_threads m !! 0%nat = Some th ∧ in_cs th).
  { vm_compute. eexists. split; [reflexivity|exact I]. }
  destruct H0 as (th0 & Hth0 & Hcs0).
  split; [exact (Hholder _ _ Hth0 Hcs0)|].
  intros th Hth Hcs. pose proof (Hexcl _ _ _ _ Hth0 Hth Hcs0 Hcs). discriminate.
Defined.

Lemma nsteps_cost n m m' :
  nsteps step n m m' → (n + machine_cost m' ≤ machine_cost m)%nat.
Proof.
  induction 1 as [|n m1 m2 m3 Hstep _ IH]; [lia|].
  destruct (step_StepCase _ _ Hstep) as [i Hcase].
  pose proof (machine_cost_step _ _ _ Hcase). lia.
Qed.

Lemma launch_cost r progs :
  (machine_cost (launch r progs) ≤ 9 * length (concat progs))%nat.
Proof.
  unfold machine_cost, launch; cbn [m_threads]. rewrite <- list_fmap_compose.
  induction progs as [|prog progs IH]; [simpl; lia|].
  csimpl. rewrite length_app.
  assert (thread_cost (mkThread ∅ Idle prog) ≤ 9 * length prog)%nat.
  { unfold thread_cost; cbn [th_pc th_todo pc_cost].
    induction prog as [|[]] ; csimpl in *; lia. }
  unfold compose in *. lia.
Qed.

(** X15. Threads that make any calls never block each other for good and
    never run for ever: from every state they can reach, the run can be
    completed; a state in which no thread can take a step is one in which
    every thread has made all its calls; and no run takes more than nine
    steps per call. *)
Theorem calls_always_complete
    (r : Registry) (progs : list (list Op)) :
  (∀ m, rtc step (launch r progs) m → ∃ m', rtc step m m' ∧ finished m')
  ∧ (∀ m, rtc step (launch r progs) m → (∀ m', ¬ step m m') → finished m)
  ∧ (∀ n m, nsteps step n (launch r progs) m → (n ≤ 9 * length (concat progs))%nat).
Proof.
  split; [|split].
  - intros m Hrun. apply can_finish.
    by destruct (reachable_ok (launch r progs) m eq_refl (launch_lock_ok r progs) Hrun).
  - intros m Hrun Hstuck.
    destruct (reachable_ok (launch r progs) m eq_refl (launch_lock_ok r progs) Hrun)
      as [Hlock _].
    destruct (unfinished_thread (m_threads m)) as [Hfin|(i & th & Hi & Hnd)]; [done|].
    destruct (progress m Hlock) as [m' Hm'].
    + intros Hfin. apply Hnd. unfold finished in Hfin.
      rewrite Forall_lookup in Hfin. by apply (Hfin i).
    + by destruct (Hstuck m').
  - intros n m Hn. pose proof (nsteps_cost _ _ _ Hn). pose proof (launch_cost r progs). lia.
Qed.

(** ** Calls against starts and stops *)

Lemma count_ops_cons f o ops :
  count_ops f (o :: ops) = ((if f o then 1 else 0) + count_ops f ops)%nat.
Proof. unfold count_ops. simpl. by destruct (f o). Qed.

Lemma stop_local_Some_inv now key (t : Timers) el t' :
  stop_local now key t = Some (el, t') →
  ∃ st, t !! key = Some st ∧ active st = true
        ∧ t' = <[key := mkTimerState (start_time st) false]> t.
Proof.
  unfold stop_local. destruct (t !! key) as [st|]; [|done].
  destruct (active st) eqn:Hact; [|done]. simpl. intros [= <- <-]. by exists st.
Qed.

Lemma owed_calls_bounds key (t : Timers) ops :
  0 ≤ sum_Z (update_calls key <$> owed_from t ops)
  ∧ sum_Z (update_calls key <$> owed_from t ops)
    ≤ Z.of_nat (count_ops (is_start_of key) ops)
      + (match t !! key with Some st => if active st then 1 else 0 | None => 0 end)
  ∧ sum_Z (update_calls key <$> owed_from t ops)
    ≤ Z.of_nat (count_ops (is_stop_of key) ops).
Proof.
  revert t. induction ops as [|[now k|now k|k bytes] ops IH]; intros t.
  - simpl. unfold count_ops. simpl. destruct (t !! key) as [[? []]|]; simpl; lia.
  - cbn [owed_from]. rewrite !count_ops_cons. cbn [is_start_of is_stop_of].
    destruct (IH (<[k := mkTimerState now true]> t)) as (H0 & H1 & H2).
    split; [done|]. split; [|lia].
    destruct (decide (k = key)) as [->|Hne].
    + rewrite lookup_insert_eq in H1. simpl in H1. rewrite bool_decide_eq_true_2 by done.
      destruct (t !! key) as [[? []]|]; simpl; lia.
    + rewrite lookup_insert_ne in H1 by done. rewrite bool_decide_eq_false_2 by done. lia.
  - cbn [owed_from]. rewrite !count_ops_cons. cbn [is_start_of is_stop_of].
    destruct (stop_local now k t) as [[el t']|] eqn:Hl.
    + destruct (stop_local_Some_inv _ _ _ _ _ Hl) as (st & Hst & Hact & ->).
      destruct (IH (<[k := mkTimerState (start_time st) false]> t)) as (H0 & H1 & H2).
      csimpl. change (sum_Z (?a :: ?l)) with (a + sum_Z l). cbn [update_calls].
      destruct (decide (k = key)) as [->|Hne].
      * rewrite lookup_insert_eq in H1. simpl in H1. rewrite Hst, Hact.
        rewrite bool_decide_eq_true_2 by done. lia.
      * rewrite lookup_insert_ne in H1 by done. rewrite bool_decide_eq_false_2 by done.
        lia.
    + destruct (IH t) as (H0 & H1 & H2). destruct (bool_decide (k = key)); lia.
  - cbn [owed_from]. rewrite !count_ops_cons. cbn [is_start_of is_stop_of].
    destruct (IH t) as (H0 & H1 & H2).
    csimpl. change (sum_Z (?a :: ?l)) with (a + sum_Z l). cbn [update_calls]. lia.
Qed.

(** X16. Whatever calls a thread makes, starting from a profiler that has
    recorded nothing, the number of calls recorded for a name is never
    more than the number of [start]s of that name and never more than the
    number of its [stop]s: a [stop] without a running timer and a [start]
    that is started over or never stopped add nothing. *)
Theorem calls_never_exceed_starts_or_stops
    (tid : thread_id) (ops : list Op) (key : string) :
  let e := entry_at key (entries_ (run_ops tid ops Profiler_init)) in
  0 ≤ calls e
  ∧ calls e ≤ Z.of_nat (count_ops (is_start_of key) ops)
  ∧ calls e ≤ Z.of_nat (count_ops (is_stop_of key) ops).
Proof.
  intros e. subst e. rewrite run_ops_replay.
  assert (Ht : timers_of tid Profiler_init = ∅).
  { unfold timers_of, Profiler_init. cbn [thread_timers_]. by rewrite lookup_empty. }
  rewrite Ht. change (entries_ Profiler_init) with (∅ : Registry).
  assert (H0 : is_u64 0) by (unfold is_u64, u64_mod; lia).
  destruct (replay_counts key (owed_from ∅ ops) ∅) as [-> _]; [done|done|].
  change (calls (entry_at key ∅)) with 0. rewrite Z.add_0_l.
  destruct (owed_calls_bounds key ∅ ops) as (Hlo & Hstarts & Hstops).
  rewrite lookup_empty, Z.add_0_r in Hstarts.
  assert (Hmod : 0 ≤ u64 (sum_Z (update_calls key <$> owed_from ∅ ops))
                 ≤ sum_Z (update_calls key <$> owed_from ∅ ops)).
  { unfold u64, u64_mod. split.
    - apply Z.mod_pos_bound. lia.
    - apply Z.mod_le; lia. }
  lia.
Qed.

(** ** What a successful report leaves behind *)

Lemma dump_profile_success (es : list ProfileEntry) (filename : string) :
  es ≠ [] →
  ∃ text, ∀ env,
    can_open env filename = true →
    dump_profile es filename env
    = Returned (mkEnv (<[filename := text]> (files env)) (can_open env)
                  (cout env ++ "Profiling data written to: " ++ filename ++ nl)
                  (cerr env)).
Proof.
  intros Hne. destruct es as [|e es]; [done|].
  exists (if (String.length ".json" <=? String.length filename)%nat
             && bool_decide
                  (String.substring (String.length filename - String.length ".json")
                     (String.length ".json") filename = ".json"%string)
          then write_json (e :: es) EmptyString
          else write_csv (e :: es) EmptyString).
  intros env Hopen. unfold dump_profile, ofstream_open. rewrite Hopen.
  rewrite !ends_with_returns.
  cbn [mbind Outcome_bind mret Outcome_ret]. unfold ofstream_close, cout_write.
  cbn [files can_open cout cerr]. by rewrite insert_insert_eq.
Qed.

(** X17. When [dump_profile] writes a report (a non-empty vector and a
    path that can be opened) it says so on [std::cout], with the path, and
    writes nothing to [std::cerr]; the file at the path exists afterwards,
    and no other file is touched. *)
Theorem dump_profile_success_is_announced
    (es : list ProfileEntry) (filename : string) (env : Env) :
  es ≠ [] →
  can_open env filename = true →
  ∃ env',
    dump_profile es filename env = Returned env'
    ∧ cout env' = (cout env ++ "Profiling data written to: " ++ filename ++ nl)%string
    ∧ cerr env' = cerr env
    ∧ is_Some (files env' !! filename)
    ∧ ∀ other, other ≠ filename → files env' !! other = files env !! other.
Proof.
  intros Hne Hopen. destruct (dump_profile_success es filename Hne) as [text Htext].
  eexists. split; [by apply Htext|]. cbn [files cout cerr].
  split; [done|]. split; [done|]. split.
  - rewrite lookup_insert_eq. by eexists.
  - intros other Hother. by rewrite lookup_insert_ne.
Qed.

Lemma dump_profile_success_is_announced_witness :
  let es := [mkProfileEntry "solve" 4 (Double.of_Z 2) 0] in
  let env := mkEnv {[ "notes.txt" := "kept" ]} (λ _, true) "started. " EmptyString in
  ∃ env',
    dump_profile es "genie_profile.csv" env = Returned env'
    ∧ cout env' = ("started. Profiling data written to: genie_profile.csv" ++ nl)%string
    ∧ cerr env' = EmptyString
    ∧ files env' !! "notes.txt" = Some "kept"%string.
Proof.
  intros es env.
  assert (Hne : es ≠ []) by discriminate.
  destruct (dump_profile_success_is_announced es "genie_profile.csv" env Hne eq_refl)
    as (env' & H1 & H2 & H3 & _ & H5).
  exists env'. split; [exact H1|]. split; [exact H2|]. split; [exact H3|].
  rewrite H5 by discriminate. reflexivity.
Defined.

(** X18. A report written to a path that already holds a report replaces
    it: after two calls for the same path the files are what the second
    call alone leaves, nothing of the first vector remains. *)
Theorem dump_profile_replaces_earlier_report
    (es1 es2 : list ProfileEntry) (filename : string) (env : Env) :
  es1 ≠ [] → es2 ≠ [] →
  can_open env filename = true →
  ∃ env1 env2 env2',
    dump_profile es1 filename env = Returned env1
    ∧ dump_profile es2 filename env1 = Returned env2
    ∧ dump_profile es2 filename env = Returned env2'
    ∧ files env2 = files env2'.
Proof.
  intros Hne1 Hne2 Hopen.
  destruct (dump_profile_success es1 filename Hne1) as [text1 Htext1].
  destruct (dump_profile_success es2 filename Hne2) as [text2 Htext2].
  eexists _, _, _. split; [by apply Htext1|]. split; [by apply Htext2|].
  split; [by apply Htext2|]. cbn [files]. by rewrite insert_insert_eq.
Qed.

Lemma dump_profile_replaces_earlier_report_witness :
  let es1 := [mkProfileEntry "solve" 4 (Double.of_Z 2) 0;
              mkProfileEntry "io" 1 (Double.of_Z 1) 0] in
  let es2 := [mkProfileEntry "factor" 1 (Double.of_Z 3) 0] in
  let env := mkEnv ∅ (λ _, true) EmptyString EmptyString in
  ∃ env1 env2,
    dump_profile es1 "p.csv" env = Returned env1
    ∧ dump_profile es2 "p.csv" env1 = Returned env2
    ∧ files env2
      = {[ "p.csv" := ("name,calls,total_seconds,avg_seconds,total_bytes" ++ nl
                       ++ "factor,1,3.000000,3.000000,0" ++ nl)%string ]}.
Proof.
  intros es1 es2 env.
  assert (Hne1 : es1 ≠ []) by discriminate.
  assert (Hne2 : es2 ≠ []) by discriminate.
  destruct (dump_profile_replaces_earlier_report es1 es2 "p.csv" env Hne1 Hne2 eq_refl)
    as (env1 & env2 & env2' & H1 & H2 & H3 & H4).
  exists env1, env2. split; [exact H1|]. split; [exact H2|].
  rewrite H4. vm_compute in H3. injection H3 as <-. vm_compute. reflexivity.
Defined.

(** ** From the registry to the file *)

Lemma entries_sorted p : reachable p → StronglySorted total_ge (entries p).1.
Proof.
  intros Hp. pose proof (registry_nonneg_no_nan _ (reachable_nonneg p Hp)) as Hnn.
  simpl. unfold std_sort.
  apply (Sorted_StronglySorted_on
           (λ e, Double.is_nan (total_seconds e) = false)
           (may_precede by_total_desc)).
  - apply may_precede_total_ge.
  - apply total_ge_trans.
  - unfold no_nan in Hnn. by rewrite merge_sort_Permutation.
  - apply Sorted_merge_sort, _.
Qed.

Lemma entries_permutation p : (entries p).1 ≡ₚ (map_to_list (entries_ p)).*2.
Proof.
  simpl. unfold std_sort. rewrite merge_sort_Permutation.
  by rewrite collect_entries_values.
Qed.

Lemma entries_nonempty p : entries_ p ≠ ∅ → (entries p).1 ≠ [].
Proof.
  intros Hne Hnil. apply Hne. apply map_to_list_empty_iff.
  pose proof (entries_permutation p) as Hperm. rewrite Hnil in Hperm.
  apply Permutation_nil_l in Hperm. symmetry in Hperm.
  by apply fmap_nil_inv in Hperm.
Qed.

(** X19. Reporting what [entries] returns, in a state reached under a
    clock that does not go backwards: as long as something has been
    recorded, the path can be opened and it does not end in [.json], the
    rows of the CSV file are the recorded entries, one row each, in the
    order of their total time, the largest first. *)
Theorem report_rows_are_sorted (p : Profiler) (filename : string) (env : Env) :
  reachable p →
  entries_ p ≠ ∅ →
  can_open env filename = true →
  (¬ ∃ stem, filename = (stem ++ ".json")%string) →
  ∃ env',
    dump_profile (entries p).1 filename env = Returned env'
    ∧ files env' !! filename
      = Some (csv_header ++ concat_strings (map csv_row (entries p).1))%string
    ∧ StronglySorted total_ge (entries p).1
    ∧ (entries p).1 ≡ₚ (map_to_list (entries_ p)).*2.
Proof.
  intros Hp Hne Hopen Hcsv.
  destruct (dump_profile_writes (entries p).1 filename env (entries_nonempty p Hne) Hopen)
    as (env' & Hret & _ & Hfile).
  exists env'. split; [exact Hret|]. split.
  - rewrite (Hfile Hcsv). apply lookup_insert_eq.
  - split; [by apply entries_sorted|apply entries_permutation].
Qed.

Lemma report_rows_are_sorted_witness :
  let p := stop 0%nat 1000000400 "c"
             (stop 0%nat 3000000200 "b"
                (stop 0%nat 5000000100 "a"
                   (start 0%nat 400 "c"
                      (start 0%nat 200 "b" (start 0%nat 100 "a" Profiler_init))))) in
  let env := mkEnv ∅ (λ _, true) EmptyString EmptyString in
  ∃ env',
    dump_profile (entries p).1 "genie_profile.csv" env = Returned env'
    ∧ files env' !! "genie_profile.csv"
      = Some ("name,calls,total_seconds,avg_seconds,total_bytes" ++ nl
              ++ "a,1,5.000000,5.000000,0" ++ nl
              ++ "b,1,3.000000,3.000000,0" ++ nl
              ++ "c,1,1.000000,1.000000,0" ++ nl)%string.
Proof.
  intros p env.
  assert (Hp : reachable p).
  { repeat (apply reachable_stop;
              [|intros st Hst; vm_compute in Hst; injection Hst as <-; simpl; lia]).
    repeat apply reachable_start. apply reachable_init. }
  assert (Hne : entries_ p ≠ ∅).
  { intros Hempty. assert (H : entries_ p !! "a" = None) by (by rewrite Hempty).
    vm_compute in H. discriminate. }
  assert (Hcsv : ¬ ∃ stem, "genie_profile.csv"%string = (stem ++ ".json")%string).
  { intros Hex. apply ends_with_spec in Hex. vm_compute in Hex. discriminate. }
  destruct (report_rows_are_sorted p "genie_profile.csv" env Hp Hne eq_refl Hcsv)
    as (env' & H1 & H2 & _).
  exists env'. split; [exact H1|]. rewrite H2. vm_compute. reflexivity.
Defined.

Lemma string_app_length_ne (a b c : string) :
  String.length b ≠ String.length c → (a ++ b)%string ≠ (a ++ c)%string.
Proof.
  intros Hlen Heq. apply Hlen. apply (f_equal String.length) in Heq.
  rewrite !string_length_app in Heq. lia.
Qed.

(** X20. Reporting what [entries] returns ends in the warning about
    missing data exactly when the registry is empty, which it is right
    after [clear]: then no file is written.  With anything recorded the
    outcome is another one, whether the path can be opened or not. *)
Theorem report_warns_iff_nothing_recorded
    (p : Profiler) (filename : string) (env : Env) :
  (entries_ p = ∅
   ↔ dump_profile (entries p).1 filename env
     = Returned (cerr_write ("Warning: No profiling data collected" ++ nl) env))
  ∧ dump_profile (entries (clear p)).1 filename env
    = Returned (cerr_write ("Warning: No profiling data collected" ++ nl) env)
  ∧ files (cerr_write ("Warning: No profiling data collected" ++ nl) env) = files env.
Proof.
  split; [split|split; [|reflexivity]].
  - intros Hempty. by rewrite (entries_empty_registry p Hempty).
  - intros Hwarn.
    destruct (decide (entries_ p = ∅)) as [|Hne]; [done|exfalso].
    pose proof (entries_nonempty p Hne) as Hes.
    destruct (can_open env filename) eqn:Hopen.
    + destruct (dump_profile_success (entries p).1 filename Hes) as [text Htext].
      rewrite (Htext env Hopen) in Hwarn. injection Hwarn as _ _ Hcerr.
      apply (f_equal String.length) in Hcerr. rewrite string_length_app in Hcerr.
      simpl in Hcerr. lia.
    + unfold dump_profile, ofstream_open in Hwarn. rewrite Hopen in Hwarn.
      destruct (entries p).1 as [|e es]; [done|].
      injection Hwarn as Hcerr.
      revert Hcerr. apply string_app_length_ne.
      rewrite !string_length_app. simpl. lia.
  - by rewrite (entries_empty_registry (clear p)).
Qed.

(** ** Reading the CSV report back *)

Lemma count_char_app c a b :
  count_char c (a ++ b) = (count_char c a + count_char c b)%nat.
Proof.
  induction a as [|x a IH]; [by rewrite string_app_nil_l|].
  rewrite string_app_cons. simpl. rewrite IH. lia.
Qed.

Lemma count_char_digits c s :
  all_digits s = true → is_digit c = false → count_char c s = 0%nat.
Proof.
  intros Hs Hc. induction s as [|a s IH]; [done|].
  simpl in Hs. apply andb_true_iff in Hs as [Ha Hs].
  simpl. rewrite (is_digit_not a c Ha Hc). by rewrite IH.
Qed.

Lemma is_separator_cases c : is_separator c = true → c = ","%char ∨ c = "010"%char.
Proof.
  unfold is_separator. intros H. apply orb_true_iff in H as [H|H];
    apply Ascii.eqb_eq in H; auto.
Qed.

Lemma count_char_show_u64 c n : is_separator c = true → count_char c (show_u64 n) = 0%nat.
Proof.
  intros Hc. apply count_char_digits; [apply show_u64_digits|].
  by destruct (is_separator_cases c Hc) as [-> | ->].
Qed.

Lemma count_char_show_micro c q : is_separator c = true → count_char c (show_micro q) = 0%nat.
Proof.
  intros Hc. unfold show_micro.
  rewrite !count_char_app, count_char_show_u64 by done.
  rewrite (count_char_digits c (show_padded 6 _)).
  - by destruct (is_separator_cases c Hc) as [-> | ->].
  - apply show_padded_digits.
  - by destruct (is_separator_cases c Hc) as [-> | ->].
Qed.

Lemma count_char_show_fixed6 c x :
  is_separator c = true → count_char c (show_fixed6 x) = 0%nat.
Proof.
  intros Hc. destruct x as [s|s| |s m e]; unfold show_fixed6.
  - rewrite count_char_app, count_char_show_micro by done.
    destruct (is_separator_cases c Hc) as [-> | ->]; by destruct s.
  - destruct (is_separator_cases c Hc) as [-> | ->]; by destruct s.
  - by destruct (is_separator_cases c Hc) as [-> | ->].
  - rewrite count_char_app, count_char_show_micro by done.
    destruct (is_separator_cases c Hc) as [-> | ->]; by destruct s.
Qed.

Lemma count_char_csv_line c e :
  is_separator c = true →
  count_char c (csv_line e)
  = (count_char c (name e) + (if Ascii.eqb c "," then 4 else 0))%nat.
Proof.
  intros Hc. unfold csv_line.
  rewrite !count_char_app, !count_char_show_u64, !count_char_show_fixed6 by done.
  destruct (is_separator_cases c Hc) as [-> | ->]; simpl; lia.
Qed.

Lemma csv_row_line e : csv_row e = (csv_line e ++ nl)%string.
Proof. unfold csv_row, csv_line. by rewrite !string_app_assoc. Qed.

Lemma length_split_on sep s : length (split_on sep s) = S (count_char sep s).
Proof.
  induction s as [|c s IH]; [done|]. simpl.
  destruct (Ascii.eqb c sep); simpl; [by rewrite IH|].
  destruct (split_on sep s); simpl in *; lia.
Qed.

Lemma split_on_none sep s : count_char sep s = 0%nat → split_on sep s = [s].
Proof.
  induction s as [|c s IH]; [done|]. simpl.
  destruct (Ascii.eqb c sep); [done|]. intros H. by rewrite IH.
Qed.

Lemma split_on_app sep a b :
  count_char sep a = 0%nat →
  split_on sep (a ++ String sep b) = a :: split_on sep b.
Proof.
  induction a as [|c a IH].
  - intros _. rewrite string_app_nil_l. simpl. by rewrite Ascii.eqb_refl.
  - rewrite string_app_cons. simpl.
    destruct (Ascii.eqb c sep); [done|]. intros H. by rewrite IH.
Qed.

Lemma string_app_sep (a : string) (sep : ascii) (b : string) :
  (a ++ String sep EmptyString ++ b)%string = (a ++ String sep b)%string.
Proof. by rewrite string_app_cons, string_app_nil_l. Qed.

Lemma split_csv_line e :
  count_char "," (name e) = 0%nat →
  split_on "," (csv_line e) = csv_fields e.
Proof.
  intros Hname. unfold csv_line, csv_fields.
  change ","%string with (String "," EmptyString).
  rewrite !string_app_sep.
  rewrite split_on_app by done.
  rewrite split_on_app by (by apply count_char_show_u64).
  rewrite split_on_app by (by apply count_char_show_fixed6).
  rewrite split_on_app by (by apply count_char_show_fixed6).
  rewrite split_on_none by (by apply count_char_show_u64).
  reflexivity.
Qed.

Lemma split_rows es :
  Forall (λ e, count_char "010" (name e) = 0%nat) es →
  split_on "010" (concat_strings (map csv_row es)) = map csv_line es ++ [EmptyString].
Proof.
  induction 1 as [|e es He _ IH]; [done|].
  cbn [map concat_strings foldr]. fold (concat_strings (map csv_row es)).
  rewrite csv_row_line, string_app_assoc. unfold nl. rewrite string_app_sep.
  rewrite split_on_app.
  - rewrite IH. reflexivity.
  - rewrite count_char_csv_line by done. rewrite He. reflexivity.
Qed.

Lemma csv_read_report es :
  Forall (λ e, count_char "," (name e) = 0%nat ∧ count_char "010" (name e) = 0%nat) es →
  csv_read (csv_header ++ concat_strings (map csv_row es))
  = csv_header_fields :: map csv_fields es.
Proof.
  intros Hes. unfold csv_read, csv_header, nl.
  rewrite string_app_assoc, string_app_sep.
  rewrite split_on_app by reflexivity.
  rewrite split_rows by (eapply Forall_impl; [exact Hes|]; by intros e [_ ?]).
  rewrite app_comm_cons, removelast_last.
  rewrite fmap_cons. f_equal.
  induction Hes as [|e es [He _] _ IH]; [done|].
  cbn [map]. rewrite fmap_cons, IH. f_equal. by apply split_csv_line.
Qed.

(** X21. The CSV report can be read back: when no name holds a comma or a
    newline, the file written for a path that does not end in [.json]
    consists of lines that split at the commas into the five header fields
    and, for each entry in order, its name, calls, total seconds, average
    seconds and total bytes. *)
Theorem csv_report_reads_back
    (es : list ProfileEntry) (filename : string) (env : Env) :
  es ≠ [] →
  can_open env filename = true →
  (¬ ∃ stem, filename = (stem ++ ".json")%string) →
  Forall (λ e, count_char "," (name e) = 0%nat ∧ count_char "010" (name e) = 0%nat) es →
  ∃ env' text,
    dump_profile es filename env = Returned env'
    ∧ files env' !! filename = Some text
    ∧ csv_read text = csv_header_fields :: map csv_fields es.
Proof.
  intros Hne Hopen Hcsv Hes.
  destruct (dump_profile_writes es filename env Hne Hopen) as (env' & Hret & _ & Hfile).
  exists env', (csv_header ++ concat_strings (map csv_row es))%string.
  split; [exact Hret|]. split.
  - rewrite (Hfile Hcsv). apply lookup_insert_eq.
  - by apply csv_read_report.
Qed.

Lemma csv_report_reads_back_witness :
  let es := [mkProfileEntry "solve" 4 (Double.of_Z 2) 0;
             mkProfileEntry "io read" 0 Double.zero 512] in
  let env := mkEnv ∅ (λ _, true) EmptyString EmptyString in
  ∃ env' text,
    dump_profile es "profile.csv" env = Returned env'
    ∧ files env' !! "profile.csv" = Some text
    ∧ csv_read text
      = [["name"; "calls"; "total_seconds"; "avg_seconds"; "total_bytes"];
         ["solve"; "4"; "2.000000"; "0.500000"; "0"];
         ["io read"; "0"; "0.000000"; "0.000000"; "512"]]%string.
Proof.
  intros es env.
  assert (Hne : es ≠ []) by discriminate.
  assert (Hcsv : ¬ ∃ stem, "profile.csv"%string = (stem ++ ".json")%string).
  { intros Hex. apply ends_with_spec in Hex. vm_compute in Hex. discriminate. }
  assert (Hes : Forall (λ e, count_char "," (name e) = 0%nat
                             ∧ count_char "010" (name e) = 0%nat) es).
  { repeat constructor. }
  destruct (csv_report_reads_back es "profile.csv" env Hne eq_refl Hcsv Hes)
    as (env' & text & H1 & H2 & H3).
  exists env', text. split; [exact H1|]. split; [exact H2|].
  rewrite H3. vm_compute. reflexivity.
Defined.

(** X22. The CSV writer puts the name into the row as it is, without
    quoting: a row splits at the commas into five fields plus one for every
    comma in the name, and the row takes one line plus one for every
    newline in the name. *)
Theorem csv_row_is_not_quoted (e : ProfileEntry) :
  length (split_on "," (csv_row e)) = (5 + count_char "," (name e))%nat
  ∧ count_char "010" (csv_row e) = (1 + count_char "010" (name e))%nat.
Proof.
  rewrite length_split_on, csv_row_line, !count_char_app.
  rewrite !count_char_csv_line by reflexivity. unfold nl. simpl. lia.
Qed.

(** ** The JSON report read back *)

Lemma plain_name_safe s : plain_name s = true → json_safe_name s = true.
Proof.
  induction s as [|c s IH]; [done|]. simpl. intros H.
  apply andb_true_iff in H as [Hc Hs]. rewrite (IH Hs), andb_true_r.
  unfold plain_char in Hc. unfold json_safe_char.
  apply andb_true_iff in Hc as [Hc Hbs]. apply andb_true_iff in Hc as [Hc Hdq].
  apply andb_true_iff in Hc as [Hlo _].
  rewrite Hdq, Hbs. simpl. apply negb_true_iff, Nat.ltb_ge. by apply Nat.leb_le.
Qed.

(** X23. The JSON report can be read back: when every name is made of
    printable ASCII characters other than the double quote and the
    backslash and every total is finite, the file written for a path that
    ends in [.json] is a JSON text, an array holding for each entry in
    order an object with its name as a string, its calls and its total
    seconds as numbers in the digits that were printed, and its total
    bytes too when they are not zero. *)
Theorem json_report_reads_back
    (es : list ProfileEntry) (stem : string) (env : Env) :
  es ≠ [] →
  Forall (λ e, plain_name (name e) = true
               ∧ Double.is_finite (total_seconds e) = true) es →
  can_open env (stem ++ ".json")%string = true →
  ∃ env' text,
    dump_profile es (stem ++ ".json")%string env = Returned env'
    ∧ files env' !! (stem ++ ".json")%string = Some text
    ∧ json_parse text = Some (JArray (map json_object es)).
Proof.
  intros Hne Hes Hopen. apply dump_profile_json_parses; [done| |done].
  eapply Forall_impl; [exact Hes|]. intros e [Hn Hf]. split; [|exact Hf].
  by apply plain_name_safe.
Qed.

Lemma json_report_reads_back_witness :
  let es := [mkProfileEntry "matvec_Xv" 1500 (Double.of_Z 45) 0;
             mkProfileEntry "io_read_genotype" 3 (Double.of_Z 1) 4096] in
  let env := mkEnv ∅ (λ _, true) EmptyString EmptyString in
  ∃ env' text,
    dump_profile es "genie_profile.json" env = Returned env'
    ∧ files env' !! "genie_profile.json" = Some text
    ∧ json_parse text
      = Some (JArray
                [JObject [("name", JString "matvec_Xv"); ("calls", JNumber "1500");
                          ("total_seconds", JNumber "45.000000")];
                 JObject [("name", JString "io_read_genotype"); ("calls", JNumber "3");
                          ("total_seconds", JNumber "1.000000");
                          ("total_bytes", JNumber "4096")]])%string.
Proof.
  intros es env.
  assert (Hne : es ≠ []) by discriminate.
  assert (Hes : Forall (λ e, plain_name (name e) = true
                             ∧ Double.is_finite (total_seconds e) = true) es).
  { repeat constructor. }
  destruct (json_report_reads_back es "genie_profile" env Hne Hes eq_refl)
    as (env' & text & H1 & H2 & H3).
  exists env', text. split; [exact H1|]. split; [exact H2|].
  rewrite H3. vm_compute. reflexivity.
Defined.

(** X24. [dump_profile] always returns and never leaves an empty file:
    either it changes no file at all, or the file at the path holds a whole
    report, which starts with the opening bracket of the JSON array and
    ends with its closing bracket, or starts with the CSV header line.
    (Writes to an open stream are taken to succeed.) *)
Theorem dump_profile_never_leaves_an_empty_file
    (es : list ProfileEntry) (filename : string) (env : Env) :
  ∃ env',
    dump_profile es filename env = Returned env'
    ∧ (files env' = files env
       ∨ (∃ rest, files env' !! filename = Some ("[" ++ nl ++ rest ++ "]" ++ nl)%string)
       ∨ (∃ rest, files env' !! filename = Some (csv_header ++ rest)%string)).
Proof.
  destruct es as [|e es]; [eexists; split; [reflexivity|by left]|].
  destruct (can_open env filename) eqn:Hopen.
  - assert (Hne : e :: es ≠ []) by discriminate.
    destruct (dump_profile_writes (e :: es) filename env Hne Hopen)
      as (env' & Hret & Hjson & Hcsv).
    exists env'. split; [exact Hret|]. right.
    destruct (ends_with_cases ".json" filename) as [Hs|Hs].
    + left. apply ends_with_spec in Hs. rewrite (Hjson Hs), lookup_insert_eq.
      rewrite write_json_text. by eexists.
    + right. assert (Hn : ¬ ∃ stem, filename = (stem ++ ".json")%string).
      { intros Hex. apply ends_with_spec in Hex. congruence. }
      rewrite (Hcsv Hn), lookup_insert_eq. by eexists.
  - eexists. unfold dump_profile, ofstream_open. rewrite Hopen.
    split; [reflexivity|by left].
Qed.
